(** * promptitecture: the PRM local planner and path ranker

    A shallow embedding of [src/javascript/prm/LocalPlanner.js] and
    [src/javascript/prm/PathRanker.js], and the properties of the two
    engines stated in the specification.

    JavaScript numbers are IEEE 754 binary64 values: they are modelled by
    Rocq's primitive floats, so every arithmetic step rounds, overflows and
    produces NaN exactly where the program does.  Array lengths, loop
    indices and ranks are natural numbers.  [Math.random] and [Date.now]
    read an explicit world that is threaded through the planner;
    [Math.exp], which has no counterpart on primitive floats, is a
    parameter of the planner. *)

From Stdlib Require Import ZArith Uint63 Floats Lia Permutation Sorted.
From stdpp Require Import gmap strings list.

Set Warnings "-inexact-float".
Set Default Proof Using "Type".

Open Scope float_scope.

(** ** JavaScript values and the built-ins the engines use *)

Module JS.

(** A number read from a field that may be absent: [None] is
    [undefined]. *)
Definition value := option float.

(** ToNumber: [undefined] converts to NaN. *)
Definition ToNumber (v : value) : float :=
  match v with
  | Some x => x
  | None => nan
  end.

(** ToBoolean on numbers: [undefined], NaN, [+0] and [-0] are falsy. *)
Definition truthy (x : float) : bool := negb (is_zero x || is_nan x).

(** [v || d] for a numeric field [v]. *)
Definition or_default (v : value) (d : float) : float :=
  match v with
  | Some x => if truthy x then x else d
  | None => d
  end.

(** ToBoolean on a boolean field that may be absent. *)
Definition truthy_bool (v : option bool) : bool :=
  match v with
  | Some b => b
  | None => false
  end.

(** [a > b] on numbers. *)
Definition gtb (a b : float) : bool := b <? a.

(** An array length or loop index as a number.  The conversion is exact
    up to [2^53]; arrays have fewer than [2^32] elements. *)
Definition of_nat (n : nat) : float := of_uint63 (Uint63.of_Z (Z.of_nat n)).

(** A non-negative integer as a number. *)
Definition of_Z (z : Z) : float := of_uint63 (Uint63.of_Z z).

Definition is_pos_zero (x : float) : bool := is_zero x && negb (get_sign x).
Definition is_neg_zero (x : float) : bool := is_zero x && get_sign x.

(** [Math.max(...l)]: starts from [-Infinity], NaN is absorbing, and
    [+0] counts as larger than [-0]. *)
Definition max_step (highest x : float) : float :=
  if is_nan highest || is_nan x then nan
  else if is_pos_zero x && is_neg_zero highest then x
  else if highest <? x then x
  else highest.

Definition Math_max (l : list float) : float :=
  fold_left max_step l neg_infinity.

(** [Math.min(...l)]: starts from [+Infinity], NaN is absorbing, and
    [-0] counts as smaller than [+0]. *)
Definition min_step (lowest x : float) : float :=
  if is_nan lowest || is_nan x then nan
  else if is_neg_zero x && is_pos_zero lowest then x
  else if x <? lowest then x
  else lowest.

Definition Math_min (l : list float) : float :=
  fold_left min_step l infinity.

(** [Math.round]: the integer nearest to [x], ties towards [+Infinity];
    the sign of a zero result is the sign of [x].  Computed exactly on
    the mantissa and exponent of [x]. *)
Definition Math_round (x : float) : float :=
  match Prim2SF x with
  | S754_finite s m e =>
      if (0 <=? e)%Z then x
      else
        let k := (- e)%Z in
        let n := if s then Z.neg m else Z.pos m in
        let z := Z.shiftr (2 * n + 2 ^ k) (k + 1) in
        match z with
        | Z0 => if s then neg_zero else zero
        | Z.pos _ => of_Z z
        | Z.neg _ => - of_Z (- z)
        end
  | _ => x
  end.

(** The state in which the promise returned by an [async] function
    settles: fulfilled with the result of the body, or rejected with
    the TypeError the body threw. *)
Inductive Settled (A : Type) : Type :=
| Resolved (v : A)
| Rejected_TypeError.
Arguments Resolved {A} v.
Arguments Rejected_TypeError {A}.

(** An [async] function returns a promise of its result; [await] gives
    the result. *)
Inductive Promise (A : Type) : Type :=
| Fulfilled (v : A).
Arguments Fulfilled {A} v.

Definition await {A} (p : Promise A) : A :=
  match p with
  | Fulfilled v => v
  end.

(** [Array.prototype.includes] on an array of strings. *)
Definition includes (l : list string) (x : string) : bool :=
  existsb (String.eqb x) l.

(** [Array.prototype.sort] with a comparison function.  The language
    requires a stable sort; the result of the comparison function is
    converted as SortCompare does (NaN counts as [+0]), and an element
    moves behind another only when the comparison is positive.  This
    is the order the language prescribes when the comparison is
    consistent; when it is not (for the ranker, when a score among
    three or more is NaN) the language leaves the order to the engine,
    and the order computed here is one of the possible ones: nothing
    is stated about the order then. *)
Section Sort.
Context {A : Type} (comparefn : A -> A -> float).

Definition SortCompare (x y : A) : float :=
  let v := comparefn x y in
  if is_nan v then zero else v.

Fixpoint sort_insert (x : A) (l : list A) : list A :=
  match l with
  | [] => [x]
  | y :: l' =>
      if 0 <? SortCompare x y then y :: sort_insert x l'
      else x :: y :: l'
  end.

Definition Array_sort (l : list A) : list A :=
  foldr sort_insert [] l.
End Sort.

End JS.

(** ** The world: the random source and the clock *)

Record World := {
  draws : nat -> float;   (* the successive results of Math.random() *)
  cursor : nat;           (* how many have been consumed *)
  clock : Z               (* Date.now() *)
}.

Definition Rand (A : Type) : Type := World -> A * World.

Definition ret {A} (a : A) : Rand A := fun w => (a, w).

Definition bind {A B} (m : Rand A) (k : A -> Rand B) : Rand B :=
  fun w => let (a, w') := m w in k a w'.

Notation "x <- m ;; k" := (bind m (fun x => k))
  (at level 100, m at next level, right associativity).

Definition Math_random : Rand float :=
  fun w => (draws w (cursor w),
            {| draws := draws w; cursor := S (cursor w); clock := clock w |}).

Definition Date_now : Rand Z := fun w => (clock w, w).

(** ** LocalPlanner.js *)

Module LocalPlanner.
Import JS.

(** *** Data model *)

(** Identifiers: the caller's own, or the synthetic
    [waypoint_<i>_<Date.now()>] of an interpolated waypoint. *)
Inductive Id : Type :=
| given_id (s : string)
| waypoint_id (i : nat) (now : Z).

Record Config := {
  id : Id;
  layerSequence : list string;
  confidenceThreshold : float;
  parallelizationFactor : float;
  processingMode : string;
  tokenCost : value
}.

Record Constraints := {
  maxTokens : value;
  minConfidence : value
}.

(** [layerDependencies] and [constraints] may both be absent.  The map
    holds the own properties of the [layerDependencies] object, a plain
    object whose values are arrays of layer names. *)
Record Architecture := {
  layerDependencies : option (gmap string (list string));
  constraints : option Constraints
}.

Record PlanResult := {
  waypoints : list Config;
  cost : float;
  probability : float;
  isValid : bool;
  numSteps : nat
}.

(** *** The constructor *)

Record Options := {
  interpolationSteps : nat;
  collisionCheckEnabled : bool;
  maxTransitionCost : float
}.

(** The argument of the constructor: each key may be absent. *)
Record UserOptions := {
  user_interpolationSteps : option nat;
  user_collisionCheckEnabled : option bool;
  user_maxTransitionCost : option float
}.

(** The defaults are computed first and [...options] is spread over
    them, so a key that is present wins, whatever its value. *)
Definition new (options : UserOptions) : Options :=
  {| interpolationSteps := default 5%nat (user_interpolationSteps options);
     collisionCheckEnabled := default true (user_collisionCheckEnabled options);
     maxTransitionCost := default 500 (user_maxTransitionCost options) |}.

Section Methods.
(** [Math.exp] *)
Variable Math_exp : float -> float.
(** [this.options] *)
Variable this : Options.

(** *** Interpolation *)

Definition _lerp (a b t : float) : float := a * (1 - t) + b * t.

(** [if (!hybrid.includes(x)) hybrid.push(x)] *)
Definition push_new (hybrid : list string) (x : string) : list string :=
  if includes hybrid x then hybrid else hybrid ++ [x].

(** The body of the blending loop at index [i]; [Math.random] is
    called only when [i < seqA.length]. *)
Definition blend_step (seqA seqB : list string) (t : float) (i : nat)
    (hybrid : list string) : Rand (list string) :=
  let from_B :=
    match seqB !! i with
    | Some b => push_new hybrid b
    | None => hybrid
    end in
  match seqA !! i with
  | Some a =>
      r <- Math_random ;;
      ret (if gtb r t then push_new hybrid a else from_B)
  | None => ret from_B
  end.

(** [for (let i = 0; i < maxLen; i++)], with [n] iterations left. *)
Fixpoint blend_loop (seqA seqB : list string) (t : float) (n i : nat)
    (hybrid : list string) : Rand (list string) :=
  match n with
  | O => ret hybrid
  | S n' =>
      hybrid' <- blend_step seqA seqB t i hybrid ;;
      blend_loop seqA seqB t n' (S i) hybrid'
  end.

Definition _interpolateSequence (seqA seqB : list string) (t : float)
    : Rand (list string) :=
  if t =? 0 then ret seqA
  else if t =? 1 then ret seqB
  else
    let maxLen := Nat.max (length seqA) (length seqB) in
    hybrid <- blend_loop seqA seqB t maxLen 0 [] ;;
    let hybrid := if includes hybrid "Input" then hybrid
                  else "Input"%string :: hybrid in
    let hybrid := if includes hybrid "Output" then hybrid
                  else hybrid ++ ["Output"%string] in
    ret hybrid.

(** The waypoint built at index [i] of the interpolation loop. *)
Definition interpolated (configA configB : Config) (i : nat) : Rand Config :=
  let t := of_nat i / of_nat (interpolationSteps this) in
  now <- Date_now ;;
  seq <- _interpolateSequence (layerSequence configA)
                              (layerSequence configB) t ;;
  ret {| id := waypoint_id i now;
         layerSequence := seq;
         confidenceThreshold :=
           _lerp (confidenceThreshold configA)
                 (confidenceThreshold configB) t;
         parallelizationFactor :=
           Math_round (_lerp (parallelizationFactor configA)
                             (parallelizationFactor configB) t);
         processingMode :=
           if t <? 0.5 then processingMode configA
           else processingMode configB;
         tokenCost :=
           Some (Math_round (_lerp (or_default (tokenCost configA) 0)
                                   (or_default (tokenCost configB) 0) t)) |}.

(** [for (let i = 0; i <= steps; i++)], with [n] iterations left. *)
Fixpoint interpolate_loop (configA configB : Config) (n i : nat)
    : Rand (list Config) :=
  match n with
  | O => ret []
  | S n' =>
      wp <- interpolated configA configB i ;;
      rest <- interpolate_loop configA configB n' (S i) ;;
      ret (wp :: rest)
  end.

Definition _interpolate (configA configB : Config) : Rand (list Config) :=
  interpolate_loop configA configB (S (interpolationSteps this)) 0.

(** *** Validity *)

(** [dependencies[current] || []], when the lookup gives the array
    declared for [current] or [undefined]: the dependencies listed for
    the layer.  The lookup can also find a member of
    [Object.prototype], and the check then throws: the functions from
    here to [plan] give the result of a call that returns, and
    [Outcome], below, says what a call does, thrown errors included. *)
Definition deps_of (architecture : Architecture) (current : string)
    : list string :=
  default [] (default ∅ (layerDependencies architecture) !! current).

(** The check made at index [i] of the dependency loop. *)
Definition hasRequiredDeps (sequence : list string)
    (architecture : Architecture) (i : nat) : bool :=
  match sequence !! i with
  | Some current =>
      forallb (fun dep => includes (take i sequence) dep)
              (deps_of architecture current)
  | None => true
  end.

Definition _isLayerSequenceValid (sequence : list string)
    (architecture : Architecture) : bool :=
  if negb (includes sequence "Input") || negb (includes sequence "Output")
  then false
  else forallb (hasRequiredDeps sequence architecture)
               (seq 1 (length sequence - 1)).

(** [architecture.constraints?.maxTokens] and
    [architecture.constraints?.minConfidence] *)
Definition constraint (field : Constraints -> value)
    (architecture : Architecture) : value :=
  match constraints architecture with
  | Some c => field c
  | None => None
  end.

Definition _isValid (config : Config) (architecture : Architecture) : bool :=
  if negb (_isLayerSequenceValid (layerSequence config) architecture)
  then false
  else if gtb (ToNumber (tokenCost config))
              (ToNumber (constraint maxTokens architecture))
  then false
  else if confidenceThreshold config
            <? ToNumber (constraint minConfidence architecture)
  then false
  else true.

(** *** Transition cost and probability *)

Definition _computeTransitionCost (wp1 wp2 : Config)
    (architecture : Architecture) : float :=
  let cost := 0 in
  let layerDiff := abs (of_nat (length (layerSequence wp1))
                        - of_nat (length (layerSequence wp2))) in
  let cost := cost + layerDiff * 50 in
  let cost := if negb (String.eqb (processingMode wp1) (processingMode wp2))
              then cost + 100 else cost in
  let confDiff := abs (confidenceThreshold wp1 - confidenceThreshold wp2) in
  let cost := cost + confDiff * 80 in
  let cost := cost + 30 in
  cost.

Definition _configDistance (configA configB : Config) : float :=
  let distance := 0 in
  let maxLen := Nat.max (length (layerSequence configA))
                        (length (layerSequence configB)) in
  let seqDiff := abs (of_nat (length (layerSequence configA))
                      - of_nat (length (layerSequence configB)))
                 / of_nat maxLen in
  let distance := distance + seqDiff * 40 in
  let confDiff := abs (confidenceThreshold configA
                       - confidenceThreshold configB) in
  let distance := distance + confDiff * 30 in
  let parDiff := abs (parallelizationFactor configA
                      - parallelizationFactor configB) / 4 in
  let distance := distance + parDiff * 30 in
  distance.

(** Jaccard similarity of the two token sets. *)
Definition _layerCompatibility (seqA seqB : list string) : float :=
  let setA : gset string := list_to_set seqA in
  let setB : gset string := list_to_set seqB in
  let intersection := setA ∩ setB in
  let union := setA ∪ setB in
  of_nat (size intersection) / of_nat (size union).

Definition _computeTransitionProbability (wp1 wp2 : Config)
    (architecture : Architecture) : float :=
  let probability := 1 in
  let distance := _configDistance wp1 wp2 in
  let distanceFactor := Math_exp ((- distance) / 50) in
  let probability := probability * distanceFactor in
  let probability := if _isValid wp2 architecture
                     then probability * 1.2
                     else probability * 0.3 in
  let compatibility := _layerCompatibility (layerSequence wp1)
                                           (layerSequence wp2) in
  let probability := probability * compatibility in
  Math_min [1; Math_max [0; probability]].

Definition canConnect (configA configB : Config) (maxDistance : float)
    : bool :=
  _configDistance configA configB <=? maxDistance.

(** *** plan *)

(** The loop over consecutive waypoints, from the pair that starts the
    list: the result is [isValid], [totalCost] and
    [cumulativeProbability] when the loop ends. *)
Fixpoint plan_loop (architecture : Architecture) (waypoints : list Config)
    (totalCost cumulativeProbability : float) : bool * float * float :=
  match waypoints with
  | wp1 :: ((wp2 :: _) as rest) =>
      if collisionCheckEnabled this && negb (_isValid wp1 architecture)
      then (false, totalCost, cumulativeProbability)
      else
        let transitionCost := _computeTransitionCost wp1 wp2 architecture in
        let totalCost := totalCost + transitionCost in
        let transitionProb :=
          _computeTransitionProbability wp1 wp2 architecture in
        let cumulativeProbability := cumulativeProbability * transitionProb in
        if gtb totalCost (maxTransitionCost this)
        then (false, totalCost, cumulativeProbability)
        else plan_loop architecture rest totalCost cumulativeProbability
  | _ => (true, totalCost, cumulativeProbability)
  end.

(** [plan] is declared [async]: a call runs the body and returns a
    promise of the result. *)
Definition plan (configA configB : Config) (architecture : Architecture)
    : Rand (Promise PlanResult) :=
  waypoints <- _interpolate configA configB ;;
  let '(isValid, totalCost, cumulativeProbability) :=
    plan_loop architecture waypoints 0 1 in
  ret (Fulfilled {| waypoints := if isValid then waypoints else [];
                    cost := totalCost;
                    probability := cumulativeProbability;
                    isValid := isValid;
                    numSteps := length waypoints |}).

(** *** optimizePath *)

(** [optimizePath] does not await the call of [plan]: [result] is the
    promise itself, which has no property [isValid] or [cost]. *)
Definition promise_isValid (result : Promise PlanResult) : option bool :=
  None.
Definition promise_cost (result : Promise PlanResult) : value := None.

(** [for (let i = waypoints.length - 1; i > current + 1; i--)] with [k]
    candidates left, the next one being [i = current + 1 + k]; the
    result is [farthest]. *)
Fixpoint shortcut_scan (waypoints : list Config) (first : Config)
    (architecture : Architecture) (current k : nat) : Rand nat :=
  match k with
  | O => ret (current + 1)%nat
  | S k' =>
      let i := (current + 1 + k)%nat in
      result <- plan (nth current waypoints first)
                     (nth i waypoints first) architecture ;;
      if truthy_bool (promise_isValid result)
         && (ToNumber (promise_cost result) <? maxTransitionCost this)
      then ret i
      else shortcut_scan waypoints first architecture current k'
  end.

(** [while (current < waypoints.length - 1)]; [fuel] bounds the
    number of iterations. *)
Fixpoint optimize_loop (waypoints : list Config) (first : Config)
    (architecture : Architecture) (fuel current : nat)
    (optimized : list Config) : Rand (list Config) :=
  match fuel with
  | O => ret optimized
  | S fuel' =>
      if (current <? length waypoints - 1)%nat then
        farthest <- shortcut_scan waypoints first architecture current
                      (length waypoints - 1 - (current + 1)) ;;
        optimize_loop waypoints first architecture fuel' farthest
                      (optimized ++ [nth farthest waypoints first])
      else ret optimized
  end.

(** [current] grows by at least one in every iteration, so
    [waypoints.length] iterations are enough. *)
Definition optimizePath (waypoints : list Config)
    (architecture : Architecture) : Rand (list Config) :=
  if (length waypoints <=? 2)%nat then ret waypoints
  else
    match waypoints with
    | [] => ret waypoints
    | first :: _ =>
        optimize_loop waypoints first architecture (length waypoints) 0
                      [first]
    end.

End Methods.

(** *** What a call does, thrown errors included *)

(** [None] stands for a thrown TypeError. *)
Module Outcome.

(** The names of the members of [Object.prototype]. *)
Definition Object_prototype : list string :=
  ["constructor"; "__defineGetter__"; "__defineSetter__";
   "hasOwnProperty"; "__lookupGetter__"; "__lookupSetter__";
   "isPrototypeOf"; "propertyIsEnumerable"; "toString"; "valueOf";
   "__proto__"; "toLocaleString"]%string.

(** What [dependencies[current]] finds: the array declared for
    [current]; or, for a name that is not a key of the object, the
    member of [Object.prototype] of that name, if there is one; or
    [undefined]. *)
Inductive Property : Type :=
| declared (deps : list string)
| prototype_member
| undefined.

Definition dependencies_get (architecture : Architecture)
    (current : string) : Property :=
  match default ∅ (layerDependencies architecture) !! current with
  | Some deps => declared deps
  | None =>
      if includes Object_prototype current then prototype_member
      else undefined
  end.

Section Methods.
(** [Math.exp] *)
Variable Math_exp : float -> float.
(** [this.options] *)
Variable this : Options.

(** The check made at index [i] of the dependency loop.  A member of
    [Object.prototype] is a function, or the prototype itself for
    ['__proto__']: it is truthy, so [|| []] keeps it, and it has no
    method [every], so [deps.every(...)] throws. *)
Definition hasRequiredDeps (sequence : list string)
    (architecture : Architecture) (i : nat) : option bool :=
  match sequence !! i with
  | Some current =>
      match dependencies_get architecture current with
      | declared deps =>
          Some (forallb (fun dep => includes (take i sequence) dep) deps)
      | undefined => Some true
      | prototype_member => None
      end
  | None => Some true
  end.

(** [for (let i = 1; i < sequence.length; i++)], with [n] iterations
    left: the loop returns [false] at the first failed check. *)
Fixpoint dependency_loop (sequence : list string)
    (architecture : Architecture) (n i : nat) : option bool :=
  match n with
  | O => Some true
  | S n' =>
      match hasRequiredDeps sequence architecture i with
      | Some true => dependency_loop sequence architecture n' (S i)
      | Some false => Some false
      | None => None
      end
  end.

Definition _isLayerSequenceValid (sequence : list string)
    (architecture : Architecture) : option bool :=
  if negb (includes sequence "Input") || negb (includes sequence "Output")
  then Some false
  else dependency_loop sequence architecture (length sequence - 1) 1.

Definition _isValid (config : Config) (architecture : Architecture)
    : option bool :=
  match _isLayerSequenceValid (layerSequence config) architecture with
  | Some ok =>
      Some (if negb ok then false
            else if gtb (ToNumber (tokenCost config))
                        (ToNumber (constraint maxTokens architecture))
            then false
            else if confidenceThreshold config
                      <? ToNumber (constraint minConfidence architecture)
            then false
            else true)
  | None => None
  end.

Definition _computeTransitionProbability (wp1 wp2 : Config)
    (architecture : Architecture) : option float :=
  let probability := 1 in
  let distance := _configDistance wp1 wp2 in
  let distanceFactor := Math_exp ((- distance) / 50) in
  let probability := probability * distanceFactor in
  match _isValid wp2 architecture with
  | Some valid =>
      let probability := if valid
                         then probability * 1.2
                         else probability * 0.3 in
      let compatibility := _layerCompatibility (layerSequence wp1)
                                               (layerSequence wp2) in
      let probability := probability * compatibility in
      Some (Math_min [1; Math_max [0; probability]])
  | None => None
  end.

(** The loop of [plan]: [_isValid] is called on the first waypoint of
    a pair only when the collision check is on, and on the second one
    always, by [_computeTransitionProbability]. *)
Fixpoint plan_loop (architecture : Architecture) (waypoints : list Config)
    (totalCost cumulativeProbability : float)
    : option (bool * float * float) :=
  match waypoints with
  | wp1 :: ((wp2 :: _) as rest) =>
      match (if collisionCheckEnabled this
             then negb <$> _isValid wp1 architecture
             else Some false) with
      | Some true => Some (false, totalCost, cumulativeProbability)
      | Some false =>
          let transitionCost :=
            _computeTransitionCost wp1 wp2 architecture in
          let totalCost := totalCost + transitionCost in
          match _computeTransitionProbability wp1 wp2 architecture with
          | Some transitionProb =>
              let cumulativeProbability :=
                cumulativeProbability * transitionProb in
              if gtb totalCost (maxTransitionCost this)
              then Some (false, totalCost, cumulativeProbability)
              else plan_loop architecture rest totalCost
                             cumulativeProbability
          | None => None
          end
      | None => None
      end
  | _ => Some (true, totalCost, cumulativeProbability)
  end.

(** An error thrown in the body of the [async] function rejects the
    promise it returns. *)
Definition plan (configA configB : Config) (architecture : Architecture)
    : Rand (Settled PlanResult) :=
  waypoints <- _interpolate this configA configB ;;
  ret (match plan_loop architecture waypoints 0 1 with
       | Some (isValid, totalCost, cumulativeProbability) =>
           Resolved {| waypoints := if isValid then waypoints else [];
                       cost := totalCost;
                       probability := cumulativeProbability;
                       isValid := isValid;
                       numSteps := length waypoints |}
       | None => Rejected_TypeError
       end).

End Methods.

End Outcome.

End LocalPlanner.

(** ** PathRanker.js *)

Module PathRanker.
Import JS.

(** *** Data model *)

(** A path is an object; [===] on paths compares object identity, which
    is modelled by the address of the object. *)
Definition ref := nat.
Definition same_object (a b : ref) : bool := Nat.eqb a b.

Module Weights.
Record t := {
  probability : float;
  cost : float;
  length : float;
  entropy : float
}.
End Weights.

Module Metrics.
Record t := {
  pathProbability : value;
  totalCost : value;
  pathLength : value;
  entropy : value
}.
End Metrics.

Module PathData.
Record t := {
  path : ref;
  metrics : Metrics.t
}.
End PathData.

Module Normalized.
Record t := {
  probability : float;
  cost : float;
  length : float;
  entropy : float
}.
End Normalized.

Module Reliability.
Record t := {
  score : value;
  level : string;
  label : string
}.
End Reliability.

Module Interval.
Record t := {
  lower : float;
  point : value;
  upper : float;
  margin : float;
  width : float
}.
End Interval.

Module Recommendation.
Record t := {
  action : string;
  message : string;
  priority : string
}.
End Recommendation.

(** [{...metrics, normalized, reliability, confidence95}] *)
Module RankedMetrics.
Record t := {
  raw : Metrics.t;
  normalized : Normalized.t;
  reliability : Reliability.t;
  confidence95 : Interval.t
}.
End RankedMetrics.

Module RankedPath.
Record t := {
  rank : nat;
  path : ref;
  metrics : RankedMetrics.t;
  compositeScore : float;
  recommendation : Recommendation.t
}.

Definition with_rank (r : nat) (item : t) : t :=
  {| rank := r;
     path := path item;
     metrics := metrics item;
     compositeScore := compositeScore item;
     recommendation := recommendation item |}.
End RankedPath.

(** *** The constructor *)

Record Options := {
  weights : Weights.t
}.

Definition default_weights : Weights.t :=
  {| Weights.probability := 0.35;
     Weights.cost := 0.30;
     Weights.length := 0.15;
     Weights.entropy := 0.20 |}.

(** [options.weights], when present, replaces the default weights. *)
Definition new (user_weights : option Weights.t) : Options :=
  {| weights := default default_weights user_weights |}.

Section Methods.
(** [this.options] *)
Variable this : Options.

Definition _normalize (value min max : float) : float :=
  if max =? min then 0.5
  else (value - min) / (max - min).

Definition _normalizeMetrics (metrics : Metrics.t)
    (allPaths : list PathData.t) : Normalized.t :=
  let allMetrics := map PathData.metrics allPaths in
  let range (field : Metrics.t -> value) (dmin dmax : float) :=
    (Math_min (map (fun m => or_default (field m) dmin) allMetrics),
     Math_max (map (fun m => or_default (field m) dmax) allMetrics)) in
  let r_probability := range Metrics.pathProbability 0 1 in
  let r_cost := range Metrics.totalCost 0 1000 in
  let r_length := range Metrics.pathLength 1 10 in
  let r_entropy := range Metrics.entropy 0 5 in
  {| Normalized.probability :=
       _normalize (or_default (Metrics.pathProbability metrics) 0)
                  (fst r_probability) (snd r_probability);
     Normalized.cost :=
       1 - _normalize (or_default (Metrics.totalCost metrics) 0)
                      (fst r_cost) (snd r_cost);
     Normalized.length :=
       1 - _normalize (or_default (Metrics.pathLength metrics) 1)
                      (fst r_length) (snd r_length);
     Normalized.entropy :=
       1 - _normalize (or_default (Metrics.entropy metrics) 0)
                      (fst r_entropy) (snd r_entropy) |}.

Definition _calculateCompositeScore (normalized : Normalized.t)
    (weights : Weights.t) : float :=
  Normalized.probability normalized * Weights.probability weights
  + Normalized.cost normalized * Weights.cost weights
  + Normalized.length normalized * Weights.length weights
  + Normalized.entropy normalized * Weights.entropy weights.

Definition _calculateReliability (probability : value) : Reliability.t :=
  {| Reliability.score := probability;
     Reliability.level :=
       if gtb (ToNumber probability) 0.8 then "high"
       else if gtb (ToNumber probability) 0.5 then "medium"
       else "low";
     Reliability.label :=
       if gtb (ToNumber probability) 0.8 then "✓ Alta"
       else if gtb (ToNumber probability) 0.5 then "⚠ Media"
       else "⚠ Baja" |}.

Definition _wilson95Interval (p : value) (n : float) : Interval.t :=
  let z := 1.96 in
  let denominator := 1 + (z * z) / n in
  let center := (ToNumber p + z * z / (2 * n)) / denominator in
  let margin :=
    z * sqrt (ToNumber p * (1 - ToNumber p) / n + z * z / (4 * n * n))
    / denominator in
  {| Interval.lower := Math_max [0; center - margin];
     Interval.point := p;
     Interval.upper := Math_min [1; center + margin];
     Interval.margin := margin;
     Interval.width := 2 * margin |}.

Definition _generateRecommendation (score : float)
    (reliability : Reliability.t) : Recommendation.t :=
  if gtb score 0.8 && String.eqb (Reliability.level reliability) "high"
  then {| Recommendation.action := "recommend";
          Recommendation.message := "✓ Ruta óptima recomendada";
          Recommendation.priority := "high" |}
  else if gtb score 0.6
          && negb (String.eqb (Reliability.level reliability) "low")
  then {| Recommendation.action := "consider";
          Recommendation.message := "→ Ruta viable, considerar";
          Recommendation.priority := "medium" |}
  else {| Recommendation.action := "avoid";
          Recommendation.message := "⚠ Ruta subóptima, evitar";
          Recommendation.priority := "low" |}.

(** The entry built for one path by the callback of [paths.map]. *)
Definition ranked_entry (paths : list PathData.t) (weights : Weights.t)
    (pathData : PathData.t) : RankedPath.t :=
  let metrics := PathData.metrics pathData in
  let normalized := _normalizeMetrics metrics paths in
  let compositeScore := _calculateCompositeScore normalized weights in
  let reliability :=
    _calculateReliability (Metrics.pathProbability metrics) in
  let confidence95 :=
    _wilson95Interval (Metrics.pathProbability metrics) 100 in
  {| RankedPath.rank := 0;
     RankedPath.path := PathData.path pathData;
     RankedPath.metrics :=
       {| RankedMetrics.raw := metrics;
          RankedMetrics.normalized := normalized;
          RankedMetrics.reliability := reliability;
          RankedMetrics.confidence95 := confidence95 |};
     RankedPath.compositeScore := compositeScore;
     RankedPath.recommendation :=
       _generateRecommendation compositeScore reliability |}.

(** [(a, b) => b.compositeScore - a.compositeScore] *)
Definition by_score (a b : RankedPath.t) : float :=
  RankedPath.compositeScore b - RankedPath.compositeScore a.

(** [rank(paths, options)]; the argument [options_weights] is
    [options.weights]. *)
Definition rank (paths : list PathData.t)
    (options_weights : option Weights.t) : list RankedPath.t :=
  let weights := default (weights this) options_weights in
  let ranked := map (ranked_entry paths weights) paths in
  let ranked := Array_sort by_score ranked in
  imap (fun idx item => RankedPath.with_rank (idx + 1) item) ranked.

Definition filter (rankedPaths : list RankedPath.t) (minScore : float)
    : list RankedPath.t :=
  List.filter (fun p => minScore <=? RankedPath.compositeScore p)
              rankedPaths.

(** *** Comparison and grouping *)

Record Details := {
  details_pathA : option RankedPath.t;
  details_pathB : option RankedPath.t
}.

Record Comparison := {
  winner : string;
  scoreDifference : float;
  significant : bool;
  details : Details
}.

(** [rankedPaths.find(r => r.path === p)] *)
Definition find_by_path (rankedPaths : list RankedPath.t) (p : ref)
    : option RankedPath.t :=
  List.find (fun r => same_object (RankedPath.path r) p) rankedPaths.

(** [compare(pathA, pathB)]; reading [compositeScore] of a missing entry
    throws, which is [None]. *)
Definition compare (pathA pathB : PathData.t) : option Comparison :=
  let rankedPaths := rank [pathA; pathB] None in
  match rankedPaths !! 0%nat, rankedPaths !! 1%nat with
  | Some winner, Some second =>
      let diff := abs (RankedPath.compositeScore winner
                       - RankedPath.compositeScore second) in
      Some {| winner :=
                if same_object (RankedPath.path winner) (PathData.path pathA)
                then "A" else "B";
              scoreDifference := diff;
              significant := gtb diff 0.1;
              details :=
                {| details_pathA :=
                     find_by_path rankedPaths (PathData.path pathA);
                   details_pathB :=
                     find_by_path rankedPaths (PathData.path pathB) |} |}
  | _, _ => None
  end.

Record Groups := {
  high : list RankedPath.t;
  medium : list RankedPath.t;
  low : list RankedPath.t
}.

(** [p.metrics.reliability.level === level] *)
Definition has_level (level : string) (p : RankedPath.t) : bool :=
  String.eqb (Reliability.level
                (RankedMetrics.reliability (RankedPath.metrics p)))
             level.

Definition groupByReliability (rankedPaths : list RankedPath.t) : Groups :=
  {| high := List.filter (has_level "high") rankedPaths;
     medium := List.filter (has_level "medium") rankedPaths;
     low := List.filter (has_level "low") rankedPaths |}.

(** *** Sensitivity analysis *)

Record RankChange := {
  rc_path : ref;
  baseRank : nat;
  variedRank : nat;
  change : Z
}.

Record Analysis := {
  a_weights : Weights.t;
  ranking : list RankedPath.t;
  rankChanges : list RankChange;
  maxChange : float
}.

Record Sensitivity := {
  baseRanking : list RankedPath.t;
  analyses : list Analysis;
  stability : float
}.

(** [variedRanking.find(v => v.path === basePath.path)], then the
    record of the change; reading [rank] of [undefined] throws, which
    is [None]. *)
Definition rank_change (variedRanking : list RankedPath.t)
    (basePath : RankedPath.t) : option RankChange :=
  match List.find (fun v => same_object (RankedPath.path v)
                                        (RankedPath.path basePath))
                  variedRanking with
  | Some variedPath =>
      Some {| rc_path := RankedPath.path basePath;
              baseRank := RankedPath.rank basePath;
              variedRank := RankedPath.rank variedPath;
              change := Z.of_nat (RankedPath.rank variedPath)
                        - Z.of_nat (RankedPath.rank basePath) |}
  | None => None
  end.

(** The callback of [weightVariations.map]. *)
Definition analyse (paths : list PathData.t)
    (baseRanking : list RankedPath.t) (weights : Weights.t)
    : option Analysis :=
  let variedRanking := rank paths (Some weights) in
  rankChanges ← mapM (rank_change variedRanking) baseRanking;
  Some {| a_weights := weights;
          ranking := variedRanking;
          rankChanges := rankChanges;
          maxChange :=
            Math_max (map (fun c => of_Z (Z.abs (change c)))
                          rankChanges) |}.

Definition _calculateStability (analyses : list Analysis) : float :=
  if (List.length analyses =? 0)%nat then 1
  else
    let avgMaxChange :=
      fold_left (fun sum a => sum + maxChange a) analyses 0
      / of_nat (List.length analyses) in
    Math_max [0; 1 - avgMaxChange / 10].

Definition sensitivityAnalysis (paths : list PathData.t)
    (weightVariations : list Weights.t) : option Sensitivity :=
  let baseRanking := rank paths None in
  analyses ← mapM (analyse paths baseRanking) weightVariations;
  Some {| baseRanking := baseRanking;
          analyses := analyses;
          stability := _calculateStability analyses |}.

End Methods.

End PathRanker.

(** ** Vocabulary of the specification *)

(** The order of binary64 numbers other than NaN, as a lexicographic
    order on integer keys: sign and class, then exponent, then mantissa. *)
Module FloatOrder.

Definition SFkey (x : spec_float) : Z * Z * Z :=
  match x with
  | S754_nan => (0, 0, 0)%Z
  | S754_zero _ => (0, 0, 0)%Z
  | S754_infinity s => if s then (-2, 0, 0)%Z else (2, 0, 0)%Z
  | S754_finite s m e =>
      if s then (-1, - e, - Z.pos m)%Z else (1, e, Z.pos m)%Z
  end.

Definition key (x : float) : Z * Z * Z := SFkey (Prim2SF x).

Definition key_lt (a b : Z * Z * Z) : Prop :=
  let '(a1, a2, a3) := a in
  let '(b1, b2, b3) := b in
  (a1 < b1 \/ (a1 = b1 /\ (a2 < b2 \/ (a2 = b2 /\ a3 < b3))))%Z.

Definition key_le (a b : Z * Z * Z) : Prop :=
  let '(a1, a2, a3) := a in
  let '(b1, b2, b3) := b in
  (a1 < b1 \/ (a1 = b1 /\ (a2 < b2 \/ (a2 = b2 /\ a3 <= b3))))%Z.

End FloatOrder.

Module PlanSpec.
Import JS LocalPlanner.

(** Linear interpolation between [a] and [b] at the parameter [t], in
    binary64 arithmetic. *)
Definition linear_interpolation (a b t : float) : float :=
  a * (1 - t) + b * t.

(** The scalar fields of the waypoint interpolated at parameter [t]:
    the confidence threshold is interpolated linearly; the
    parallelization factor and the token cost, [0] when absent, are
    interpolated linearly and then rounded to the nearest integer; the
    processing mode switches at [t = 0.5]. *)
Definition interpolated_at (configA configB : Config) (t : float)
    (wp : Config) : Prop :=
  confidenceThreshold wp
  = linear_interpolation (confidenceThreshold configA)
                         (confidenceThreshold configB) t
  /\ parallelizationFactor wp
     = Math_round (linear_interpolation (parallelizationFactor configA)
                                        (parallelizationFactor configB) t)
  /\ tokenCost wp
     = Some (Math_round
               (linear_interpolation (or_default (tokenCost configA) 0)
                                     (or_default (tokenCost configB) 0) t))
  /\ processingMode wp
     = (if t <? 0.5 then processingMode configA else processingMode configB).

Section Prefix.
Variable Math_exp : float -> float.
Variable architecture : Architecture.

(** The accumulated cost after the first [k] consecutive pairs of
    [waypoints], starting from [total] and adding in the order of the
    pairs. *)
Fixpoint accumulated_cost (waypoints : list Config) (k : nat)
    (total : float) : float :=
  match k, waypoints with
  | S k', wp1 :: ((wp2 :: _) as rest) =>
      accumulated_cost rest k'
        (total + _computeTransitionCost wp1 wp2 architecture)
  | _, _ => total
  end.

(** The product of the transition probabilities of the first [k]
    consecutive pairs, starting from [p]. *)
Fixpoint accumulated_probability (waypoints : list Config) (k : nat)
    (p : float) : float :=
  match k, waypoints with
  | S k', wp1 :: ((wp2 :: _) as rest) =>
      accumulated_probability rest k'
        (p * _computeTransitionProbability Math_exp wp1 wp2 architecture)
  | _, _ => p
  end.

Variable this : Options.

(** Iterations [0 .. k-1] of the loop of [plan] ran to their end: each
    checked waypoint was valid, when validity is checked at all, and
    no accumulated cost exceeded the limit. *)
Definition clean_before (waypoints : list Config) (total : float)
    (k : nat) : Prop :=
  forall j, (j < k)%nat ->
    (collisionCheckEnabled this = true ->
     forall wp, waypoints !! j = Some wp -> _isValid wp architecture = true)
    /\ ((1 <= j)%nat ->
        gtb (accumulated_cost waypoints j total) (maxTransitionCost this)
        = false).

(** The loop of [plan] broke after [k] pairs: the cost accumulated over
    them exceeds the limit, or the waypoint that starts the next pair
    is invalid. *)
Definition broke_at (waypoints : list Config) (total : float)
    (k : nat) : Prop :=
  ((1 <= k)%nat /\ (k < length waypoints)%nat
   /\ gtb (accumulated_cost waypoints k total) (maxTransitionCost this)
      = true)
  \/ (collisionCheckEnabled this = true /\ (S k < length waypoints)%nat
      /\ exists wp, waypoints !! k = Some wp
                    /\ _isValid wp architecture = false).
End Prefix.

End PlanSpec.

Module RankSpec.
Import JS.


End RankSpec.

(** ** Example inputs *)

Module Examples.
Import JS LocalPlanner.

(** The architecture and the two configurations of the end-to-end
    scenario of the specification. *)
Definition architecture : Architecture :=
  {| layerDependencies :=
       Some (<["Synthesis"%string := ["Analysis"%string]]>
             (<["Analysis"%string := ["Perception"%string]]> ∅));
     constraints := Some {| maxTokens := Some 2000;
                            minConfidence := Some 0.5 |} |}.

Definition configA : Config :=
  {| id := given_id "A";
     layerSequence := ["Input"; "Perception"; "Analysis"; "Output"]%string;
     confidenceThreshold := 0.8;
     parallelizationFactor := 2;
     processingMode := "sequential";
     tokenCost := None |}.

Definition configB : Config :=
  {| id := given_id "B";
     layerSequence := ["Input"; "Analysis"; "Synthesis"; "Output"]%string;
     confidenceThreshold := 0.7;
     parallelizationFactor := 1;
     processingMode := "sequential";
     tokenCost := None |}.

(** A configuration with a layer named ['toString']. *)
Definition configT : Config :=
  {| id := given_id "T";
     layerSequence := ["Input"; "toString"; "Output"]%string;
     confidenceThreshold := 0.8;
     parallelizationFactor := 2;
     processingMode := "sequential";
     tokenCost := None |}.

(** An architecture without constraints. *)
Definition unconstrained : Architecture :=
  {| layerDependencies := None; constraints := None |}.

(** A configuration with a fractional token cost. *)
Definition configC : Config :=
  {| id := given_id "C";
     layerSequence := ["Input"; "Output"]%string;
     confidenceThreshold := 0.8;
     parallelizationFactor := 2;
     processingMode := "sequential";
     tokenCost := Some 0.5 |}.

(** A configuration with the parallelization factor [2 ^ 52 + 1]. *)
Definition configL : Config :=
  {| id := given_id "L";
     layerSequence := ["Input"; "Output"]%string;
     confidenceThreshold := 0.8;
     parallelizationFactor := 4503599627370497;
     processingMode := "sequential";
     tokenCost := None |}.

(** A configuration with no layers at all. *)
Definition configE : Config :=
  {| id := given_id "E";
     layerSequence := [];
     confidenceThreshold := 0.8;
     parallelizationFactor := 2;
     processingMode := "sequential";
     tokenCost := None |}.

(** [new LocalPlanner()] *)
Definition planner : Options :=
  new {| user_interpolationSteps := None;
         user_collisionCheckEnabled := None;
         user_maxTransitionCost := None |}.

(** [new LocalPlanner({interpolationSteps: 1, collisionCheckEnabled: false})] *)
Definition unchecked_planner : Options :=
  new {| user_interpolationSteps := Some 1%nat;
         user_collisionCheckEnabled := Some false;
         user_maxTransitionCost := None |}.

(** [new LocalPlanner({interpolationSteps: 0})]: the key is present, so
    it replaces the default of five steps. *)
Definition zero_step_planner : Options :=
  new {| user_interpolationSteps := Some 0%nat;
         user_collisionCheckEnabled := None;
         user_maxTransitionCost := None |}.

(** An architecture whose only dependency is that of ['Analysis'] on
    ['Perception']. *)
Definition analysis_needs_perception : Architecture :=
  {| layerDependencies :=
       Some {[ "Analysis"%string := ["Perception"%string] ]};
     constraints := None |}.

(** A world in which every call of [Math.random] returns [r]. *)
Definition constant_world (r : float) : World :=
  {| draws := fun _ => r; cursor := 0; clock := 1700000000000 |}.

(** An approximation of [Math.exp] to run the examples with:
    [(1 + x / 1024) ^ 1024]. *)
Definition exp_approx (x : float) : float :=
  Nat.iter 10 (fun y => y * y) (1 + x / 1024).

(** Candidate paths for the ranker. *)
Definition path_with (address : nat) (p c l e : float) : PathRanker.PathData.t :=
  {| PathRanker.PathData.path := address;
     PathRanker.PathData.metrics :=
       {| PathRanker.Metrics.pathProbability := Some p;
          PathRanker.Metrics.totalCost := Some c;
          PathRanker.Metrics.pathLength := Some l;
          PathRanker.Metrics.entropy := Some e |} |}.

Definition three_paths : list PathRanker.PathData.t :=
  [path_with 1 0.9 100 3 1; path_with 2 0.5 200 4 2;
   path_with 3 0.95 50 2 0.5].

(** Three paths, the second of infinite cost. *)
Definition infinite_cost_paths : list PathRanker.PathData.t :=
  [path_with 1 0.9 100 3 1; path_with 2 0.5 infinity 4 2;
   path_with 3 0.95 50 2 0.5].

(** Three paths, the last two with the same metrics. *)
Definition tied_paths : list PathRanker.PathData.t :=
  [path_with 1 0.5 200 4 2; path_with 2 0.9 100 3 1;
   path_with 3 0.9 100 3 1].

(** Three paths of the same cost 7. *)
Definition equal_cost_paths : list PathRanker.PathData.t :=
  [path_with 1 0.9 7 3 1; path_with 2 0.5 7 4 2; path_with 3 0.95 7 2 0.5].

(** Three paths of the same cost 0. *)
Definition zero_cost_paths : list PathRanker.PathData.t :=
  [path_with 1 0.9 0 3 1; path_with 2 0.5 0 4 2; path_with 3 0.95 0 2 0.5].

(** [new PathRanker()] *)
Definition ranker : PathRanker.Options := PathRanker.new None.

End Examples.

(** * Properties *)

Import JS.

(** ** Facts on binary64 numbers

    Comparisons and special values, from the specification of the
    primitive operations. *)

Section FloatFacts.

Lemma SFcompare_refl (x : spec_float) :
  x <> S754_nan -> SFcompare x x = Some Eq.
Proof.
  destruct x as [s|s| |s m e]; try done; intros _; simpl.
  - by destruct s.
  - by destruct s; rewrite Z.compare_refl, Pos.compare_cont_refl.
Qed.

Lemma is_nan_true (x : float) : is_nan x = true <-> Prim2SF x = S754_nan.
Proof.
  unfold is_nan. rewrite FloatAxioms.eqb_spec. unfold SFeqb. split.
  - destruct (Prim2SF x) eqn:E; try done;
      rewrite SFcompare_refl by done; done.
  - by intros ->.
Qed.

Lemma is_nan_false (x : float) : is_nan x = false <-> Prim2SF x <> S754_nan.
Proof.
  rewrite <- is_nan_true. by destruct (is_nan x).
Qed.

Lemma eqb_refl (x : float) : is_nan x = false -> (x =? x) = true.
Proof. unfold is_nan. by destruct (x =? x). Qed.

Lemma ltb_irrefl (x : float) : (x <? x) = false.
Proof.
  rewrite FloatAxioms.ltb_spec. unfold SFltb.
  destruct (Prim2SF x) eqn:E; try done;
    rewrite SFcompare_refl by done; done.
Qed.

Lemma ltb_nan_r (x : float) : (x <? nan) = false.
Proof.
  rewrite FloatAxioms.ltb_spec. unfold SFltb. by destruct (Prim2SF x).
Qed.

Lemma ltb_nan_l (x : float) : (nan <? x) = false.
Proof.
  rewrite FloatAxioms.ltb_spec. unfold SFltb. by destruct (Prim2SF x).
Qed.

Lemma mul_nan_r (x : float) : x * nan = nan.
Proof.
  apply Prim2SF_inj. rewrite FloatAxioms.mul_spec.
  by destruct (Prim2SF x).
Qed.

Lemma ltb_eqb_false (x y : float) : (x <? y) = true -> (x =? y) = false.
Proof.
  rewrite FloatAxioms.ltb_spec, FloatAxioms.eqb_spec. unfold SFltb, SFeqb.
  by destruct (SFcompare _ _) as [[]|].
Qed.

Lemma zero_ltb_eqb_false (t : float) : (0 <? t) = true -> (t =? 0) = false.
Proof.
  rewrite FloatAxioms.ltb_spec, FloatAxioms.eqb_spec. unfold SFltb, SFeqb.
  change (Prim2SF 0) with (S754_zero false).
  by destruct (Prim2SF t) as [s|[]| |[] m e].
Qed.

Lemma ltb_leb (x y : float) : (x <? y) = true -> (x <=? y) = true.
Proof.
  rewrite FloatAxioms.ltb_spec, FloatAxioms.leb_spec. unfold SFltb, SFleb.
  by destruct (SFcompare _ _) as [[]|].
Qed.

(** Every number other than NaN is below [+Infinity] or is it. *)
Lemma below_infinity (x : float) :
  is_nan x = false -> (x <? infinity) = true \/ x = infinity.
Proof.
  intros H%is_nan_false. rewrite FloatAxioms.ltb_spec. unfold SFltb.
  change (Prim2SF infinity) with (S754_infinity false).
  destruct (Prim2SF x) as [s|[]| |s m e] eqn:E; try done; auto.
  right. apply Prim2SF_inj. by rewrite E.
Qed.

Lemma above_neg_infinity (x : float) :
  is_nan x = false -> (neg_infinity <? x) = true \/ x = neg_infinity.
Proof.
  intros H%is_nan_false. rewrite FloatAxioms.ltb_spec. unfold SFltb.
  change (Prim2SF neg_infinity) with (S754_infinity true).
  destruct (Prim2SF x) as [s|[]| |s m e] eqn:E; try done; auto.
  right. apply Prim2SF_inj. by rewrite E.
Qed.

End FloatFacts.

(** ** Rounding, subtraction and order on binary64 numbers *)

Section Rounding.
Open Scope Z_scope.

Lemma digits2_pos_size p : digits2_pos p = Pos.size p.
Proof. induction p; simpl; congruence. Qed.

Lemma Zdigits2_log2 p : Zdigits2 (Z.pos p) = Z.log2 (Z.pos p) + 1.
Proof.
  unfold Zdigits2. rewrite digits2_pos_size.
  destruct p; simpl; lia.
Qed.

Lemma Zdigits2_lower p : 2 ^ (Zdigits2 (Z.pos p) - 1) <= Z.pos p.
Proof.
  rewrite Zdigits2_log2.
  replace (Z.log2 (Z.pos p) + 1 - 1) with (Z.log2 (Z.pos p)) by lia.
  apply Z.log2_spec. lia.
Qed.

Lemma Zdigits2_upper p : Z.pos p < 2 ^ Zdigits2 (Z.pos p).
Proof. rewrite Zdigits2_log2. apply Z.log2_spec. lia. Qed.

Lemma iter_pos_nat {A} (f : A -> A) p x :
  SpecFloat.iter_pos f p x = Nat.iter (Pos.to_nat p) f x.
Proof.
  revert x. induction p as [p IH|p IH|]; intros x; cbn [SpecFloat.iter_pos].
  - rewrite !IH, Pos2Nat.inj_xI.
    replace (S (2 * Pos.to_nat p))%nat
      with (Pos.to_nat p + (Pos.to_nat p + 1))%nat by lia.
    rewrite !Nat.iter_add. reflexivity.
  - rewrite !IH, Pos2Nat.inj_xO.
    replace (2 * Pos.to_nat p)%nat
      with (Pos.to_nat p + Pos.to_nat p)%nat by lia.
    rewrite Nat.iter_add. reflexivity.
  - reflexivity.
Qed.

Lemma shr_1_m mrs :
  0 <= shr_m mrs -> shr_m (shr_1 mrs) = Z.div2 (shr_m mrs).
Proof.
  destruct mrs as [m r s]. simpl. intros Hm.
  destruct m as [|[p|p|]|p]; simpl; try reflexivity; lia.
Qed.

Lemma shr_iter_m n mrs :
  0 <= shr_m mrs ->
  shr_m (Nat.iter n shr_1 mrs) = shr_m mrs / 2 ^ Z.of_nat n.
Proof.
  intros Hm. induction n as [|n IH].
  - simpl. rewrite Z.div_1_r. reflexivity.
  - rewrite Nat2Z.inj_succ, Z.pow_succ_r by lia. simpl Nat.iter.
    rewrite shr_1_m.
    + rewrite IH, Z.div2_div, Z.div_div by lia. f_equal. lia.
    + rewrite IH. apply Z.div_pos; lia.
Qed.

(** Shifting a positive mantissa to the format leaves it positive when
    the exponent is not below [emin]. *)
Lemma shr_fexp_pos m e l :
  0 < m -> SpecFloat.emin prec emax <= e ->
  0 < shr_m (fst (shr_fexp prec emax m e l))
  /\ SpecFloat.emin prec emax <= snd (shr_fexp prec emax m e l).
Proof.
  intros Hm He. unfold shr_fexp, shr.
  destruct m as [|p|p]; try lia.
  assert (shr_m (shr_record_of_loc (Z.pos p) l) = Z.pos p) as Hrec
    by (destruct l as [|[]]; reflexivity).
  destruct (SpecFloat.fexp prec emax (Zdigits2 (Z.pos p) + e) - e)
    as [|n|n] eqn:En; simpl.
  - rewrite Hrec. unfold SpecFloat.emin, prec, emax in *. lia.
  - rewrite iter_pos_nat, shr_iter_m by (rewrite Hrec; lia).
    rewrite Hrec, positive_nat_Z.
    split; [|unfold SpecFloat.emin, prec, emax in *; lia].
    apply Z.div_str_pos. split; [lia|].
    pose proof (Zdigits2_lower p) as Hb.
    assert (Z.pos n <= Zdigits2 (Z.pos p) - 1) as Hn.
    { unfold SpecFloat.fexp, SpecFloat.emin, prec, emax in *. lia. }
    eapply Z.le_trans; [|exact Hb].
    apply Z.pow_le_mono_r; lia.
  - rewrite Hrec. unfold SpecFloat.emin, prec, emax in *. lia.
Qed.

Lemma round_nearest_even_pos m l : 0 < m -> 0 < round_nearest_even m l.
Proof.
  intros Hm. destruct l as [|[]]; simpl; try lia.
  destruct (Z.even m); lia.
Qed.

(** Rounding a positive mantissa gives a finite number or an infinity,
    of the given sign: never a zero, never NaN. *)
Lemma binary_round_aux_sign sx m e l :
  0 < m -> SpecFloat.emin prec emax <= e ->
  (exists m' e', binary_round_aux prec emax sx m e l = S754_finite sx m' e')
  \/ binary_round_aux prec emax sx m e l = S754_infinity sx.
Proof.
  intros Hm He. unfold binary_round_aux.
  destruct (shr_fexp_pos m e l Hm He) as [H1 H1e].
  destruct (shr_fexp prec emax m e l) as [mrs' e']. simpl in H1, H1e.
  pose proof (round_nearest_even_pos (shr_m mrs') (loc_of_shr_record mrs') H1)
    as H2.
  destruct (shr_fexp_pos _ e' loc_Exact H2 H1e) as [H3 _].
  destruct (shr_fexp prec emax _ e' loc_Exact) as [mrs'' e'']. simpl in H3.
  destruct (shr_m mrs'') as [|p|p]; try lia.
  destruct (e'' <=? emax - prec); eauto.
Qed.

Lemma binary_round_sign sx m e :
  SpecFloat.emin prec emax <= e ->
  (exists m' e', binary_round prec emax sx m e = S754_finite sx m' e')
  \/ binary_round prec emax sx m e = S754_infinity sx.
Proof.
  intros He. unfold binary_round.
  destruct (shl_align m e (SpecFloat.fexp prec emax (Z.pos (digits2_pos m) + e)))
    as [mz ez] eqn:E.
  apply binary_round_aux_sign; [lia|].
  unfold shl_align in E.
  destruct (SpecFloat.fexp prec emax (Z.pos (digits2_pos m) + e) - e) eqn:E2;
    inversion E; subst; try lia.
  unfold SpecFloat.fexp, SpecFloat.emin, prec, emax in *. lia.
Qed.

Lemma binary_normalize_sign D e :
  SpecFloat.emin prec emax <= e ->
  SFltb (S754_zero false) (binary_normalize prec emax D e false) = (0 <? D).
Proof.
  intros He. destruct D as [|p|p]; simpl; [reflexivity| |].
  - destruct (binary_round_sign false p e He) as [(m' & e' & ->)| ->];
      reflexivity.
  - destruct (binary_round_sign true p e He) as [(m' & e' & ->)| ->];
      reflexivity.
Qed.

Lemma pos_iter_xO m d : Z.pos (Pos.iter xO m d) = Z.pos m * 2 ^ Z.pos d.
Proof.
  induction d as [|d IH] using Pos.peano_ind.
  - simpl. lia.
  - rewrite Pos.iter_succ, Pos2Z.inj_succ, Z.pow_succ_r by lia.
    rewrite Pos2Z.inj_xO, IH. lia.
Qed.

Lemma shl_align_value m e ez :
  ez <= e -> Z.pos (fst (shl_align m e ez)) = Z.pos m * 2 ^ (e - ez).
Proof.
  intros H. unfold shl_align.
  destruct (ez - e) as [|d|d] eqn:E; cbn [fst].
  - replace (e - ez) with 0 by lia. rewrite Z.pow_0_r. lia.
  - lia.
  - rewrite pos_iter_xO. rewrite <- Pos2Z.opp_pos in E.
    f_equal. f_equal. lia.
Qed.

Lemma bounded_emin m e :
  bounded prec emax m e = true -> SpecFloat.emin prec emax <= e.
Proof.
  unfold bounded, canonical_mantissa. intros [H _]%andb_prop.
  apply Z.eqb_eq in H.
  unfold SpecFloat.fexp, SpecFloat.emin, prec, emax in *. lia.
Qed.

Lemma bounded_digits m e :
  bounded prec emax m e = true -> Z.pos m < 2 ^ prec.
Proof.
  unfold bounded, canonical_mantissa. intros [H _]%andb_prop.
  apply Z.eqb_eq in H.
  pose proof (Zdigits2_upper m) as Hu. simpl Zdigits2 in Hu.
  eapply Z.lt_le_trans; [exact Hu|].
  apply Z.pow_le_mono_r; [lia|].
  unfold SpecFloat.fexp, SpecFloat.emin, prec, emax in *. lia.
Qed.

Lemma bounded_normal m e :
  bounded prec emax m e = true -> SpecFloat.emin prec emax < e ->
  2 ^ (prec - 1) <= Z.pos m.
Proof.
  unfold bounded, canonical_mantissa. intros [H _]%andb_prop He.
  apply Z.eqb_eq in H.
  pose proof (Zdigits2_lower m) as Hl. simpl Zdigits2 in Hl.
  eapply Z.le_trans; [|exact Hl].
  apply Z.pow_le_mono_r; [lia|].
  unfold SpecFloat.fexp, SpecFloat.emin, prec, emax in *. lia.
Qed.

(** Among canonical mantissas, the larger exponent is the larger
    number. *)
Lemma canonical_lt m1 e1 m2 e2 :
  bounded prec emax m1 e1 = true -> bounded prec emax m2 e2 = true ->
  e1 < e2 -> Z.pos m1 < Z.pos m2 * 2 ^ (e2 - e1).
Proof.
  intros H1 H2 He.
  pose proof (bounded_digits m1 e1 H1) as Hm1.
  pose proof (bounded_emin m1 e1 H1) as He1.
  pose proof (bounded_normal m2 e2 H2 ltac:(lia)) as Hm2.
  assert (2 ^ 1 <= 2 ^ (e2 - e1)) as Hp by (apply Z.pow_le_mono_r; lia).
  assert (2 ^ prec = 2 ^ (prec - 1) * 2 ^ 1) as Hq
    by (rewrite <- Z.pow_add_r by (unfold prec; lia); f_equal; lia).
  nia.
Qed.

(** The sign of the aligned difference of two canonical magnitudes. *)
Lemma aligned_difference m1 e1 m2 e2 :
  bounded prec emax m1 e1 = true -> bounded prec emax m2 e2 = true ->
  let ez := Z.min e2 e1 in
  let D := Z.pos (fst (shl_align m2 e2 ez))
           - Z.pos (fst (shl_align m1 e1 ez)) in
  match Z.compare e1 e2 with
  | Lt => 0 < D
  | Gt => D < 0
  | Eq => D = Z.pos m2 - Z.pos m1
  end.
Proof.
  intros H1 H2 ez D. subst D.
  rewrite !shl_align_value by (subst ez; lia).
  destruct (Z.compare_spec e1 e2) as [->|Hlt|Hgt].
  - subst ez. rewrite Z.min_id, Z.sub_diag, Z.pow_0_r. lia.
  - subst ez. rewrite Z.min_r by lia. rewrite Z.sub_diag, Z.pow_0_r.
    pose proof (canonical_lt m1 e1 m2 e2 H1 H2 Hlt). lia.
  - subst ez. rewrite Z.min_l by lia. rewrite Z.sub_diag, Z.pow_0_r.
    pose proof (canonical_lt m2 e2 m1 e1 H2 H1 Hgt). lia.
Qed.

(** [y - x] is positive exactly when [x] is below [y]. *)
Lemma SFsub_sign (x y : spec_float) :
  valid_binary x = true -> valid_binary y = true ->
  x <> S754_nan -> y <> S754_nan ->
  SFltb (S754_zero false) (SFsub prec emax y x) = SFltb x y.
Proof.
  intros Hx Hy Hnx Hny.
  destruct x as [sx|sx| |sx mx ex], y as [sy|sy| |sy my ey]; try congruence;
    try (destruct sx, sy; reflexivity); try (destruct sx; reflexivity);
    try (destruct sy; reflexivity).
  simpl in Hx, Hy. unfold SFsub.
  rewrite binary_normalize_sign
    by (pose proof (bounded_emin _ _ Hx); pose proof (bounded_emin _ _ Hy);
        lia).
  pose proof (aligned_difference mx ex my ey Hx Hy) as HD. cbv zeta in HD.
  unfold SFltb, SFcompare.
  pose proof (Pos2Z.is_pos (fst (shl_align my ey (Z.min ey ex)))) as Py.
  pose proof (Pos2Z.is_pos (fst (shl_align mx ex (Z.min ey ex)))) as Px.
  revert HD Py Px.
  generalize (Z.pos (fst (shl_align my ey (Z.min ey ex)))).
  generalize (Z.pos (fst (shl_align mx ex (Z.min ey ex)))).
  intros Ax Ay HD Py Px.
  change (Pos.compare_cont Eq mx my) with (Pos.compare mx my).
  pose proof (Pos.compare_spec mx my) as Hm.
  destruct sx, sy; unfold cond_Zopp;
    destruct (ex ?= ey); destruct Hm; cbn [CompOpp];
    (destruct (Z.ltb_spec 0 (Ay - Ax))
     || destruct (Z.ltb_spec 0 (- Ay - - Ax))
     || destruct (Z.ltb_spec 0 (Ay - - Ax))
     || destruct (Z.ltb_spec 0 (- Ay - Ax)));
    try reflexivity; lia.
Qed.

End Rounding.

Section Order.
Import FloatOrder.
Open Scope Z_scope.

Lemma SFleb_key (x y : spec_float) :
  x <> S754_nan -> y <> S754_nan ->
  SFleb x y = true <-> key_le (SFkey x) (SFkey y).
Proof.
  intros Hx Hy. unfold SFleb.
  destruct x as [sx|sx| |sx mx ex], y as [sy|sy| |sy my ey]; try congruence;
    simpl;
    try (destruct sx, sy; simpl; intuition (try lia; try discriminate));
    try (destruct sx; simpl; intuition (try lia; try discriminate));
    try (destruct sy; simpl; intuition (try lia; try discriminate)).
  all: change (Pos.compare_cont Eq mx my) with (Pos.compare mx my) in *.
  all: destruct (Z.compare_spec ex ey); destruct (Pos.compare_spec mx my);
    simpl in *; try lia; try discriminate; try reflexivity.
Qed.

Lemma SFltb_key (x y : spec_float) :
  x <> S754_nan -> y <> S754_nan ->
  SFltb x y = true <-> key_lt (SFkey x) (SFkey y).
Proof.
  intros Hx Hy. unfold SFltb.
  destruct x as [sx|sx| |sx mx ex], y as [sy|sy| |sy my ey]; try congruence;
    simpl;
    try (destruct sx, sy; simpl; intuition (try lia; try discriminate));
    try (destruct sx; simpl; intuition (try lia; try discriminate));
    try (destruct sy; simpl; intuition (try lia; try discriminate)).
  all: change (Pos.compare_cont Eq mx my) with (Pos.compare mx my) in *.
  all: destruct (Z.compare_spec ex ey); destruct (Pos.compare_spec mx my);
    simpl in *; try lia; try discriminate; try reflexivity.
Qed.

End Order.

Section NumberOrder.
Import FloatOrder.

Lemma SFeqb_key (x y : spec_float) :
  SFeqb x y = true ->
  x <> S754_nan /\ y <> S754_nan /\ SFkey x = SFkey y.
Proof.
  unfold SFeqb.
  destruct x as [sx|sx| |sx mx ex], y as [sy|sy| |sy my ey]; simpl;
    try discriminate; try (destruct sx, sy; simpl; try discriminate; done);
    try (destruct sx; simpl; try discriminate; done);
    try (destruct sy; simpl; try discriminate; done).
  destruct sx, sy; try discriminate.
  all: change (Pos.compare_cont Eq mx my) with (Pos.compare mx my) in *.
  all: destruct (Z.compare_spec ex ey); destruct (Pos.compare_spec mx my);
    simpl in *; try discriminate; intros _; subst; done.
Qed.

Lemma ltb_key (x y : float) :
  is_nan x = false -> is_nan y = false ->
  (x <? y) = true <-> key_lt (key x) (key y).
Proof.
  intros Hx%is_nan_false Hy%is_nan_false.
  rewrite FloatAxioms.ltb_spec. by apply SFltb_key.
Qed.

Lemma leb_key (x y : float) :
  is_nan x = false -> is_nan y = false ->
  (x <=? y) = true <-> key_le (key x) (key y).
Proof.
  intros Hx%is_nan_false Hy%is_nan_false.
  rewrite FloatAxioms.leb_spec. by apply SFleb_key.
Qed.

Lemma eqb_key (x y : float) :
  (x =? y) = true ->
  is_nan x = false /\ is_nan y = false /\ key x = key y.
Proof.
  rewrite FloatAxioms.eqb_spec. intros (Hx & Hy & Hk)%SFeqb_key.
  by rewrite !is_nan_false.
Qed.

(** Where [x] is not below [y], [y] is at most [x]. *)
Lemma leb_total (x y : float) :
  is_nan x = false -> is_nan y = false ->
  (x <? y) = false -> (y <=? x) = true.
Proof.
  intros Hx Hy Hlt. apply leb_key; try done.
  assert (~ key_lt (key x) (key y)) as Hn
    by (rewrite <- ltb_key by done; by rewrite Hlt).
  unfold key_lt, key_le in *.
  destruct (key x) as [[a1 a2] a3], (key y) as [[b1 b2] b3]. lia.
Qed.

Lemma leb_trans (x y z : float) :
  is_nan x = false -> is_nan y = false -> is_nan z = false ->
  (x <=? y) = true -> (y <=? z) = true -> (x <=? z) = true.
Proof.
  intros Hx Hy Hz. rewrite !leb_key by done.
  unfold key_le.
  destruct (key x) as [[a1 a2] a3], (key y) as [[b1 b2] b3],
           (key z) as [[c1 c2] c3]. lia.
Qed.

Lemma ltb_same_key (x y x' y' : float) :
  is_nan x = false -> is_nan y = false ->
  is_nan x' = false -> is_nan y' = false ->
  key x = key x' -> key y = key y' -> (x <? y) = (x' <? y').
Proof.
  intros Hx Hy Hx' Hy' Hkx Hky.
  apply eq_true_iff_eq. rewrite !ltb_key by done. by rewrite Hkx, Hky.
Qed.

(** The comparison function of the ranker: [y - x] is positive exactly
    when [x] is below [y]. *)
Lemma sub_pos (x y : float) :
  is_nan x = false -> is_nan y = false -> (0 <? y - x) = (x <? y).
Proof.
  intros Hx%is_nan_false Hy%is_nan_false.
  rewrite !FloatAxioms.ltb_spec, FloatAxioms.sub_spec.
  change (Prim2SF 0) with (S754_zero false).
  apply SFsub_sign; try done; apply Prim2SF_valid.
Qed.

(** The length of a non-empty array is a number other than zero and
    NaN, so that zero divided by it is zero. *)
Lemma zero_div_of_nat (n : nat) :
  (1 <= n)%nat -> (Z.of_nat n < 2 ^ 32)%Z -> 0 / of_nat n = 0.
Proof.
  intros Hn Hmax. apply Prim2SF_inj.
  rewrite FloatAxioms.div_spec. unfold of_nat.
  rewrite of_uint63_spec, Uint63.of_Z_spec.
  rewrite Z.mod_small by (change wB with (2 ^ 63)%Z; lia).
  change (Prim2SF 0) with (S754_zero false).
  destruct (Z.of_nat n) as [|p|p] eqn:E; try lia.
  simpl binary_normalize.
  destruct (binary_round_sign false p 0) as [(m' & e' & ->)| ->];
    [unfold SpecFloat.emin, prec, emax; lia|done..].
Qed.

End NumberOrder.

(** ** Products of numbers of the unit interval *)

Section Product.
Import FloatOrder.
Open Scope Z_scope.

Lemma shr_1_exact mrs :
  0 <= shr_m mrs -> shr_r mrs = false -> shr_s mrs = false ->
  Z.even (shr_m mrs) = true ->
  shr_r (shr_1 mrs) = false /\ shr_s (shr_1 mrs) = false.
Proof.
  destruct mrs as [m r s]. simpl. intros Hm -> -> He.
  destruct m as [|[p|p|]|p]; simpl in *; try done; lia.
Qed.

Lemma shr_1_s mrs :
  shr_r mrs = false -> shr_s mrs = false -> shr_s (shr_1 mrs) = false.
Proof.
  destruct mrs as [m r s]. simpl. intros -> ->.
  by destruct m as [|[p|p|]|[p|p|]].
Qed.

(** Shifting out only zero bits is exact. *)
Lemma shr_iter_exact n m :
  0 <= m -> m mod 2 ^ Z.of_nat n = 0 ->
  let mrs := Nat.iter n shr_1 {| shr_m := m; shr_r := false; shr_s := false |} in
  shr_r mrs = false /\ shr_s mrs = false.
Proof.
  intros Hm. induction n as [|n IH]; intros Hmod; [done|].
  cbv zeta in *. simpl Nat.iter.
  rewrite Nat2Z.inj_succ, Z.pow_succ_r in Hmod by lia.
  assert (m mod 2 ^ Z.of_nat n = 0) as Hmod'.
  { apply Z.mod_divide in Hmod; [|lia]. apply Z.mod_divide; [lia|].
    destruct Hmod as [k Hk]. exists (k * 2). lia. }
  destruct (IH Hmod') as [Hr Hs].
  apply shr_1_exact; try done.
  - rewrite shr_iter_m by done. simpl. apply Z.div_pos; lia.
  - rewrite shr_iter_m by done. simpl.
    apply Z.mod_divide in Hmod; [|lia]. destruct Hmod as [k Hk].
    subst m. replace (k * (2 * 2 ^ Z.of_nat n)) with (k * 2 * 2 ^ Z.of_nat n) by lia.
    rewrite Z.div_mul by lia. rewrite Z.even_mul. simpl. apply orb_true_r.
Qed.


Lemma round_nearest_even_le m l :
  round_nearest_even m l <= m + 1
  /\ (l = loc_Exact -> round_nearest_even m l = m)
  /\ m <= round_nearest_even m l.
Proof.
  destruct l as [|[]]; simpl; try (destruct (Z.even m)); repeat split; try lia; try done.
Qed.

Lemma loc_exact mrs :
  shr_r mrs = false -> shr_s mrs = false -> loc_of_shr_record mrs = loc_Exact.
Proof. destruct mrs as [m r s]. simpl. by intros -> ->. Qed.

Lemma digits_le_one m e :
  0 < m -> e <= 0 -> m <= 2 ^ (- e) -> Zdigits2 m + e <= 1.
Proof.
  intros Hm He Hle. destruct m as [|p|p]; try lia.
  pose proof (Zdigits2_lower p) as Hl.
  assert (2 ^ (Zdigits2 (Z.pos p) - 1) <= 2 ^ (- e)) as Hp by lia.
  apply Z.pow_le_mono_r_iff in Hp; lia.
Qed.

(** Shifting to the format and rounding to nearest keeps a number that
    is at most one at most one. *)
Lemma shr_fexp_unit m e :
  0 <= m -> e <= 0 -> m <= 2 ^ (- e) ->
  let mrs := fst (shr_fexp prec emax m e loc_Exact) in
  let e' := snd (shr_fexp prec emax m e loc_Exact) in
  e' <= 0 /\ 0 <= shr_m mrs
  /\ round_nearest_even (shr_m mrs) (loc_of_shr_record mrs) <= 2 ^ (- e').
Proof.
  intros Hm He Hle. cbv zeta. unfold shr_fexp, shr.
  destruct (SpecFloat.fexp prec emax (Zdigits2 m + e) - e) as [|n|n] eqn:En;
    cbn [fst snd shr_record_of_loc shr_m loc_of_shr_record round_nearest_even];
    try (repeat split; lia).
  rewrite iter_pos_nat.
  set (start := {| shr_m := m; shr_r := false; shr_s := false |}).
  assert (shr_m (Nat.iter (Pos.to_nat n) shr_1 start) = m / 2 ^ Z.pos n) as Hm'
    by (rewrite shr_iter_m by done; by rewrite positive_nat_Z).
  assert (e + Z.pos n <= 0) as He'.
  { destruct (Z.eq_dec m 0) as [->|Hm0].
    - simpl in En. unfold SpecFloat.fexp, SpecFloat.emin, prec, emax in En. lia.
    - pose proof (digits_le_one m e ltac:(lia) He Hle).
      unfold SpecFloat.fexp, SpecFloat.emin, prec, emax in En. lia. }
  split; [done|]. rewrite Hm'.
  assert (0 < 2 ^ Z.pos n) as Hpow by (apply Z.pow_pos_nonneg; lia).
  split; [apply Z.div_pos; lia|].
  assert (2 ^ (- e) = 2 ^ (- (e + Z.pos n)) * 2 ^ Z.pos n) as Hsplit
    by (rewrite <- Z.pow_add_r by lia; f_equal; lia).
  pose proof (Z.div_mod m (2 ^ Z.pos n) ltac:(lia)) as Hdm.
  pose proof (Z.mod_pos_bound m (2 ^ Z.pos n) Hpow) as Hmb.
  destruct (round_nearest_even_le (m / 2 ^ Z.pos n)
              (loc_of_shr_record (Nat.iter (Pos.to_nat n) shr_1 start)))
    as (Hup & Hexact & _).
  destruct (Z.eq_dec (m mod 2 ^ Z.pos n) 0) as [Hz|Hnz].
  - rewrite Hexact.
    + nia.
    + apply loc_exact; apply (shr_iter_exact (Pos.to_nat n) m Hm);
        by rewrite positive_nat_Z.
  - assert (m / 2 ^ Z.pos n < 2 ^ (- (e + Z.pos n))) by nia. lia.
Qed.

Lemma binary_round_aux_unit m e :
  0 <= m -> e <= 0 -> m <= 2 ^ (- e) ->
  let r := binary_round_aux prec emax false m e loc_Exact in
  r = S754_zero false
  \/ exists m' e', r = S754_finite false m' e' /\ e' <= 0
                   /\ Z.pos m' <= 2 ^ (- e').
Proof.
  intros Hm He Hle. cbv zeta. unfold binary_round_aux.
  destruct (shr_fexp_unit m e Hm He Hle) as (He1 & Hm1 & Hr1).
  destruct (shr_fexp prec emax m e loc_Exact) as [mrs' e'].
  cbn [fst snd] in *.
  pose proof (round_nearest_even_le (shr_m mrs') (loc_of_shr_record mrs'))
    as (_ & _ & Hlow).
  destruct (shr_fexp_unit _ e' (Z.le_trans _ _ _ Hm1 Hlow) He1 Hr1)
    as (He2 & Hm2 & Hr2).
  destruct (shr_fexp prec emax _ e' loc_Exact) as [mrs'' e''].
  cbn [fst snd] in *.
  pose proof (round_nearest_even_le (shr_m mrs'') (loc_of_shr_record mrs''))
    as (_ & _ & Hlow2).
  destruct (shr_m mrs'') as [|p|p]; [by left| |lia].
  right. replace (e'' <=? emax - prec) with true
    by (symmetry; apply Z.leb_le; unfold emax, prec; lia).
  exists p, e''. repeat split; try done. lia.
Qed.

Lemma unit_key m e :
  bounded prec emax m e = true -> e <= 0 -> Z.pos m <= 2 ^ (- e) ->
  key_le (SFkey (S754_finite false m e)) (SFkey (Prim2SF 1%float)).
Proof.
  intros Hb He Hle. change (Prim2SF 1%float) with (S754_finite false 4503599627370496 (-52)).
  simpl. right. split; [done|].
  destruct (Z.lt_trichotomy e (-52)) as [?|[->|Hgt]]; [by left| |].
  - right. split; [done|]. simpl in Hle. lia.
  - exfalso.
    pose proof (bounded_normal m e Hb ltac:(unfold SpecFloat.emin, prec, emax; lia)) as Hn.
    assert (2 ^ (- e) <= 2 ^ 51) by (apply Z.pow_le_mono_r; lia).
    unfold prec in Hn. simpl in Hn. lia.
Qed.

Lemma key_unit m e :
  bounded prec emax m e = true ->
  key_le (SFkey (S754_finite false m e)) (SFkey (Prim2SF 1%float)) ->
  e <= 0 /\ Z.pos m <= 2 ^ (- e).
Proof.
  intros Hb. change (Prim2SF 1%float) with (S754_finite false 4503599627370496 (-52)).
  simpl. intros [?|[_ [Hlt|[-> Hm]]]]; [lia| |].
  - split; [lia|].
    pose proof (bounded_digits m e Hb) as Hd.
    assert (2 ^ prec <= 2 ^ (- e)) by (apply Z.pow_le_mono_r; unfold prec; lia).
    lia.
  - split; [lia|]. simpl. lia.
Qed.


Lemma unit_interval_shape (s : spec_float) :
  valid_binary s = true ->
  SFleb (S754_zero false) s = true -> SFleb s (Prim2SF 1%float) = true ->
  (exists b, s = S754_zero b)
  \/ exists m e, s = S754_finite false m e /\ bounded prec emax m e = true
                 /\ e <= 0 /\ Z.pos m <= 2 ^ (- e).
Proof.
  intros Hv H0 H1.
  destruct s as [b|b| |b m e]; try done.
  - left. by exists b.
  - by destruct b.
  - destruct b; [done|]. right. exists m, e.
    split; [done|]. split; [done|].
    apply key_unit; [done|]. by apply SFleb_key.
Qed.

(** The product of two numbers of [0, 1] is a number of [0, 1]. *)
Lemma mul_unit (x y : float) :
  ((0 <=? x) = true -> (x <=? 1) = true ->
   (0 <=? y) = true -> (y <=? 1) = true ->
   (0 <=? x * y) = true /\ (x * y <=? 1) = true)%float.
Proof.
  rewrite !FloatAxioms.leb_spec.
  pose proof (Prim2SF_valid (x * y)%float) as Hv.
  pose proof (Prim2SF_valid x) as Hvx.
  pose proof (Prim2SF_valid y) as Hvy.
  rewrite FloatAxioms.mul_spec in *.
  change (Prim2SF 0%float) with (S754_zero false).
  revert Hv Hvx Hvy. generalize (Prim2SF x) (Prim2SF y).
  intros sx sy Hv Hvx Hvy H0x H1x H0y H1y.
  destruct (unit_interval_shape sx Hvx H0x H1x)
    as [[bx ->]|(mx & ex & -> & Hbx & Hex & Hmx)];
  destruct (unit_interval_shape sy Hvy H0y H1y)
    as [[by' ->]|(my & ey & -> & Hby & Hey & Hmy)].
  - by destruct bx, by'.
  - by destruct bx.
  - by destruct by'.
  - unfold SF64mul, SFmul in *. cbn [xorb] in *.
    assert (Z.pos (mx * my) <= 2 ^ (- (ex + ey))) as Hle.
    { replace (- (ex + ey)) with (- ex + - ey) by lia.
      rewrite Z.pow_add_r, Pos2Z.inj_mul by lia.
      apply Z.mul_le_mono_nonneg; lia. }
    destruct (binary_round_aux_unit (Z.pos (mx * my)) (ex + ey)
                ltac:(lia) ltac:(lia) Hle)
      as [Hr|(m' & e' & Hr & He' & Hm')]; rewrite Hr in *; [done|].
    split; [done|]. apply SFleb_key; try done.
    by apply unit_key.
Qed.

End Product.


(** ** Differences, quotients and array lengths as numbers *)

Section MoreNumbers.
Import FloatOrder.
Open Scope Z_scope.

(** A finite number is a zero or has a mantissa and an exponent. *)
Lemma is_finite_shape (x : float) :
  is_finite x = true ->
  (exists s, Prim2SF x = S754_zero s)
  \/ exists s m e, Prim2SF x = S754_finite s m e.
Proof.
  unfold is_finite. intros H%negb_true_iff.
  apply orb_false_iff in H as [Hnan%is_nan_false Hinf].
  unfold is_infinity in Hinf.
  rewrite FloatAxioms.eqb_spec, abs_spec in Hinf.
  change (Prim2SF infinity) with (S754_infinity false) in Hinf.
  destruct (Prim2SF x) as [s|s| |s m e]; try done; eauto.
Qed.

Lemma sub_same (x : float) : is_finite x = true -> (x - x = 0)%float.
Proof.
  intros Hx. apply Prim2SF_inj. rewrite FloatAxioms.sub_spec.
  change (Prim2SF 0%float) with (S754_zero false).
  destruct (is_finite_shape x Hx) as [[s ->]|(s & m & e & ->)].
  - by destruct s.
  - unfold SF64sub, SFsub. by rewrite Z.sub_diag.
Qed.

Lemma SFabs_binary_round sx m e :
  SFabs (binary_round prec emax sx m e)
  = SFabs (binary_round prec emax false m e).
Proof.
  unfold binary_round, binary_round_aux.
  destruct (shl_align _ _ _) as [mz ez].
  destruct (shr_fexp _ _ _ _ _) as [mrs' e'].
  destruct (shr_fexp _ _ _ _ _) as [mrs'' e''].
  destruct (shr_m mrs''); try done.
  by destruct (_ <=? _).
Qed.

Lemma SFabs_binary_normalize_opp D e :
  SFabs (binary_normalize prec emax (- D) e false)
  = SFabs (binary_normalize prec emax D e false).
Proof.
  destruct D as [|p|p]; simpl; [done| |].
  - apply SFabs_binary_round.
  - symmetry. apply SFabs_binary_round.
Qed.

(** The distance of two numbers does not depend on their order. *)
Lemma abs_sub_comm (x y : float) : (abs (x - y) = abs (y - x))%float.
Proof.
  apply Prim2SF_inj. rewrite !abs_spec, !FloatAxioms.sub_spec.
  destruct (Prim2SF x) as [sx|sx| |sx mx ex],
           (Prim2SF y) as [sy|sy| |sy my ey];
    try done; try (by destruct sx, sy).
  unfold SF64sub, SFsub. rewrite (Z.min_comm ey ex).
  rewrite <- SFabs_binary_normalize_opp. f_equal. f_equal. lia.
Qed.


Lemma Zdigits2_le m k :
  0 < m -> m < 2 ^ k -> 0 <= k -> Zdigits2 m <= k.
Proof.
  intros Hm Hlt Hk. destruct m as [|p|p]; try lia.
  pose proof (Zdigits2_lower p) as Hl.
  assert (2 ^ (Zdigits2 (Z.pos p) - 1) < 2 ^ k) as Hp by lia.
  apply Z.pow_lt_mono_r_iff in Hp; lia.
Qed.

Lemma pow_bound_exponent m e B : 0 < m -> m < 2 ^ (B - e) -> e < B.
Proof.
  intros Hm Hlt.
  destruct (Z.lt_trichotomy (B - e) 0) as [Hneg|[H0|Hpos]]; [| |lia].
  - rewrite Z.pow_neg_r in Hlt by lia. lia.
  - rewrite H0 in Hlt. simpl in Hlt. lia.
Qed.

Lemma shr_fexp_exponent m e l :
  snd (shr_fexp prec emax m e l)
  = Z.max e (SpecFloat.fexp prec emax (Zdigits2 m + e)).
Proof.
  unfold shr_fexp, shr.
  destruct (SpecFloat.fexp prec emax (Zdigits2 m + e) - e) eqn:E;
    cbn [snd]; lia.
Qed.

Lemma shr_fexp_value m e l :
  0 <= m ->
  shr_m (fst (shr_fexp prec emax m e l))
  * 2 ^ (snd (shr_fexp prec emax m e l) - e) <= m.
Proof.
  intros Hm. unfold shr_fexp, shr.
  assert (shr_m (shr_record_of_loc m l) = m) as Hrec
    by (destruct l as [|[]]; reflexivity).
  destruct (SpecFloat.fexp prec emax (Zdigits2 m + e) - e) as [|n|n] eqn:E;
    cbn [fst snd].
  - rewrite Hrec, Z.sub_diag, Z.pow_0_r. lia.
  - rewrite iter_pos_nat, shr_iter_m, Hrec, positive_nat_Z by (rewrite Hrec; lia).
    replace (e + Z.pos n - e) with (Z.pos n) by lia.
    rewrite Z.mul_comm. apply Z.mul_div_le. apply Z.pow_pos_nonneg; lia.
  - rewrite Hrec, Z.sub_diag, Z.pow_0_r. lia.
Qed.

(** Rounding a mantissa whose value is below [2 ^ B], for [B] below
    [emax], gives a finite number. *)
Lemma binary_round_aux_finite sx m e l B :
  0 < m -> SpecFloat.emin prec emax <= e -> e <= emax - prec ->
  m < 2 ^ (B - e) -> B <= emax - 1 ->
  exists m' e', binary_round_aux prec emax sx m e l = S754_finite sx m' e'.
Proof.
  intros Hm He Hemax Hlt HB. unfold binary_round_aux.
  assert (e < B) as HeB.
  { by apply (pow_bound_exponent m). }
  pose proof (Zdigits2_le m (B - e) Hm Hlt ltac:(lia)) as Hd.
  destruct (shr_fexp_pos m e l Hm He) as [H1 H1e].
  pose proof (shr_fexp_exponent m e l) as Hexp.
  pose proof (shr_fexp_value m e l ltac:(lia)) as Hval.
  destruct (shr_fexp prec emax m e l) as [mrs' e']. cbn [fst snd] in *.
  assert (e' <= B - 1 /\ e' <= emax - prec /\ e <= e') as (HeB' & Hemax' & Hee').
  { unfold SpecFloat.fexp, SpecFloat.emin, prec, emax in *. lia. }
  assert (shr_m mrs' < 2 ^ (B - e')) as Hm'.
  { assert (2 ^ (B - e) = 2 ^ (B - e') * 2 ^ (e' - e)) as Hsplit
      by (rewrite <- Z.pow_add_r by lia; f_equal; lia).
    assert (0 < 2 ^ (e' - e)) by (apply Z.pow_pos_nonneg; lia).
    nia. }
  set (m'' := round_nearest_even (shr_m mrs') (loc_of_shr_record mrs')).
  assert (0 < m'') as Hm''pos by by apply round_nearest_even_pos.
  assert (m'' < 2 ^ (B - e' + 1)) as Hm''.
  { destruct (round_nearest_even_le (shr_m mrs') (loc_of_shr_record mrs'))
      as (Hup & _ & _). fold m'' in Hup.
    rewrite Z.pow_add_r by lia. simpl (2 ^ 1). lia. }
  pose proof (Zdigits2_le m'' (B - e' + 1) Hm''pos Hm'' ltac:(lia)) as Hd''.
  destruct (shr_fexp_pos m'' e' loc_Exact Hm''pos H1e) as [H3 _].
  pose proof (shr_fexp_exponent m'' e' loc_Exact) as Hexp''.
  destruct (shr_fexp prec emax m'' e' loc_Exact) as [mrs'' e''].
  cbn [fst snd] in *.
  destruct (shr_m mrs'') as [|p|p]; try lia.
  replace (e'' <=? emax - prec) with true; [eauto|].
  symmetry. apply Z.leb_le.
  unfold SpecFloat.fexp, SpecFloat.emin, prec, emax in *. lia.
Qed.

Lemma binary_round_finite sx p e B :
  SpecFloat.emin prec emax <= e -> e <= emax - prec ->
  Z.pos p < 2 ^ (B - e) -> B <= emax - 1 ->
  exists m' e', binary_round prec emax sx p e = S754_finite sx m' e'.
Proof.
  intros He Hemax Hlt HB. unfold binary_round.
  pose proof (shl_align_value p e (Z.min e (SpecFloat.fexp prec emax (Z.pos (digits2_pos p) + e)))
                ltac:(lia)) as Hval.
  destruct (shl_align p e (SpecFloat.fexp prec emax (Z.pos (digits2_pos p) + e)))
    as [mz ez] eqn:E.
  assert (ez = Z.min e (SpecFloat.fexp prec emax (Z.pos (digits2_pos p) + e))
          /\ Z.pos mz = Z.pos p * 2 ^ (e - ez)) as [Hez Hmz].
  { unfold shl_align in E, Hval.
    destruct (SpecFloat.fexp prec emax (Z.pos (digits2_pos p) + e) - e) eqn:E2;
      inversion E; subst.
    - split; [lia|]. rewrite Z.sub_diag, Z.pow_0_r. lia.
    - split; [lia|]. rewrite Z.sub_diag, Z.pow_0_r. lia.
    - assert (Z.min e (SpecFloat.fexp prec emax (Z.pos (digits2_pos p) + e))
              = SpecFloat.fexp prec emax (Z.pos (digits2_pos p) + e)) as Hmin by lia.
      split; [lia|].
      rewrite pos_iter_xO. f_equal. f_equal. lia. }
  apply (binary_round_aux_finite sx (Z.pos mz) ez loc_Exact B); try lia.
  - unfold SpecFloat.fexp, SpecFloat.emin, prec, emax in *. lia.
  - rewrite Hmz.
    assert (2 ^ (B - ez) = 2 ^ (B - e) * 2 ^ (e - ez)) as ->.
    { rewrite <- Z.pow_add_r; [f_equal; lia| |lia].
      pose proof (pow_bound_exponent (Z.pos p) e B ltac:(lia) Hlt). lia. }
    apply Z.mul_lt_mono_pos_r; [apply Z.pow_pos_nonneg; lia|done].
Qed.

(** The length of an array is a finite number, and zero only when the
    array is empty. *)
Lemma of_nat_finite (n : nat) :
  (1 <= n)%nat -> Z.of_nat n < 2 ^ 32 ->
  exists m e, Prim2SF (of_nat n) = S754_finite false m e.
Proof.
  intros Hn Hmax. unfold of_nat.
  rewrite of_uint63_spec, Uint63.of_Z_spec.
  rewrite Z.mod_small by (change wB with (2 ^ 63); lia).
  destruct (Z.of_nat n) as [|p|p] eqn:E; try lia.
  simpl binary_normalize.
  apply (binary_round_finite false p 0 32);
    unfold SpecFloat.emin, prec, emax; try lia.
Qed.


Lemma div_eucl_multiple (m : positive) :
  Z.div_eucl (Z.shiftl (Z.pos m) 53) (Z.pos m) = (2 ^ 53, 0).
Proof.
  rewrite Z.shiftl_mul_pow2 by lia.
  pose proof (Z.div_mul (2 ^ 53) (Z.pos m) ltac:(lia)) as Hq.
  pose proof (Z.mod_mul (2 ^ 53) (Z.pos m) ltac:(lia)) as Hr.
  rewrite (Z.mul_comm (2 ^ 53)) in Hq, Hr.
  unfold Z.div, Z.modulo in Hq, Hr.
  destruct (Z.div_eucl (Z.pos m * 2 ^ 53) (Z.pos m)) as [q r].
  by subst.
Qed.

(** A finite number other than zero divided by itself is one. *)
Lemma SFdiv_same s m e :
  SFdiv prec emax (S754_finite s m e) (S754_finite s m e) = Prim2SF 1%float.
Proof.
  unfold SFdiv, SFdiv_core_binary.
  replace (Zdigits2 (Z.pos m) + e - (Zdigits2 (Z.pos m) + e)) with 0 by lia.
  rewrite Z.sub_diag.
  change (Z.min (SpecFloat.fexp prec emax 0) 0) with (-53).
  change (0 - -53) with 53. cbv iota.
  rewrite div_eucl_multiple.
  replace (xorb s s) with false by by destruct s.
  assert (new_location (Z.pos m) 0 = loc_Exact) as ->.
  { unfold new_location, new_location_even, new_location_odd.
    by destruct (Z.even (Z.pos m)). }
  reflexivity.
Qed.

Lemma of_nat_div_same (n : nat) :
  (1 <= n)%nat -> Z.of_nat n < 2 ^ 32 -> (of_nat n / of_nat n = 1)%float.
Proof.
  intros Hn Hmax. apply Prim2SF_inj. rewrite FloatAxioms.div_spec.
  destruct (of_nat_finite n Hn Hmax) as (m & e & ->).
  apply SFdiv_same.
Qed.

Lemma neg_infinity_div_of_nat (n : nat) :
  (1 <= n)%nat -> Z.of_nat n < 2 ^ 32 ->
  (neg_infinity / of_nat n = neg_infinity)%float.
Proof.
  intros Hn Hmax. apply Prim2SF_inj. rewrite FloatAxioms.div_spec.
  destruct (of_nat_finite n Hn Hmax) as (m & e & ->). reflexivity.
Qed.

Lemma of_nat_is_finite (n : nat) :
  Z.of_nat n < 2 ^ 32 -> is_finite (of_nat n) = true.
Proof.
  intros Hmax. destruct n as [|n]; [reflexivity|].
  destruct (of_nat_finite (S n) ltac:(lia) Hmax) as (m & e & H).
  unfold is_finite, is_infinity.
  assert (is_nan (of_nat (S n)) = false) as -> by (apply is_nan_false; by rewrite H).
  rewrite FloatAxioms.eqb_spec, abs_spec, H. reflexivity.
Qed.

End MoreNumbers.

Section NotANumber.

Lemma add_nan_l (x : float) : nan + x = nan.
Proof.
  apply Prim2SF_inj. rewrite FloatAxioms.add_spec. by destruct (Prim2SF x).
Qed.

Lemma add_nan_r (x : float) : x + nan = nan.
Proof.
  apply Prim2SF_inj. rewrite FloatAxioms.add_spec.
  by destruct (Prim2SF x) as [[]|[]| |[] m e].
Qed.

Lemma leb_nan_l (x : float) : (nan <=? x) = false.
Proof.
  rewrite FloatAxioms.leb_spec. unfold SFleb. by destruct (Prim2SF x).
Qed.

Lemma leb_nan_r (x : float) : (x <=? nan) = false.
Proof.
  rewrite FloatAxioms.leb_spec. unfold SFleb. by destruct (Prim2SF x).
Qed.

Lemma ltb_not_nan (x y : float) :
  (x <? y) = true -> is_nan x = false /\ is_nan y = false.
Proof.
  intros H. split.
  - destruct (is_nan x) eqn:E; [|done]. apply is_nan_true in E.
    rewrite FloatAxioms.ltb_spec, E in H. done.
  - destruct (is_nan y) eqn:E; [|done]. apply is_nan_true in E.
    rewrite FloatAxioms.ltb_spec, E in H. unfold SFltb in H.
    by destruct (Prim2SF x).
Qed.

Lemma leb_not_nan (x y : float) :
  (x <=? y) = true -> is_nan x = false /\ is_nan y = false.
Proof.
  intros H. split.
  - destruct (is_nan x) eqn:E; [|done]. apply is_nan_true in E.
    rewrite FloatAxioms.leb_spec, E in H. done.
  - destruct (is_nan y) eqn:E; [|done]. apply is_nan_true in E.
    rewrite FloatAxioms.leb_spec, E in H. unfold SFleb in H.
    by destruct (Prim2SF x).
Qed.

Lemma ltb_trans (x y z : float) :
  (x <? y) = true -> (y <? z) = true -> (x <? z) = true.
Proof.
  intros Hxy Hyz.
  destruct (ltb_not_nan _ _ Hxy) as [Hx Hy].
  destruct (ltb_not_nan _ _ Hyz) as [_ Hz].
  apply ltb_key in Hxy; try done. apply ltb_key in Hyz; try done.
  apply ltb_key; try done.
  unfold FloatOrder.key_lt in *.
  destruct (FloatOrder.key x) as [[a1 a2] a3].
  destruct (FloatOrder.key y) as [[b1 b2] b3].
  destruct (FloatOrder.key z) as [[c1 c2] c3]. lia.
Qed.

End NotANumber.

(** ** Integers interpolated with themselves *)

Section NearIntegers.
Import FloatOrder.
Open Scope Z_scope.

Lemma shr_fexp_mantissa m e l :
  0 <= m ->
  shr_m (fst (shr_fexp prec emax m e l))
  = m / 2 ^ (snd (shr_fexp prec emax m e l) - e).
Proof.
  intros Hm. unfold shr_fexp, shr.
  assert (shr_m (shr_record_of_loc m l) = m) as Hrec
    by (destruct l as [|[]]; reflexivity).
  destruct (SpecFloat.fexp prec emax (Zdigits2 m + e) - e) as [|n|n] eqn:E;
    cbn [fst snd].
  - by rewrite Hrec, Z.sub_diag, Z.pow_0_r, Z.div_1_r.
  - rewrite iter_pos_nat, shr_iter_m, Hrec, positive_nat_Z
      by (rewrite Hrec; lia).
    f_equal. f_equal. lia.
  - by rewrite Hrec, Z.sub_diag, Z.pow_0_r, Z.div_1_r.
Qed.

(** Rounding a positive mantissa of value below [2 ^ B] moves the value by
    less than [2 ^ (B - 51)]. *)
Lemma binary_round_aux_near m e B U :
  0 < m -> SpecFloat.emin prec emax <= e -> e <= B - prec ->
  m < 2 ^ (B - e) -> B <= emax - 1 -> - U <= e ->
  exists m' e',
    binary_round_aux prec emax false m e loc_Exact = S754_finite false m' e'
    /\ e <= e' <= B - prec + 1
    /\ m * 2 ^ (e + U) - 2 ^ (B - prec + 2 + U)
       <= Z.pos m' * 2 ^ (e' + U)
       <= m * 2 ^ (e + U) + 2 ^ (B - prec + 2 + U).
Proof.
  intros Hm He HeB Hlt HB HU. unfold binary_round_aux.
  pose proof (Zdigits2_le m (B - e) Hm Hlt ltac:(unfold prec in *; lia)) as Hd.
  destruct (shr_fexp_pos m e loc_Exact Hm He) as [H1 H1e].
  pose proof (shr_fexp_exponent m e loc_Exact) as Hexp.
  pose proof (shr_fexp_mantissa m e loc_Exact ltac:(lia)) as Hman.
  destruct (shr_fexp prec emax m e loc_Exact) as [mrs' e']. cbn [fst snd] in *.
  assert (e <= e' /\ e' <= B - prec) as [Hee' He'B].
  { unfold SpecFloat.fexp, SpecFloat.emin, prec, emax in *. lia. }
  set (m1 := shr_m mrs') in *.
  set (a := 2 ^ (e' - e)) in *.
  assert (0 < a) as Ha by (apply Z.pow_pos_nonneg; lia).
  assert (m1 * a <= m < (m1 + 1) * a) as Hm1.
  { rewrite Hman. pose proof (Z.mul_div_le m a Ha).
    pose proof (Z.mul_succ_div_gt m a Ha). lia. }
  set (m2 := round_nearest_even m1 (loc_of_shr_record mrs')).
  assert (0 < m2) as Hm2pos by by apply round_nearest_even_pos.
  destruct (round_nearest_even_le m1 (loc_of_shr_record mrs'))
    as (Hup & _ & Hlow). fold m2 in Hup, Hlow.
  assert (m1 < 2 ^ (B - e')) as Hm1B.
  { assert (2 ^ (B - e) = 2 ^ (B - e') * a) as Hsplit
      by (unfold a; rewrite <- Z.pow_add_r by (unfold prec in *; lia);
          f_equal; lia).
    nia. }
  assert (m2 < 2 ^ (B - e' + 1)) as Hm2B.
  { rewrite Z.pow_add_r by (unfold prec in *; lia). simpl (2 ^ 1). lia. }
  pose proof (Zdigits2_le m2 (B - e' + 1) Hm2pos Hm2B
                ltac:(unfold prec in *; lia)) as Hd2.
  destruct (shr_fexp_pos m2 e' loc_Exact Hm2pos H1e) as [H3 _].
  pose proof (shr_fexp_exponent m2 e' loc_Exact) as Hexp2.
  pose proof (shr_fexp_mantissa m2 e' loc_Exact ltac:(lia)) as Hman2.
  destruct (shr_fexp prec emax m2 e' loc_Exact) as [mrs'' e''].
  cbn [fst snd] in *.
  assert (e' <= e'' /\ e'' <= B - prec + 1) as [He'e'' He''B].
  { unfold SpecFloat.fexp, SpecFloat.emin, prec, emax in *. lia. }
  set (b := 2 ^ (e'' - e')) in *.
  assert (0 < b) as Hb by (apply Z.pow_pos_nonneg; lia).
  destruct (shr_m mrs'') as [|m3|m3] eqn:Em3; try lia.
  replace (e'' <=? emax - prec) with true
    by (symmetry; apply Z.leb_le; unfold prec, emax in *; lia).
  exists m3, e''. split; [done|]. split; [lia|].
  assert (Z.pos m3 * b <= m2 < (Z.pos m3 + 1) * b) as Hm3.
  { rewrite Hman2. pose proof (Z.mul_div_le m2 b Hb).
    pose proof (Z.mul_succ_div_gt m2 b Hb). lia. }
  set (u := 2 ^ (e + U)).
  assert (0 < u) as Hu by (apply Z.pow_pos_nonneg; lia).
  assert (2 ^ (e'' + U) = b * a * u) as ->.
  { unfold a, b, u. rewrite <- !Z.pow_add_r by lia. f_equal. lia. }
  assert (a * u + b * a * u <= 2 ^ (B - prec + 2 + U)) as Herr.
  { assert (a * u = 2 ^ (e' + U)) as ->
      by (unfold a, u; rewrite <- Z.pow_add_r by lia; f_equal; lia).
    assert (b * 2 ^ (e' + U) = 2 ^ (e'' + U)) as Hbu
      by (unfold b; rewrite <- Z.pow_add_r by lia; f_equal; lia).
    replace (b * a * u) with (b * (a * u)) by lia.
    assert (a * u = 2 ^ (e' + U)) as ->
      by (unfold a, u; rewrite <- Z.pow_add_r by lia; f_equal; lia).
    rewrite Hbu.
    assert (2 ^ (e' + U) <= 2 ^ (B - prec + U))
      by (apply Z.pow_le_mono_r; lia).
    assert (2 ^ (e'' + U) <= 2 ^ (B - prec + 1 + U))
      by (apply Z.pow_le_mono_r; lia).
    assert (2 ^ (B - prec + 2 + U) = 4 * 2 ^ (B - prec + U)) as ->.
    { replace (B - prec + 2 + U) with (2 + (B - prec + U)) by lia.
      rewrite Z.pow_add_r by (unfold prec in *; lia). reflexivity. }
    assert (2 ^ (B - prec + 1 + U) = 2 * 2 ^ (B - prec + U)) as Hx.
    { replace (B - prec + 1 + U) with (1 + (B - prec + U)) by lia.
      rewrite Z.pow_add_r by (unfold prec in *; lia). reflexivity. }
    lia. }
  split; nia.
Qed.

Lemma binary_round_near p e B U :
  SpecFloat.emin prec emax <= e -> SpecFloat.emin prec emax <= B - prec ->
  Z.pos p < 2 ^ (B - e) -> B <= emax - 1 ->
  - U <= SpecFloat.emin prec emax ->
  exists m' e',
    binary_round prec emax false p e = S754_finite false m' e'
    /\ Z.min e (SpecFloat.fexp prec emax (Z.pos (digits2_pos p) + e)) <= e'
       <= B - prec + 1
    /\ Z.pos p * 2 ^ (e + U) - 2 ^ (B - prec + 2 + U)
       <= Z.pos m' * 2 ^ (e' + U)
       <= Z.pos p * 2 ^ (e + U) + 2 ^ (B - prec + 2 + U).
Proof.
  intros He HB Hlt HBmax HU. unfold binary_round.
  pose proof (shl_align_value p e
                (Z.min e (SpecFloat.fexp prec emax (Z.pos (digits2_pos p) + e)))
                ltac:(lia)) as Hval.
  destruct (shl_align p e
              (SpecFloat.fexp prec emax (Z.pos (digits2_pos p) + e)))
    as [mz ez] eqn:E.
  assert (ez = Z.min e (SpecFloat.fexp prec emax (Z.pos (digits2_pos p) + e))
          /\ Z.pos mz = Z.pos p * 2 ^ (e - ez)) as [Hez Hmz].
  { unfold shl_align in E, Hval.
    destruct (SpecFloat.fexp prec emax (Z.pos (digits2_pos p) + e) - e)
      eqn:E2; inversion E; subst.
    - split; [lia|]. rewrite Z.sub_diag, Z.pow_0_r. lia.
    - split; [lia|]. rewrite Z.sub_diag, Z.pow_0_r. lia.
    - assert (Z.min e (SpecFloat.fexp prec emax (Z.pos (digits2_pos p) + e))
              = SpecFloat.fexp prec emax (Z.pos (digits2_pos p) + e))
        as Hmin by lia.
      split; [lia|]. rewrite pos_iter_xO. f_equal. f_equal. lia. }
  pose proof (pow_bound_exponent (Z.pos p) e B ltac:(lia) Hlt) as HeB.
  pose proof (Zdigits2_le (Z.pos p) (B - e) ltac:(lia) Hlt ltac:(lia)) as Hd.
  simpl Zdigits2 in Hd.
  assert (SpecFloat.emin prec emax <= ez /\ ez <= B - prec /\ ez <= e)
    as (Hemin & HezB & Heze).
  { unfold SpecFloat.fexp, SpecFloat.emin, prec, emax in *. lia. }
  destruct (binary_round_aux_near (Z.pos mz) ez B U) as (m' & e' & Hr & He' & Hv);
    try lia.
  { rewrite Hmz.
    assert (2 ^ (B - ez) = 2 ^ (B - e) * 2 ^ (e - ez)) as ->
      by (rewrite <- Z.pow_add_r by lia; f_equal; lia).
    apply Z.mul_lt_mono_pos_r; [apply Z.pow_pos_nonneg; lia|done]. }
  exists m', e'. split; [done|]. split; [lia|].
  assert (Z.pos mz * 2 ^ (ez + U) = Z.pos p * 2 ^ (e + U)) as Hsame.
  { rewrite Hmz, <- Z.mul_assoc, <- Z.pow_add_r by lia. do 2 f_equal. lia. }
  rewrite Hsame in Hv. exact Hv.
Qed.

(** An array length, as a number. *)
Lemma of_nat_near (n : nat) :
  (1 <= n)%nat -> Z.of_nat n < 2 ^ 32 ->
  exists m e,
    Prim2SF (of_nat n) = S754_finite false m e
    /\ -52 <= e <= -20
    /\ Z.of_nat n * 2 ^ 1074 - 2 ^ 1055
       <= Z.pos m * 2 ^ (e + 1074)
       <= Z.of_nat n * 2 ^ 1074 + 2 ^ 1055.
Proof.
  intros Hn Hmax. unfold of_nat.
  rewrite of_uint63_spec, Uint63.of_Z_spec.
  rewrite Z.mod_small by (change wB with (2 ^ 63); lia).
  destruct (Z.of_nat n) as [|p|p] eqn:E; try lia.
  simpl binary_normalize.
  destruct (binary_round_near p 0 32 1074) as (m & e & Hr & He & Hv);
    try (unfold SpecFloat.emin, prec, emax; lia).
  exists m, e. split; [done|]. split.
  - assert (1 <= Z.pos (digits2_pos p)) by lia.
    unfold SpecFloat.fexp, SpecFloat.emin, prec, emax in *. lia.
  - unfold prec in Hv. simpl (32 - 53 + 2 + 1074) in Hv.
    simpl (0 + 1074) in Hv. exact Hv.
Qed.

Lemma SFmul_near mx ex mc ec B :
  SpecFloat.emin prec emax <= ex -> SpecFloat.emin prec emax <= ec ->
  SpecFloat.emin prec emax <= ex + ec -> ex + ec <= B - prec ->
  (Z.pos mx * 2 ^ (ex + 1074)) * (Z.pos mc * 2 ^ (ec + 1074))
  < 2 ^ (B + 2148) ->
  B <= emax - 1 ->
  exists m' e',
    SFmul prec emax (S754_finite false mx ex) (S754_finite false mc ec)
    = S754_finite false m' e'
    /\ SpecFloat.emin prec emax <= e' <= B - prec + 1
    /\ (Z.pos mx * 2 ^ (ex + 1074)) * (Z.pos mc * 2 ^ (ec + 1074))
         - 2 ^ (B - prec + 2 + 2148)
       <= Z.pos m' * 2 ^ (e' + 2148)
       <= (Z.pos mx * 2 ^ (ex + 1074)) * (Z.pos mc * 2 ^ (ec + 1074))
          + 2 ^ (B - prec + 2 + 2148).
Proof.
  intros Hex Hec He HeB Hlt HB. simpl SFmul.
  assert (Z.pos (mx * mc) * 2 ^ (ex + ec + 2148)
          = (Z.pos mx * 2 ^ (ex + 1074)) * (Z.pos mc * 2 ^ (ec + 1074)))
    as Hsame.
  { replace (ex + ec + 2148) with ((ex + 1074) + (ec + 1074)) by lia.
    rewrite Z.pow_add_r by (unfold SpecFloat.emin, prec, emax in *; lia).
    rewrite Pos2Z.inj_mul. ring. }
  assert (Z.pos (mx * mc) < 2 ^ (B - (ex + ec))) as Hlt'.
  { rewrite <- Hsame in Hlt.
    assert (2 ^ (B + 2148) = 2 ^ (B - (ex + ec)) * 2 ^ (ex + ec + 2148))
      as Hsplit.
    { rewrite <- Z.pow_add_r
        by (unfold SpecFloat.emin, prec, emax in *; lia).
      f_equal. lia. }
    rewrite Hsplit in Hlt.
    apply Z.mul_lt_mono_pos_r in Hlt; [done|].
    apply Z.pow_pos_nonneg;
      unfold SpecFloat.emin, prec, emax in *; lia. }
  destruct (binary_round_aux_near (Z.pos (mx * mc)) (ex + ec) B 2148
              ltac:(lia) He HeB Hlt' HB
              ltac:(unfold SpecFloat.emin, prec, emax in *; lia))
    as (m' & e' & Hr & He' & Hv).
  exists m', e'. split; [done|]. split; [lia|].
  rewrite Hsame in Hv. exact Hv.
Qed.

Lemma SFadd_near m1 e1 m2 e2 B :
  SpecFloat.emin prec emax <= e1 -> SpecFloat.emin prec emax <= e2 ->
  SpecFloat.emin prec emax <= B - prec ->
  Z.pos m1 * 2 ^ (e1 + 2148) + Z.pos m2 * 2 ^ (e2 + 2148) < 2 ^ (B + 2148) ->
  B <= emax - 1 ->
  exists m' e',
    SFadd prec emax (S754_finite false m1 e1) (S754_finite false m2 e2)
    = S754_finite false m' e'
    /\ SpecFloat.emin prec emax <= e' <= B - prec + 1
    /\ Z.pos m1 * 2 ^ (e1 + 2148) + Z.pos m2 * 2 ^ (e2 + 2148)
         - 2 ^ (B - prec + 2 + 2148)
       <= Z.pos m' * 2 ^ (e' + 2148)
       <= Z.pos m1 * 2 ^ (e1 + 2148) + Z.pos m2 * 2 ^ (e2 + 2148)
          + 2 ^ (B - prec + 2 + 2148).
Proof.
  intros He1 He2 HB Hlt HBmax. unfold SFadd, cond_Zopp.
  set (ez := Z.min e1 e2).
  pose proof (shl_align_value m1 e1 ez ltac:(lia)) as H1.
  pose proof (shl_align_value m2 e2 ez ltac:(lia)) as H2.
  destruct (shl_align m1 e1 ez) as [a1 z1]. destruct (shl_align m2 e2 ez) as [a2 z2].
  cbn [fst] in *. simpl Z.add. simpl binary_normalize.
  assert (SpecFloat.emin prec emax <= ez) as Hez by lia.
  assert (Z.pos (a1 + a2) * 2 ^ (ez + 2148)
          = Z.pos m1 * 2 ^ (e1 + 2148) + Z.pos m2 * 2 ^ (e2 + 2148)) as Hsum.
  { rewrite Pos2Z.inj_add, H1, H2, Z.mul_add_distr_r.
    rewrite <- !Z.mul_assoc, <- !Z.pow_add_r
      by (unfold SpecFloat.emin, prec, emax in *; lia).
    do 2 f_equal; f_equal; lia. }
  destruct (binary_round_near (a1 + a2) ez B 2148)
    as (m' & e' & Hr & He' & Hv);
    try (unfold SpecFloat.emin, prec, emax in *; lia).
  { assert (2 ^ (B + 2148) = 2 ^ (B - ez) * 2 ^ (ez + 2148)) as Hsplit.
    { rewrite <- Z.pow_add_r; [f_equal; lia| |].
      - assert (0 <= B - ez \/ B - ez < 0) as [?|Hneg] by lia; [done|].
        exfalso. unfold SpecFloat.emin, prec, emax in *.
        assert (0 < Z.pos m1 * 2 ^ (e1 + 2148))
          by (apply Z.mul_pos_pos; [lia|apply Z.pow_pos_nonneg; lia]).
        assert (0 < Z.pos m2 * 2 ^ (e2 + 2148))
          by (apply Z.mul_pos_pos; [lia|apply Z.pow_pos_nonneg; lia]).
        assert (2 ^ (B + 2148) <= 2 ^ (ez + 2148))
          by (apply Z.pow_le_mono_r; lia).
        assert (2 ^ (ez + 2148) <= Z.pos m1 * 2 ^ (e1 + 2148)
                                   + Z.pos m2 * 2 ^ (e2 + 2148)).
        { rewrite <- Hsum.
          assert (0 < 2 ^ (ez + 2148)) by (apply Z.pow_pos_nonneg; lia).
          nia. }
        lia.
      - unfold SpecFloat.emin, prec, emax in *. lia. }
    rewrite <- Hsum, Hsplit in Hlt.
    assert (0 < 2 ^ (ez + 2148))
      by (apply Z.pow_pos_nonneg; unfold SpecFloat.emin, prec, emax in *; lia).
    nia. }
  exists m', e'. split; [done|]. split.
  - assert (1 <= Z.pos (digits2_pos (a1 + a2))) by lia.
    unfold SpecFloat.fexp, SpecFloat.emin, prec, emax in *. lia.
  - rewrite Hsum in Hv. exact Hv.
Qed.

(** [Math.round] of a number less than one half away from [n]. *)
Lemma Math_round_near (r : float) m e (n : nat) :
  Prim2SF r = S754_finite false m e ->
  SpecFloat.emin prec emax <= e < 0 -> (1 <= n)%nat ->
  Z.of_nat n * 2 ^ 2148 - 2 ^ 2147 < Z.pos m * 2 ^ (e + 2148)
  < Z.of_nat n * 2 ^ 2148 + 2 ^ 2147 ->
  Math_round r = of_nat n.
Proof.
  intros Hr He Hn Hv. unfold Math_round. rewrite Hr.
  destruct (Z.leb_spec 0 e) as [?|_]; [lia|]. cbv zeta.
  set (k := - e).
  assert (Z.shiftr (2 * Z.pos m + 2 ^ k) (k + 1) = Z.of_nat n) as ->.
  { rewrite Z.shiftr_div_pow2 by lia.
    set (h := 2 ^ (k - 1)).
    set (u := 2 ^ (e + 2148)) in *.
    assert (0 < h) as Hh by (apply Z.pow_pos_nonneg; lia).
    assert (0 < u) as Hu
      by (apply Z.pow_pos_nonneg;
          unfold SpecFloat.emin, prec, emax in *; lia).
    assert (2 ^ k = 2 * h) as Hk.
    { unfold h. replace k with (1 + (k - 1)) at 1 by lia.
      rewrite Z.pow_add_r by lia. reflexivity. }
    assert (2 ^ (k + 1) = 4 * h) as Hk1.
    { replace (k + 1) with (2 + (k - 1)) by lia. unfold h.
      rewrite Z.pow_add_r by lia. reflexivity. }
    assert (2 ^ 2147 = h * u) as Hhu.
    { unfold h, u. rewrite <- Z.pow_add_r
        by (unfold SpecFloat.emin, prec, emax in *; lia).
      f_equal. lia. }
    assert (2 ^ 2148 = 2 * h * u) as HK.
    { change (2 ^ 2148) with (2 * 2 ^ 2147). rewrite Hhu. ring. }
    rewrite Hhu, HK in Hv. rewrite Hk, Hk1.
    assert (Z.of_nat n * (2 * h) - h < Z.pos m < Z.of_nat n * (2 * h) + h)
      as Hm by nia.
    symmetry. apply (Z.div_unique_pos _ _ _
                       (2 * Z.pos m + 2 * h - 4 * h * Z.of_nat n)); lia. }
  destruct (Z.of_nat n) as [|p|p] eqn:E; try lia.
  unfold of_Z, of_nat. by rewrite E.
Qed.

Lemma scaled_pos m e : -1074 <= e -> 0 < Z.pos m * 2 ^ (e + 1074).
Proof. intros. apply Z.mul_pos_pos; [lia|apply Z.pow_pos_nonneg; lia]. Qed.

Lemma product_below X C :
  0 < X < 2 ^ 1107 -> 0 < C <= 2 ^ 1074 -> X * C < 2 ^ (33 + 2148).
Proof.
  intros HX HC. apply Z.le_lt_trans with (X * 2 ^ 1074).
  - apply Z.mul_le_mono_nonneg_l; lia.
  - change (2 ^ (33 + 2148)) with (2 ^ 1107 * 2 ^ 1074).
    apply Z.mul_lt_mono_pos_r; [reflexivity|lia].
Qed.

Lemma round_lerp_integer (n : nat) (c1 c2 : float) m1 e1 m2 e2 :
  Prim2SF c1 = S754_finite false m1 e1 ->
  Prim2SF c2 = S754_finite false m2 e2 ->
  -1000 <= e1 <= 0 -> -1000 <= e2 <= 0 ->
  Z.pos m1 * 2 ^ (e1 + 1074) <= 2 ^ 1074 ->
  Z.pos m2 * 2 ^ (e2 + 1074) <= 2 ^ 1074 ->
  2 ^ 1074 - 2 ^ 1034
  <= Z.pos m1 * 2 ^ (e1 + 1074) + Z.pos m2 * 2 ^ (e2 + 1074)
  <= 2 ^ 1074 + 2 ^ 1034 ->
  (1 <= n)%nat -> Z.of_nat n < 2 ^ 32 ->
  (Math_round (of_nat n * c1 + of_nat n * c2) = of_nat n)%float.
Proof.
  intros Hc1 Hc2 He1 He2 Hle1 Hle2 Hsum Hn Hmax.
  destruct (of_nat_near n Hn Hmax) as (mx & ex & Hx & Hex & HX).
  pose proof (scaled_pos mx ex ltac:(lia)) as HXpos.
  pose proof (scaled_pos m1 e1 ltac:(lia)) as HC1.
  pose proof (scaled_pos m2 e2 ltac:(lia)) as HC2.
  assert (SpecFloat.emin prec emax = -1074) as Hemin by reflexivity.
  destruct (SFmul_near mx ex m1 e1 33) as (p1 & f1 & Hp1 & Hf1 & HV1);
    [rewrite Hemin; lia|rewrite Hemin; lia|rewrite Hemin; lia
    |unfold prec; lia| |unfold emax; lia|].
  { apply product_below; lia. }
  destruct (SFmul_near mx ex m2 e2 33) as (p2 & f2 & Hp2 & Hf2 & HV2);
    [rewrite Hemin; lia|rewrite Hemin; lia|rewrite Hemin; lia
    |unfold prec; lia| |unfold emax; lia|].
  { apply product_below; lia. }
  set (X := Z.pos mx * 2 ^ (ex + 1074)) in *.
  set (C1 := Z.pos m1 * 2 ^ (e1 + 1074)) in *.
  set (C2 := Z.pos m2 * 2 ^ (e2 + 1074)) in *.
  change (2 ^ (33 - prec + 2 + 2148)) with (2 ^ 2130) in HV1, HV2.
  change (33 - prec + 1) with (-19) in Hf1, Hf2.
  rewrite Hemin in Hf1, Hf2.
  set (V1 := Z.pos p1 * 2 ^ (f1 + 2148)) in *.
  set (V2 := Z.pos p2 * 2 ^ (f2 + 2148)) in *.
  assert (X * (2 ^ 1074 - 2 ^ 1034) <= X * C1 + X * C2
          <= X * (2 ^ 1074 + 2 ^ 1034)) as HP.
  { rewrite <- Z.mul_add_distr_l.
    split; apply Z.mul_le_mono_nonneg_l; lia. }
  assert (X * 2 ^ 1034 < 2 ^ 2141) as HXq.
  { change (2 ^ 2141) with (2 ^ 1107 * 2 ^ 1034).
    apply Z.mul_lt_mono_pos_r; [reflexivity|lia]. }
  assert (Z.of_nat n * 2 ^ 2148 - 2 ^ 2129 <= X * 2 ^ 1074
          <= Z.of_nat n * 2 ^ 2148 + 2 ^ 2129) as HXK.
  { change (2 ^ 2148) with (2 ^ 1074 * 2 ^ 1074).
    change (2 ^ 2129) with (2 ^ 1055 * 2 ^ 1074).
    rewrite Z.mul_assoc, <- Z.mul_sub_distr_r, <- Z.mul_add_distr_r.
    split; apply Z.mul_le_mono_nonneg_r; lia. }
  rewrite !Z.mul_sub_distr_l, !Z.mul_add_distr_l in HP.
  destruct (SFadd_near p1 f1 p2 f2 35) as (mr & er & Hr & Her & HR);
    [rewrite Hemin; lia|rewrite Hemin; lia|rewrite Hemin; unfold prec; lia
    | |unfold emax; lia|].
  { fold V1 V2. change (2 ^ (35 + 2148)) with (2 ^ 2183).
    assert (Z.of_nat n * 2 ^ 2148 < 2 ^ 2180).
    { change (2 ^ 2180) with (2 ^ 32 * 2 ^ 2148).
      apply Z.mul_lt_mono_pos_r; [reflexivity|lia]. }
    lia. }
  fold V1 V2 in HR.
  change (2 ^ (35 - prec + 2 + 2148)) with (2 ^ 2132) in HR.
  change (35 - prec + 1) with (-17) in Her. rewrite Hemin in Her.
  apply (Math_round_near _ mr er n); [|rewrite Hemin; lia|done|].
  - rewrite FloatAxioms.add_spec, !FloatAxioms.mul_spec, Hx, Hc1, Hc2.
    unfold SF64add, SF64mul. by rewrite Hp1, Hp2.
  - lia.
Qed.

(** One coefficient is [1] and the other [0]. *)
Lemma round_mul_one (n : nat) :
  (1 <= n)%nat -> Z.of_nat n < 2 ^ 32 ->
  (Math_round (of_nat n * 1 + of_nat n * 0) = of_nat n
   /\ Math_round (of_nat n * 0 + of_nat n * 1) = of_nat n)%float.
Proof.
  intros Hn Hmax.
  destruct (of_nat_near n Hn Hmax) as (mx & ex & Hx & Hex & HX).
  pose proof (scaled_pos mx ex ltac:(lia)) as HXpos.
  assert (SpecFloat.emin prec emax = -1074) as Hemin by reflexivity.
  assert (Prim2SF 1%float = S754_finite false 4503599627370496 (-52))
    as H1 by reflexivity.
  destruct (SFmul_near mx ex 4503599627370496 (-52) 33)
    as (p1 & f1 & Hp1 & Hf1 & HV1);
    [rewrite Hemin; lia|rewrite Hemin; lia|rewrite Hemin; lia
    |unfold prec; lia| |unfold emax; lia|].
  { apply product_below; [lia|]. split; [reflexivity|].
    apply Z.leb_le. reflexivity. }
  change (4503599627370496 * 2 ^ (-52 + 1074)) with (2 ^ 1074) in HV1.
  change (2 ^ (33 - prec + 2 + 2148)) with (2 ^ 2130) in HV1.
  change (33 - prec + 1) with (-19) in Hf1. rewrite Hemin in Hf1.
  set (X := Z.pos mx * 2 ^ (ex + 1074)) in *.
  assert (Z.of_nat n * 2 ^ 2148 - 2 ^ 2129 <= X * 2 ^ 1074
          <= Z.of_nat n * 2 ^ 2148 + 2 ^ 2129) as HXK.
  { change (2 ^ 2148) with (2 ^ 1074 * 2 ^ 1074).
    change (2 ^ 2129) with (2 ^ 1055 * 2 ^ 1074).
    rewrite Z.mul_assoc, <- Z.mul_sub_distr_r, <- Z.mul_add_distr_r.
    split; apply Z.mul_le_mono_nonneg_r; lia. }
  assert (Prim2SF (of_nat n * 1)%float = S754_finite false p1 f1) as Hmul.
  { rewrite FloatAxioms.mul_spec, Hx, H1. exact Hp1. }
  assert (Prim2SF (of_nat n * 0)%float = S754_zero false) as Hzero.
  { rewrite FloatAxioms.mul_spec, Hx. reflexivity. }
  assert (Math_round (of_nat n * 1)%float = of_nat n) as Hround.
  { apply (Math_round_near _ p1 f1 n); [done|rewrite Hemin; lia|done|lia]. }
  assert ((of_nat n * 1 + of_nat n * 0 = of_nat n * 1)%float) as ->.
  { apply Prim2SF_inj. rewrite FloatAxioms.add_spec, Hmul, Hzero.
    reflexivity. }
  assert ((of_nat n * 0 + of_nat n * 1 = of_nat n * 1)%float) as ->.
  { apply Prim2SF_inj. rewrite FloatAxioms.add_spec, Hmul, Hzero.
    reflexivity. }
  done.
Qed.

(** With five steps, an integer below [2 ^ 32] interpolated with itself
    and rounded is that integer, at each of the six parameters. *)
Lemma round_self_interpolation (n i : nat) :
  Z.of_nat n < 2 ^ 32 -> (i <= 5)%nat ->
  Math_round (PlanSpec.linear_interpolation (of_nat n) (of_nat n)
                (of_nat i / of_nat 5)%float)
  = of_nat n.
Proof.
  intros Hmax Hi. unfold PlanSpec.linear_interpolation.
  destruct n as [|n].
  { do 6 (destruct i as [|i]; [vm_compute; reflexivity|]). lia. }
  destruct i as [|i].
  { change (of_nat 0 / of_nat 5)%float with 0%float.
    change (1 - 0)%float with 1%float.
    apply round_mul_one; lia. }
  do 4 (destruct i as [|i];
        [eapply round_lerp_integer;
         [vm_compute; reflexivity|vm_compute; reflexivity
         |lia|lia
         |apply Z.leb_le; vm_compute; reflexivity
         |apply Z.leb_le; vm_compute; reflexivity
         |split; apply Z.leb_le; vm_compute; reflexivity
         |lia|lia]|]).
  destruct i as [|i]; [|lia].
  change (of_nat 5 / of_nat 5)%float with 1%float.
  change (1 - 1)%float with 0%float.
  apply round_mul_one; lia.
Qed.

End NearIntegers.

(** ** The local planner: [plan] *)

Section PlanProperties.
Import LocalPlanner PlanSpec.

Variable Math_exp : float -> float.
Variable this : Options.
Variable architecture : Architecture.

Ltac run := unfold bind, ret in *; simpl in *.

Lemma interpolate_loop_length configA configB n i w :
  length (interpolate_loop this configA configB n i w).1 = n.
Proof.
  revert i w. induction n as [|n IH]; intros i w; [done|].
  simpl. run.
  destruct (interpolated _ _ _ _ _) as [wp w1].
  specialize (IH (S i) w1).
  destruct (interpolate_loop _ _ _ _ _ _) as [rest w2].
  simpl in *. by rewrite IH.
Qed.

Lemma interpolate_length configA configB w :
  length (_interpolate this configA configB w).1
  = S (interpolationSteps this).
Proof. apply interpolate_loop_length. Qed.

(** [plan] in terms of its two phases. *)
Lemma plan_unfold configA configB w :
  await (plan Math_exp this configA configB architecture w).1
  = let wps := (_interpolate this configA configB w).1 in
    let r := plan_loop Math_exp this architecture wps 0 1 in
    {| waypoints := if r.1.1 then wps else [];
       cost := r.1.2;
       probability := r.2;
       isValid := r.1.1;
       numSteps := length wps |}.
Proof.
  unfold plan, bind.
  destruct (_interpolate _ _ _ _) as [wps w'].
  simpl. by destruct (plan_loop _ _ _ _ _ _) as [[v c] p].
Qed.

Lemma plan_loop_cons wp1 wp2 rest total prob :
  plan_loop Math_exp this architecture (wp1 :: wp2 :: rest) total prob
  = if collisionCheckEnabled this && negb (_isValid wp1 architecture)
    then (false, total, prob)
    else
      let total' := total + _computeTransitionCost wp1 wp2 architecture in
      let prob' :=
        prob * _computeTransitionProbability Math_exp wp1 wp2 architecture in
      if gtb total' (maxTransitionCost this) then (false, total', prob')
      else plan_loop Math_exp this architecture (wp2 :: rest) total' prob'.
Proof. reflexivity. Qed.

Lemma plan_loop_invalid_waypoint wps total prob i wp :
  collisionCheckEnabled this = true ->
  (S i < length wps)%nat ->
  wps !! i = Some wp ->
  _isValid wp architecture = false ->
  (plan_loop Math_exp this architecture wps total prob).1.1 = false.
Proof.
  intros Hc. revert total prob i.
  induction wps as [|wp1 [|wp2 rest] IH]; intros total prob i Hi Hwp Hinv;
    simpl in Hi; try lia.
  rewrite plan_loop_cons, Hc. simpl andb.
  destruct (_isValid wp1 architecture) eqn:Hv1; [|done].
  simpl negb. cbv iota zeta.
  destruct (gtb _ _); [done|].
  destruct i as [|i]; simpl in Hwp.
  - congruence.
  - apply IH with i; [simpl; lia|done..].
Qed.

Lemma plan_loop_cost_exceeded wps total prob k :
  (1 <= k)%nat -> (k < length wps)%nat ->
  gtb (accumulated_cost architecture wps k total) (maxTransitionCost this)
  = true ->
  (plan_loop Math_exp this architecture wps total prob).1.1 = false.
Proof.
  revert total prob k.
  induction wps as [|wp1 [|wp2 rest] IH]; intros total prob k Hk1 Hk Hgt;
    simpl in Hk; try lia.
  rewrite plan_loop_cons.
  destruct (_ && _); [done|]. cbv zeta.
  destruct k as [|k]; [lia|].
  change (accumulated_cost architecture (wp1 :: wp2 :: rest) (S k) total)
    with (accumulated_cost architecture (wp2 :: rest) k
            (total + _computeTransitionCost wp1 wp2 architecture)) in Hgt.
  destruct (gtb (total + _) _) eqn:Hnow; [done|].
  destruct k as [|k].
  - simpl in Hgt. congruence.
  - apply IH with (S k); [lia|simpl; lia|done].
Qed.

Lemma plan_loop_prefix wps total prob :
  (plan_loop Math_exp this architecture wps total prob).1.1 = false ->
  exists k,
    clean_before architecture this wps total k
    /\ broke_at architecture this wps total k
    /\ (plan_loop Math_exp this architecture wps total prob).1.2
       = accumulated_cost architecture wps k total
    /\ (plan_loop Math_exp this architecture wps total prob).2
       = accumulated_probability Math_exp architecture wps k prob.
Proof.
  revert total prob.
  induction wps as [|wp1 [|wp2 rest] IH]; intros total prob; try done.
  rewrite plan_loop_cons.
  destruct (collisionCheckEnabled this && negb (_isValid wp1 architecture))
    eqn:Hchk.
  { intros _. exists 0%nat. apply andb_true_iff in Hchk as [Hc Hv].
    apply negb_true_iff in Hv.
    split; [intros j Hj; lia|]. split; [|done].
    right. split; [done|]. split; [simpl; lia|]. by exists wp1. }
  assert (collisionCheckEnabled this = true ->
          _isValid wp1 architecture = true) as Hv1.
  { intros Hc. rewrite Hc in Hchk. simpl in Hchk.
    by destruct (_isValid wp1 architecture). }
  cbv zeta.
  destruct (gtb (total + _) _) eqn:Hnow.
  { intros _. exists 1%nat. split; [|split; [|done]].
    - intros j Hj. assert (j = 0%nat) as -> by lia.
      split; [|lia]. intros Hc wp [= <-]. auto.
    - left. split; [lia|]. split; [simpl; lia|]. done. }
  intros Hinv. destruct (IH _ _ Hinv) as (k & Hclean & Hbroke & Hcost & Hprob).
  exists (S k). split; [|split; [|done]].
  - intros [|j] Hj.
    + split; [|lia]. intros Hc wp [= <-]. auto.
    + destruct (Hclean j ltac:(lia)) as [Hcv Hcc]. split; [done|].
      intros _. destruct j as [|j]; [done|]. apply Hcc. lia.
  - destruct Hbroke as [(Hk1 & Hk & Hgt)|(Hc & Hk & wp & Hwp & Hwv)].
    + left. split; [lia|]. split; [simpl in *; lia|done].
    + right. split; [done|]. split; [simpl in *; lia|]. by exists wp.
Qed.

Lemma broke_at_unique wps total k k' :
  clean_before architecture this wps total k ->
  broke_at architecture this wps total k ->
  clean_before architecture this wps total k' ->
  broke_at architecture this wps total k' ->
  k = k'.
Proof.
  assert (forall a b, (a < b)%nat ->
            broke_at architecture this wps total a ->
            clean_before architecture this wps total b -> False) as Hlt.
  { intros a b Hab Hbroke Hclean. destruct (Hclean a Hab) as [Hv Hc].
    destruct Hbroke as [(Ha1 & _ & Hgt)|(Hcoll & _ & wp & Hwp & Hinv)].
    - rewrite Hc in Hgt by done. done.
    - rewrite (Hv Hcoll wp Hwp) in Hinv. done. }
  intros Hc Hb Hc' Hb'.
  destruct (Nat.lt_trichotomy k k') as [?|[?|?]]; [|done|];
    exfalso; eauto.
Qed.

(** C9. An invalid result keeps the cost and the probability accumulated
    so far: there is exactly one number [k] of pairs after which the loop
    broke, [cost] is the sum of the transition costs of the first [k]
    pairs and [probability] the product of their transition
    probabilities; when the very first waypoint is the invalid one,
    these are [0] and [1]. *)
Theorem invalid_plan_keeps_partial_cost_and_probability configA configB w :
  let wps := (_interpolate this configA configB w).1 in
  let result := await (plan Math_exp this configA configB architecture w).1 in
  isValid result = false ->
  (exists k,
     (clean_before architecture this wps 0 k
      /\ broke_at architecture this wps 0 k)
     /\ (forall k', clean_before architecture this wps 0 k' ->
                    broke_at architecture this wps 0 k' -> k' = k)
     /\ cost result = accumulated_cost architecture wps k 0
     /\ probability result
        = accumulated_probability Math_exp architecture wps k 1)
  /\ (collisionCheckEnabled this = true ->
      (forall wp, wps !! 0%nat = Some wp -> _isValid wp architecture = false) ->
      cost result = 0 /\ probability result = 1).
Proof.
  intros wps result. subst result. rewrite plan_unfold. fold wps.
  cbv zeta. simpl. intros Hinv.
  destruct (plan_loop_prefix wps 0 1 Hinv)
    as (k & Hclean & Hbroke & Hcost & Hprob).
  split.
  - exists k. split; [done|]. split; [|done].
    intros k' Hc' Hb'. by apply (broke_at_unique wps 0).
  - intros Hcoll Hfirst.
    destruct k as [|k]; [by rewrite Hcost, Hprob; destruct wps|].
    destruct (Hclean 0%nat ltac:(lia)) as [Hv _].
    pose proof (interpolate_length configA configB w) as Hlen.
    fold wps in Hlen.
    destruct wps as [|wp0 wps']; [done|].
    specialize (Hv Hcoll wp0 eq_refl).
    rewrite (Hfirst wp0 eq_refl) in Hv. done.
Qed.

End PlanProperties.

(** ** The local planner: calls that return *)

(** Whenever a call returns, it returns what the functions of
    [LocalPlanner] compute. *)

Section OutcomeAgreement.
Import LocalPlanner.

Variable Math_exp : float -> float.
Variable this : Options.
Variable architecture : Architecture.

Lemma dependencies_get_declared current deps :
  Outcome.dependencies_get architecture current = Outcome.declared deps ->
  deps_of architecture current = deps.
Proof.
  unfold Outcome.dependencies_get, deps_of.
  destruct (default ∅ (layerDependencies architecture) !! current);
    [by intros [= ->]|].
  by destruct (includes _ _).
Qed.

Lemma dependencies_get_undefined current :
  Outcome.dependencies_get architecture current = Outcome.undefined ->
  deps_of architecture current = [].
Proof.
  unfold Outcome.dependencies_get, deps_of.
  by destruct (default ∅ (layerDependencies architecture) !! current).
Qed.

Lemma outcome_hasRequiredDeps sequence i b :
  Outcome.hasRequiredDeps sequence architecture i = Some b ->
  hasRequiredDeps sequence architecture i = b.
Proof.
  unfold Outcome.hasRequiredDeps, hasRequiredDeps.
  destruct (sequence !! i) as [current|]; [|by intros [= <-]].
  destruct (Outcome.dependencies_get architecture current) as [deps| |] eqn:E;
    [|done|].
  - intros [= <-]. by rewrite (dependencies_get_declared _ _ E).
  - intros [= <-]. by rewrite (dependencies_get_undefined _ E).
Qed.

Lemma outcome_dependency_loop sequence n i b :
  Outcome.dependency_loop sequence architecture n i = Some b ->
  forallb (hasRequiredDeps sequence architecture) (seq i n) = b.
Proof.
  revert i. induction n as [|n IH]; intros i; simpl; [by intros [= <-]|].
  destruct (Outcome.hasRequiredDeps sequence architecture i) as [[]|] eqn:E;
    [| |done].
  - rewrite (outcome_hasRequiredDeps _ _ _ E). simpl. apply IH.
  - rewrite (outcome_hasRequiredDeps _ _ _ E). by intros [= <-].
Qed.

Lemma outcome_isLayerSequenceValid sequence b :
  Outcome._isLayerSequenceValid sequence architecture = Some b ->
  _isLayerSequenceValid sequence architecture = b.
Proof.
  unfold Outcome._isLayerSequenceValid, _isLayerSequenceValid.
  destruct (negb _ || negb _); [by intros [= <-]|].
  apply outcome_dependency_loop.
Qed.

Lemma outcome_isValid config b :
  Outcome._isValid config architecture = Some b ->
  _isValid config architecture = b.
Proof.
  unfold Outcome._isValid, _isValid.
  destruct (Outcome._isLayerSequenceValid _ _) as [ok|] eqn:E; [|done].
  rewrite (outcome_isLayerSequenceValid _ _ E). by intros [= <-].
Qed.

Lemma outcome_computeTransitionProbability wp1 wp2 p :
  Outcome._computeTransitionProbability Math_exp wp1 wp2 architecture
  = Some p ->
  _computeTransitionProbability Math_exp wp1 wp2 architecture = p.
Proof.
  unfold Outcome._computeTransitionProbability,
         _computeTransitionProbability.
  destruct (Outcome._isValid wp2 architecture) as [valid|] eqn:E; [|done].
  rewrite (outcome_isValid _ _ E). by intros [= <-].
Qed.

(** The probability computation throws exactly when the check of the
    second waypoint does. *)
Lemma outcome_computeTransitionProbability_returns wp1 wp2 :
  is_Some (Outcome._computeTransitionProbability Math_exp wp1 wp2
             architecture)
  <-> is_Some (Outcome._isValid wp2 architecture).
Proof.
  unfold Outcome._computeTransitionProbability.
  destruct (Outcome._isValid wp2 architecture); [|done].
  split; intros _; by eexists.
Qed.

Lemma outcome_plan_loop_cons wp1 wp2 rest total prob :
  Outcome.plan_loop Math_exp this architecture (wp1 :: wp2 :: rest)
    total prob
  = match (if collisionCheckEnabled this
           then negb <$> Outcome._isValid wp1 architecture
           else Some false) with
    | Some true => Some (false, total, prob)
    | Some false =>
        let total' := total + _computeTransitionCost wp1 wp2 architecture in
        match Outcome._computeTransitionProbability Math_exp wp1 wp2
                architecture with
        | Some transitionProb =>
            let prob' := prob * transitionProb in
            if gtb total' (maxTransitionCost this)
            then Some (false, total', prob')
            else Outcome.plan_loop Math_exp this architecture (wp2 :: rest)
                   total' prob'
        | None => None
        end
    | None => None
    end.
Proof. reflexivity. Qed.

Lemma outcome_plan_loop wps total prob r :
  Outcome.plan_loop Math_exp this architecture wps total prob = Some r ->
  plan_loop Math_exp this architecture wps total prob = r.
Proof.
  revert total prob.
  induction wps as [|wp1 [|wp2 rest] IH]; intros total prob;
    try (by intros [= <-]).
  rewrite outcome_plan_loop_cons, plan_loop_cons.
  destruct (collisionCheckEnabled this); simpl.
  - destruct (Outcome._isValid wp1 architecture) as [valid|] eqn:E; [|done].
    rewrite (outcome_isValid _ _ E). simpl.
    destruct valid; simpl; [|by intros [= <-]].
    destruct (Outcome._computeTransitionProbability _ _ _ _) as [p|] eqn:Ep;
      [|done].
    rewrite (outcome_computeTransitionProbability _ _ _ Ep).
    destruct (gtb _ _); [by intros [= <-]|]. apply IH.
  - destruct (Outcome._computeTransitionProbability _ _ _ _) as [p|] eqn:Ep;
      [|done].
    rewrite (outcome_computeTransitionProbability _ _ _ Ep).
    destruct (gtb _ _); [by intros [= <-]|]. apply IH.
Qed.

Lemma outcome_plan_unfold configA configB w :
  (Outcome.plan Math_exp this configA configB architecture w).1
  = let wps := (_interpolate this configA configB w).1 in
    match Outcome.plan_loop Math_exp this architecture wps 0 1 with
    | Some r => Resolved {| waypoints := if r.1.1 then wps else [];
                            cost := r.1.2;
                            probability := r.2;
                            isValid := r.1.1;
                            numSteps := length wps |}
    | None => Rejected_TypeError
    end.
Proof.
  unfold Outcome.plan, bind.
  destruct (_interpolate _ _ _ _) as [wps w'].
  simpl. by destruct (Outcome.plan_loop _ _ _ _ _ _) as [[[v c] p]|].
Qed.

(** A promise that resolves resolves to the result of [plan]. *)
Lemma outcome_plan configA configB w result :
  (Outcome.plan Math_exp this configA configB architecture w).1
  = Resolved result ->
  await (plan Math_exp this configA configB architecture w).1 = result.
Proof.
  rewrite outcome_plan_unfold, plan_unfold. cbv zeta.
  destruct (Outcome.plan_loop _ _ _ _ _ _) as [r|] eqn:E; [|done].
  rewrite (outcome_plan_loop _ _ _ _ E). by intros [= <-].
Qed.

End OutcomeAgreement.

(** ** The local planner: blended layer sequences *)

Section SequenceProperties.
Import LocalPlanner.

Lemma includes_spec (l : list string) (x : string) :
  includes l x = true <-> x ∈ l.
Proof.
  unfold includes. rewrite existsb_exists. setoid_rewrite String.eqb_eq.
  rewrite list_elem_of_In. split.
  - by intros (y & Hy & <-).
  - intros Hx. by exists x.
Qed.

Lemma includes_false (l : list string) (x : string) :
  includes l x = false <-> x ∉ l.
Proof.
  rewrite <- includes_spec. by destruct (includes l x).
Qed.

Lemma push_new_NoDup hybrid x : NoDup hybrid -> NoDup (push_new hybrid x).
Proof.
  intros H. unfold push_new. destruct (includes hybrid x) eqn:E; [done|].
  apply includes_false in E. apply NoDup_app. split; [done|].
  split; [|apply NoDup_singleton].
  intros y Hy Hx. apply list_elem_of_singleton in Hx. by subst.
Qed.

Lemma blend_step_NoDup seqA seqB t i hybrid w :
  NoDup hybrid -> NoDup (blend_step seqA seqB t i hybrid w).1.
Proof.
  intros H. unfold blend_step, bind, ret, Math_random.
  destruct (seqA !! i), (seqB !! i); simpl;
    repeat (destruct (gtb _ _)); auto using push_new_NoDup.
Qed.

Lemma blend_loop_NoDup seqA seqB t n i hybrid w :
  NoDup hybrid -> NoDup (blend_loop seqA seqB t n i hybrid w).1.
Proof.
  revert i hybrid w. induction n as [|n IH]; intros i hybrid w H; [done|].
  simpl. unfold bind.
  pose proof (blend_step_NoDup seqA seqB t i hybrid w H) as Hstep.
  destruct (blend_step _ _ _ _ _ _) as [hybrid' w']. by apply IH.
Qed.

(** C10. Strictly between the two ends ([0 < t < 1]) and whatever
    [Math.random] returns, the blended sequence contains ['Input'] and
    ['Output'] and no token twice; so a waypoint that carries it can be
    invalid only through a layer dependency or a constraint bound. *)
Theorem blended_sequence_has_input_output_no_duplicates
    (seqA seqB : list string) (t : float) (w : World) :
  (0 <? t) = true -> (t <? 1) = true ->
  let hybrid := (_interpolateSequence seqA seqB t w).1 in
  includes hybrid "Input" = true
  /\ includes hybrid "Output" = true
  /\ NoDup hybrid
  /\ forall (config : Config) (architecture : Architecture),
       layerSequence config = hybrid ->
       _isValid config architecture = false ->
       forallb (hasRequiredDeps hybrid architecture)
               (seq 1 (length hybrid - 1)) = false
       \/ gtb (ToNumber (tokenCost config))
              (ToNumber (constraint maxTokens architecture)) = true
       \/ (confidenceThreshold config
           <? ToNumber (constraint minConfidence architecture)) = true.
Proof.
  intros H0 H1 hybrid.
  assert (includes hybrid "Input" = true /\ includes hybrid "Output" = true
          /\ NoDup hybrid) as (Hin & Hout & Hnd).
  { subst hybrid. unfold _interpolateSequence.
    rewrite (zero_ltb_eqb_false t H0), (ltb_eqb_false t 1 H1).
    unfold bind, ret.
    pose proof (blend_loop_NoDup seqA seqB t
                  (length seqA `max` length seqB) 0 [] w (NoDup_nil_2))
      as Hnd.
    destruct (blend_loop _ _ _ _ _ _ _) as [h w']. simpl in *.
    set (h1 := if includes h "Input" then h else "Input"%string :: h).
    assert (includes h1 "Input" = true /\ NoDup h1) as [Hin1 Hnd1].
    { subst h1. destruct (includes h "Input") eqn:E; [done|].
      split; [apply includes_spec; set_solver|].
      apply includes_false in E. by apply NoDup_cons. }
    destruct (includes h1 "Output") eqn:E; [done|].
    apply includes_false in E.
    split; [apply includes_spec; apply includes_spec in Hin1; set_solver|].
    split; [apply includes_spec; set_solver|].
    apply NoDup_app. split; [done|]. split; [|apply NoDup_singleton].
    intros y Hy Hx. apply list_elem_of_singleton in Hx. by subst. }
  repeat split; try done. clear H0 H1.
  intros config architecture Hseq. unfold _isValid, _isLayerSequenceValid.
  rewrite Hseq, Hin, Hout. simpl.
  destruct (forallb _ _); simpl; [|auto].
  destruct (gtb (ToNumber (tokenCost config)) _); [auto|].
  destruct (confidenceThreshold config <? _); [auto|done].
Qed.

End SequenceProperties.

(** ** The local planner: validity, shortcutting, probabilities *)

Section ValidityProperties.
Import LocalPlanner.

(** C7. When [constraints] has no [maxTokens], the token-cost test of
    [_isValid] never fails, whatever the token cost, and validity is
    decided by the layer sequence and the confidence bound alone;
    likewise when it has no [minConfidence].  An absent bound is not a
    bound of zero. *)
Theorem absent_constraint_never_fails (config : Config)
    (architecture : Architecture) :
  (constraint maxTokens architecture = None ->
   gtb (ToNumber (tokenCost config))
       (ToNumber (constraint maxTokens architecture)) = false
   /\ _isValid config architecture
      = _isLayerSequenceValid (layerSequence config) architecture
        && negb (confidenceThreshold config
                 <? ToNumber (constraint minConfidence architecture)))
  /\ (constraint minConfidence architecture = None ->
      (confidenceThreshold config
       <? ToNumber (constraint minConfidence architecture)) = false
      /\ _isValid config architecture
         = _isLayerSequenceValid (layerSequence config) architecture
           && negb (gtb (ToNumber (tokenCost config))
                        (ToNumber (constraint maxTokens architecture)))).
Proof.
  split; intros H; unfold _isValid; rewrite H; simpl ToNumber; unfold gtb.
  - rewrite ltb_nan_l. split; [done|].
    destruct (_isLayerSequenceValid _ _); simpl; [|done].
    by destruct (_ <? _).
  - rewrite ltb_nan_r. split; [done|].
    destruct (_isLayerSequenceValid _ _); simpl; [|done].
    by destruct (_ <? _).
Qed.

End ValidityProperties.

Section ShortcutProperties.
Import LocalPlanner.

Variable Math_exp : float -> float.
Variable this : Options.
Variable architecture : Architecture.

(** No candidate is ever accepted: the test reads [isValid] from the
    promise, which is [undefined]. *)
Lemma shortcut_scan_falls_back waypoints first current k w :
  (shortcut_scan Math_exp this waypoints first architecture current k w).1
  = (current + 1)%nat.
Proof.
  revert w. induction k as [|k IH]; intros w; [done|].
  simpl. unfold bind.
  destruct (plan _ _ _ _ _ _) as [result w']. simpl. apply IH.
Qed.

Lemma optimize_loop_copies waypoints first fuel current optimized w :
  (current < length waypoints)%nat ->
  (length waypoints - 1 <= fuel + current)%nat ->
  optimized = take (S current) waypoints ->
  (optimize_loop Math_exp this waypoints first architecture fuel current
                 optimized w).1 = waypoints.
Proof.
  revert current optimized w.
  induction fuel as [|fuel IH]; intros current optimized w Hcur Hfuel ->.
  - simpl. apply take_ge. lia.
  - simpl. destruct (current <? length waypoints - 1)%nat eqn:E.
    + apply Nat.ltb_lt in E. unfold bind.
      pose proof (shortcut_scan_falls_back waypoints first current
                    (length waypoints - 1 - (current + 1)) w) as Hscan.
      destruct (shortcut_scan _ _ _ _ _ _ _ _) as [farthest w'].
      simpl in Hscan. subst farthest.
      apply IH; [lia|lia|].
      destruct (lookup_lt_is_Some_2 waypoints (current + 1)) as [x Hx];
        [lia|].
      rewrite (nth_lookup_Some _ _ _ _ Hx).
      replace (S (current + 1)) with (S (S current)) by lia.
      replace (current + 1)%nat with (S current) in Hx by lia.
      by rewrite (take_S_r _ _ _ Hx).
    + apply Nat.ltb_ge in E. simpl. apply take_ge. lia.
Qed.

(** [optimizePath] returns every waypoint of its input, in order. *)
Lemma optimizePath_keeps_every_waypoint waypoints w :
  (optimizePath Math_exp this waypoints architecture w).1 = waypoints.
Proof.
  unfold optimizePath. destruct (length waypoints <=? 2)%nat; [done|].
  destruct waypoints as [|first rest] eqn:E; [done|]. rewrite <- E.
  apply optimize_loop_copies; [rewrite E; simpl; lia|lia|].
  rewrite E. simpl. by rewrite take_0.
Qed.

End ShortcutProperties.

Section ShortcutExample.
Import LocalPlanner Examples.

(** C5, at the path [A; A; A] with the default planner: the direct plan
    from the first to the last waypoint is valid and costs 150, within
    the limit of 500, so the middle waypoint should be skipped; yet
    [optimizePath] returns all three, because the promise returned by
    [plan] is tested without being awaited. *)
Theorem optimizePath_misses_valid_shortcut (Math_exp : float -> float) :
  let w := constant_world 0.5 in
  let direct :=
    await (plan Math_exp planner configA configA architecture w).1 in
  isValid direct = true
  /\ (cost direct <? maxTransitionCost planner) = true
  /\ (optimizePath Math_exp planner [configA; configA; configA]
                   architecture w).1
     = [configA; configA; configA].
Proof.
  split; [|split].
  - rewrite plan_unfold. vm_compute. reflexivity.
  - rewrite plan_unfold. vm_compute. reflexivity.
  - apply optimizePath_keeps_every_waypoint.
Qed.

End ShortcutExample.

Section ProbabilityProperties.
Import LocalPlanner Examples.

Variable Math_exp : float -> float.

Lemma transition_probability_of_empty_sequences wp1 wp2 architecture :
  layerSequence wp1 = [] -> layerSequence wp2 = [] ->
  _computeTransitionProbability Math_exp wp1 wp2 architecture = nan.
Proof.
  intros H1 H2. unfold _computeTransitionProbability. rewrite H1, H2.
  change (_layerCompatibility [] []) with nan.
  cbv zeta. by rewrite mul_nan_r.
Qed.

(** The clamp itself does its work on every number: the result is NaN only
when the product is, and lies in [0, 1] otherwise. *)
Lemma max_step_zero (p : float) :
  max_step 0 p = if is_nan p then nan else if 0 <? p then p else 0.
Proof.
  unfold max_step. change (is_nan 0) with false.
  change (is_neg_zero 0) with false. by rewrite andb_false_r.
Qed.

Lemma min_step_one (m : float) :
  min_step 1 m = if is_nan m then nan else if m <? 1 then m else 1.
Proof.
  unfold min_step. change (is_nan 1) with false.
  change (is_pos_zero 1) with false. by rewrite andb_false_r.
Qed.

Lemma clamp_nan_or_unit (p : float) :
  let r := Math_min [1; Math_max [0; p]] in
  (is_nan p = true /\ r = nan)
  \/ (is_nan p = false /\ (0 <=? r) = true /\ (r <=? 1) = true).
Proof.
  cbv zeta. unfold Math_min, Math_max. cbn [fold_left].
  change (max_step neg_infinity 0) with 0.
  change (min_step infinity 1) with 1.
  rewrite max_step_zero, min_step_one.
  destruct (is_nan p) eqn:Hp; [by left|right].
  split; [done|].
  destruct (0 <? p) eqn:H0.
  - rewrite Hp. destruct (p <? 1) eqn:H1; [|done].
    split; by apply ltb_leb.
  - done.
Qed.

Lemma transition_probability_nan_or_unit wp1 wp2 architecture :
  let p := _computeTransitionProbability Math_exp wp1 wp2 architecture in
  p = nan \/ ((0 <=? p) = true /\ (p <=? 1) = true).
Proof.
  cbv zeta. unfold _computeTransitionProbability. cbv zeta.
  match goal with
  | |- context [Math_max [0; ?q]] =>
      destruct (clamp_nan_or_unit q) as [[_ ->]|(_ & H0 & H1)]; auto
  end.
Qed.

Lemma mul_nan_l (x : float) : nan * x = nan.
Proof.
  apply Prim2SF_inj. rewrite FloatAxioms.mul_spec.
  by destruct (Prim2SF x).
Qed.

Lemma mul_nan_or_unit (p q : float) :
  p = nan \/ ((0 <=? p) = true /\ (p <=? 1) = true) ->
  q = nan \/ ((0 <=? q) = true /\ (q <=? 1) = true) ->
  p * q = nan \/ ((0 <=? p * q) = true /\ (p * q <=? 1) = true).
Proof.
  intros [->|[Hp0 Hp1]] [->|[Hq0 Hq1]].
  - left. apply mul_nan_r.
  - left. apply mul_nan_l.
  - left. apply mul_nan_r.
  - right. by apply mul_unit.
Qed.

Lemma plan_loop_probability this architecture wps total prob :
  prob = nan \/ ((0 <=? prob) = true /\ (prob <=? 1) = true) ->
  let p := (plan_loop Math_exp this architecture wps total prob).2 in
  p = nan \/ ((0 <=? p) = true /\ (p <=? 1) = true).
Proof.
  revert total prob.
  induction wps as [|wp1 [|wp2 rest] IH]; intros total prob Hprob; try done.
  cbv zeta. rewrite plan_loop_cons.
  destruct (_ && _); [done|]. cbv zeta.
  pose proof (mul_nan_or_unit prob _ Hprob
                (transition_probability_nan_or_unit wp1 wp2 architecture))
    as Hnext.
  destruct (gtb _ _); [done|]. by apply IH.
Qed.

(** Apart from NaN, the probability returned by [plan] is a number of
[0, 1]: the running product starts at [1] and multiplies factors of
[0, 1]. *)
Lemma plan_probability_nan_or_unit this configA configB architecture w :
  let p := probability
             (await (plan Math_exp this configA configB architecture w).1) in
  p = nan \/ ((0 <=? p) = true /\ (p <=? 1) = true).
Proof.
  cbv zeta. rewrite plan_unfold. cbv zeta. simpl probability.
  apply plan_loop_probability. by right.
Qed.

(** C6, at two waypoints without layers: the Jaccard similarity is
    [0 / 0], the product is NaN, and NaN passes through [Math.max] and
    [Math.min]: the transition probability is NaN, not a number of
    [0, 1]; and [plan], run without the collision check over one step
    between two such configurations, returns NaN as [probability]. *)
Theorem transition_probability_can_be_nan :
  let p := _computeTransitionProbability Math_exp configE configE
             unconstrained in
  let result :=
    await (plan Math_exp unchecked_planner configE configE unconstrained
                (constant_world 0.5)).1 in
  p = nan
  /\ ((0 <=? p) && (p <=? 1)) = false
  /\ probability result = nan
  /\ ((0 <=? probability result) && (probability result <=? 1)) = false.
Proof.
  assert (_computeTransitionProbability Math_exp configE configE
            unconstrained = nan) as Hp
    by by apply transition_probability_of_empty_sequences.
  cbv zeta. rewrite Hp. split; [done|]. split; [done|].
  rewrite plan_unfold. cbv zeta. simpl.
  rewrite transition_probability_of_empty_sequences by done. done.
Qed.

End ProbabilityProperties.

(** ** The local planner: interpolated fields *)

Section InterpolationProperties.
Import LocalPlanner PlanSpec.

Variable Math_exp : float -> float.
Variable this : Options.

Lemma interpolated_fields configA configB i w :
  interpolated_at configA configB
    (of_nat i / of_nat (interpolationSteps this))
    (interpolated this configA configB i w).1.
Proof.
  unfold interpolated, bind, ret, Date_now.
  destruct (_interpolateSequence _ _ _ _) as [s w']. by repeat split.
Qed.

Lemma interpolate_loop_lookup configA configB n i0 w j wp :
  (interpolate_loop this configA configB n i0 w).1 !! j = Some wp ->
  interpolated_at configA configB
    (of_nat (i0 + j) / of_nat (interpolationSteps this)) wp.
Proof.
  revert i0 w j. induction n as [|n IH]; intros i0 w j; [done|].
  simpl. unfold bind, ret.
  pose proof (interpolated_fields configA configB i0 w) as Hwp.
  destruct (interpolated _ _ _ _ _) as [wp0 w1].
  specialize (IH (S i0) w1).
  destruct (interpolate_loop _ _ _ _ _ _) as [rest w2]. simpl in *.
  destruct j as [|j]; simpl.
  - intros [= <-]. by rewrite Nat.add_0_r.
  - intros Hj. replace (i0 + S j)%nat with (S i0 + j)%nat by lia.
    by apply IH.
Qed.

Lemma or_default_of_nat (n : nat) :
  (Z.of_nat n < 2 ^ 32)%Z -> or_default (Some (of_nat n)) 0 = of_nat n.
Proof.
  intros Hmax. destruct n as [|n]; [reflexivity|].
  destruct (of_nat_finite (S n)) as (m & e & H); [lia|done|].
  unfold or_default, truthy, PrimFloat.is_zero.
  assert (is_nan (of_nat (S n)) = false) as ->
    by (apply is_nan_false; by rewrite H).
  rewrite FloatAxioms.eqb_spec, H. reflexivity.
Qed.

(** C3, as the program has it.  [plan] interpolates
    [interpolationSteps + 1] waypoints; the waypoint of index [i] is
    built at [t = i / interpolationSteps] and has the confidence
    threshold [a * (1 - t) + b * t], and both the parallelization
    factor and the token cost interpolated in the same way and then
    rounded to the nearest integer.  From a configuration to itself
    with five steps, there are six waypoints, and each has the
    parallelization factor of the configuration, when that is an
    integer from [0] to [2 ^ 32 - 1], and its token cost, when that is
    such an integer, or [0] when it has none. *)
Theorem plan_interpolates_scalar_fields (configA configB : Config)
    (architecture : Architecture) (w : World) :
  let wps := (_interpolate this configA configB w).1 in
  let result := await (plan Math_exp this configA configB architecture w).1 in
  let self := (_interpolate this configA configA w).1 in
  numSteps result = S (interpolationSteps this)
  /\ length wps = S (interpolationSteps this)
  /\ (isValid result = true -> waypoints result = wps)
  /\ (forall i wp, wps !! i = Some wp ->
        interpolated_at configA configB
          (of_nat i / of_nat (interpolationSteps this)) wp)
  /\ (interpolationSteps this = 5%nat ->
      length self = 6%nat
      /\ forall wp, wp ∈ self ->
           (forall n, (Z.of_nat n < 2 ^ 32)%Z ->
              parallelizationFactor configA = of_nat n ->
              parallelizationFactor wp = parallelizationFactor configA)
           /\ (forall n, (Z.of_nat n < 2 ^ 32)%Z ->
                 tokenCost configA = Some (of_nat n) ->
                 tokenCost wp = tokenCost configA)
           /\ (tokenCost configA = None -> tokenCost wp = Some 0)).
Proof.
  intros wps result self. subst result. rewrite plan_unfold. fold wps.
  cbv zeta. simpl.
  pose proof (interpolate_length this configA configB w) as Hlen.
  fold wps in Hlen.
  split; [done|]. split; [done|]. split; [by intros ->|]. split.
  - intros i wp Hi.
    apply (interpolate_loop_lookup configA configB
             (S (interpolationSteps this)) 0 w i wp Hi).
  - intros H5.
    pose proof (interpolate_length this configA configA w) as HlenA.
    fold self in HlenA. rewrite H5 in HlenA. split; [done|].
    intros wp (i & Hi)%list_elem_of_lookup.
    assert (i <= 5)%nat as Hi5
      by (apply lookup_lt_Some in Hi; lia).
    destruct (interpolate_loop_lookup configA configA
                (S (interpolationSteps this)) 0 w i wp Hi)
      as (_ & Hpar & Htok & _).
    rewrite H5 in Hpar, Htok. simpl Nat.add in Hpar, Htok.
    split; [|split].
    + intros n Hmax Hn. rewrite Hpar, Hn.
      by apply round_self_interpolation.
    + intros n Hmax Hn. rewrite Htok, Hn, or_default_of_nat by done.
      f_equal. by apply round_self_interpolation.
    + intros Hnone. rewrite Htok, Hnone. f_equal.
      apply (round_self_interpolation 0 i); [done|lia].
Qed.

End InterpolationProperties.

(** ** [Array.prototype.sort] *)

Section SortFacts.
Context {A : Type} (comparefn : A -> A -> float).

Lemma sort_insert_perm x l : sort_insert comparefn x l ≡ₚ x :: l.
Proof.
  induction l as [|y l IH]; simpl; [done|].
  destruct (0 <? SortCompare comparefn x y); [|done].
  rewrite IH. apply Permutation_swap.
Qed.

Lemma Array_sort_perm l : Array_sort comparefn l ≡ₚ l.
Proof.
  induction l as [|x l IH]; simpl; [done|].
  by rewrite sort_insert_perm, IH.
Qed.

Lemma Array_sort_length l : length (Array_sort comparefn l) = length l.
Proof. by rewrite Array_sort_perm. Qed.

End SortFacts.

(** Sorting by a score in descending order, as the ranker does. *)

Section SortByScore.
Context {A : Type} (score : A -> float).

Let comparefn (a b : A) : float := score b - score a.

Let descending (a b : A) : Prop := (score b <=? score a) = true.

Lemma is_nan_eq (v : float) : is_nan v = true -> v = nan.
Proof.
  intros H%is_nan_true. apply Prim2SF_inj. by rewrite H.
Qed.

(** An element moves behind another exactly when its score is lower. *)
Lemma sort_decision a b :
  is_nan (score a) = false -> is_nan (score b) = false ->
  (0 <? SortCompare comparefn a b) = (score a <? score b).
Proof.
  intros Ha Hb. rewrite <- (sub_pos _ _ Ha Hb).
  unfold SortCompare, comparefn.
  destruct (is_nan (score b - score a)) eqn:E; [|done].
  rewrite (is_nan_eq _ E). by rewrite ltb_nan_r.
Qed.

Lemma sort_insert_sorted x l :
  is_nan (score x) = false ->
  Forall (fun a => is_nan (score a) = false) l ->
  StronglySorted descending l ->
  StronglySorted descending (sort_insert comparefn x l).
Proof.
  intros Hx Hl Hs. induction Hs as [|y l Hs IH Hy]; simpl.
  - by repeat constructor.
  - apply Forall_cons in Hl as [Hny Hl].
    rewrite sort_decision by done.
    destruct (score x <? score y) eqn:E.
    + constructor; [by apply IH|].
      rewrite sort_insert_perm. constructor; [|done].
      by apply ltb_leb.
    + assert (descending x y) as Hxy by by apply leb_total.
      constructor; [by constructor|].
      constructor; [done|].
      rewrite Forall_forall in Hy, Hl |- *. intros z Hz.
      apply (leb_trans (score z) (score y) (score x));
        [by apply Hl|done|done|by apply Hy|done].
Qed.

Lemma Array_sort_sorted l :
  Forall (fun a => is_nan (score a) = false) l ->
  StronglySorted descending (Array_sort comparefn l).
Proof.
  induction 1 as [|x l Hx Hl IH]; simpl; [constructor|].
  apply sort_insert_sorted; [done| |done].
  by rewrite Array_sort_perm.
Qed.

(** Elements of equal score keep their order. *)
Lemma sort_insert_stable s x l :
  List.filter (fun a => score a =? s) (sort_insert comparefn x l)
  = List.filter (fun a => score a =? s) (x :: l).
Proof.
  induction l as [|y l IH]; [done|].
  cbn [sort_insert].
  destruct (0 <? SortCompare comparefn x y) eqn:E; [|done].
  cbn [List.filter] in *. rewrite IH.
  destruct (score x =? s) eqn:Ex, (score y =? s) eqn:Ey; try done.
  apply eqb_key in Ex as (Hx & Hs & Hkx).
  apply eqb_key in Ey as (Hy & _ & Hky).
  rewrite sort_decision in E by done.
  rewrite (ltb_same_key _ _ s s) in E by done.
  by rewrite ltb_irrefl in E.
Qed.

Lemma Array_sort_stable s l :
  List.filter (fun a => score a =? s) (Array_sort comparefn l)
  = List.filter (fun a => score a =? s) l.
Proof.
  induction l as [|x l IH]; [done|].
  simpl Array_sort. rewrite sort_insert_stable.
  cbn [List.filter]. by rewrite IH.
Qed.

End SortByScore.

(** ** The path ranker: normalization *)

Section NormalizationProperties.
Import PathRanker.

Variable this : Options.

(** Entries of a ranking are entries built by [ranked_entry], up to the
    rank. *)
Lemma rank_entry paths ow r :
  r ∈ rank this paths ow ->
  exists pathData,
    pathData ∈ paths
    /\ RankedPath.metrics r
       = RankedPath.metrics
           (ranked_entry paths (default (weights this) ow) pathData)
    /\ RankedPath.path r = PathData.path pathData.
Proof.
  unfold rank. intros (i & x & -> & Hx)%elem_of_lookup_imap.
  apply list_elem_of_lookup_2 in Hx.
  rewrite Array_sort_perm in Hx.
  apply list_elem_of_fmap in Hx as (pathData & -> & Hp).
  by exists pathData.
Qed.

Lemma truthy_not_nan v : truthy v = true -> is_nan v = false.
Proof.
  unfold truthy. destruct (is_nan v); [|done].
  by rewrite orb_true_r.
Qed.

Lemma truthy_not_zero v : truthy v = true -> PrimFloat.is_zero v = false.
Proof. unfold truthy. by destruct (PrimFloat.is_zero v). Qed.

Lemma min_step_same v : truthy v = true -> min_step v v = v.
Proof.
  intros Hv. unfold min_step, is_neg_zero.
  by rewrite (truthy_not_nan v Hv), (truthy_not_zero v Hv), ltb_irrefl.
Qed.

Lemma max_step_same v : truthy v = true -> max_step v v = v.
Proof.
  intros Hv. unfold max_step, is_pos_zero.
  by rewrite (truthy_not_nan v Hv), (truthy_not_zero v Hv), ltb_irrefl.
Qed.

Lemma min_step_first v : truthy v = true -> min_step infinity v = v.
Proof.
  intros Hv. unfold min_step, is_neg_zero.
  rewrite (truthy_not_nan v Hv), (truthy_not_zero v Hv).
  change (is_nan infinity) with false. simpl.
  destruct (below_infinity v (truthy_not_nan v Hv)) as [->| ->]; done.
Qed.

Lemma max_step_first v : truthy v = true -> max_step neg_infinity v = v.
Proof.
  intros Hv. unfold max_step, is_pos_zero.
  rewrite (truthy_not_nan v Hv), (truthy_not_zero v Hv).
  change (is_nan neg_infinity) with false. simpl.
  destruct (above_neg_infinity v (truthy_not_nan v Hv)) as [->| ->]; done.
Qed.

Lemma fold_min_same v l :
  truthy v = true -> Forall (eq v) l -> fold_left min_step l v = v.
Proof.
  intros Hv. induction 1 as [|x l <- _ IH]; [done|].
  simpl. by rewrite min_step_same.
Qed.

Lemma fold_max_same v l :
  truthy v = true -> Forall (eq v) l -> fold_left max_step l v = v.
Proof.
  intros Hv. induction 1 as [|x l <- _ IH]; [done|].
  simpl. by rewrite max_step_same.
Qed.

(** [Math.min] and [Math.max] of a non-empty list of copies of [v]. *)
Lemma Math_min_same v l :
  truthy v = true -> l <> [] -> Forall (eq v) l -> Math_min l = v.
Proof.
  intros Hv Hne Hall. destruct Hall as [|x l <- Hall]; [done|].
  unfold Math_min. simpl. rewrite min_step_first by done.
  by apply fold_min_same.
Qed.

Lemma Math_max_same v l :
  truthy v = true -> l <> [] -> Forall (eq v) l -> Math_max l = v.
Proof.
  intros Hv Hne Hall. destruct Hall as [|x l <- Hall]; [done|].
  unfold Math_max. simpl. rewrite max_step_first by done.
  by apply fold_max_same.
Qed.

(** X21. When every path has the same [totalCost] and that value is
    a number other than zero, every ranked path has the normalized
    cost [0.5]: minimum and maximum coincide and [_normalize] takes
    its branch [max === min]. *)
Theorem equal_nonzero_costs_normalize_to_half
    (paths : list PathData.t) (options_weights : option Weights.t)
    (v : float) :
  truthy v = true ->
  (forall p, p ∈ paths -> Metrics.totalCost (PathData.metrics p) = Some v) ->
  forall r, r ∈ rank this paths options_weights ->
    Normalized.cost (RankedMetrics.normalized (RankedPath.metrics r)) = 0.5.
Proof.
  intros Hv Hall r (pathData & Hp & -> & _)%rank_entry.
  simpl. rewrite (Hall _ Hp). simpl. rewrite Hv.
  assert (paths <> []) as Hne by (intros ->; by apply elem_of_nil in Hp).
  assert (forall d, Forall (eq v)
            (map (fun m => or_default (Metrics.totalCost m) d)
                 (map PathData.metrics paths))) as Hcopies.
  { intros d. rewrite Forall_forall. intros x Hx.
    apply list_elem_of_fmap in Hx as (m & -> & Hm).
    apply list_elem_of_fmap in Hm as (p & -> & Hin).
    rewrite (Hall _ Hin). simpl. by rewrite Hv. }
  assert (forall d, map (fun m => or_default (Metrics.totalCost m) d)
                        (map PathData.metrics paths) <> []) as Hne'
    by (intros d; by destruct paths).
  rewrite (Math_min_same v), (Math_max_same v) by done.
  unfold _normalize. by rewrite eqb_refl by by apply truthy_not_nan.
Qed.

End NormalizationProperties.

(** ** The path ranker: [rank] *)

Section RankingProperties.
Import PathRanker.

Variable this : Options.

Lemma rank_unfold paths ow :
  rank this paths ow
  = imap (fun idx item => RankedPath.with_rank (idx + 1) item)
      (Array_sort by_score
         (map (ranked_entry paths (default (weights this) ow)) paths)).
Proof. reflexivity. Qed.

Lemma StronglySorted_imap {A B} (R : relation A) (R' : relation B)
    (f : nat -> A -> B) (l : list A) :
  (forall i j x y, R x y -> R' (f i x) (f j y)) ->
  StronglySorted R l -> StronglySorted R' (imap f l).
Proof.
  intros Hf Hs. revert f Hf.
  induction Hs as [|x l Hs IH Hx]; intros f Hf; simpl; constructor.
  - apply IH. intros i j a b. apply Hf.
  - apply Forall_forall.
    intros y (i & a & -> & Ha)%elem_of_lookup_imap.
    apply Hf. apply (proj1 (Forall_forall _ _) Hx).
    by apply list_elem_of_lookup_2 in Ha.
Qed.

Lemma unrank_sorted paths ow :
  map (RankedPath.with_rank 0) (rank this paths ow)
  = Array_sort by_score
      (map (ranked_entry paths (default (weights this) ow)) paths).
Proof.
  rewrite rank_unfold.
  set (entries := map _ paths).
  change (map (RankedPath.with_rank 0)) with (fmap (M:=list) (RankedPath.with_rank 0)).
  rewrite fmap_imap.
  rewrite (imap_ext _ (const (RankedPath.with_rank 0))) by done.
  rewrite imap_const.
  assert (Forall (fun e => RankedPath.with_rank 0 e = e)
            (Array_sort by_score entries)) as Hall.
  { rewrite Array_sort_perm. subst entries. rewrite Forall_forall.
    by intros e (p & -> & _)%list_elem_of_fmap. }
  induction Hall as [|e l He _ IH]; [done|].
  rewrite fmap_cons. by rewrite He, IH.
Qed.

(** C2, as the program has it.  [rank] returns as many entries as
    there are paths; their [rank] fields are [1, 2, ..., N] in this
    order; without the ranks they are the entries built for the paths,
    in some order; and whenever the composite scores are numbers (none
    is NaN), the entries are in non-increasing order of
    [compositeScore] and entries of equal score keep the order of the
    input. *)
Theorem rank_sorts_descending_and_stably (paths : list PathData.t)
    (options_weights : option Weights.t) :
  let entries :=
    map (ranked_entry paths (default (weights this) options_weights)) paths in
  let ranked := rank this paths options_weights in
  length ranked = length paths
  /\ map RankedPath.rank ranked = seq 1 (length paths)
  /\ map (RankedPath.with_rank 0) ranked ≡ₚ entries
  /\ (Forall (fun e => is_nan (RankedPath.compositeScore e) = false) entries ->
      StronglySorted
        (fun a b => (RankedPath.compositeScore b
                     <=? RankedPath.compositeScore a) = true) ranked
      /\ forall s,
           List.filter (fun r => RankedPath.compositeScore r =? s)
                       (map (RankedPath.with_rank 0) ranked)
           = List.filter (fun r => RankedPath.compositeScore r =? s)
                         entries).
Proof.
  intros entries ranked.
  assert (length ranked = length paths) as Hlen.
  { subst ranked. rewrite rank_unfold, length_imap, Array_sort_length.
    apply length_map. }
  split; [done|]. split; [|split].
  - rewrite <- Hlen. subst ranked. rewrite rank_unfold.
    set (sorted := Array_sort _ _).
    change (map RankedPath.rank) with (fmap (M:=list) RankedPath.rank).
    rewrite fmap_imap, length_imap.
    rewrite (imap_ext _ (fun j _ => S j)) by (intros; simpl; lia).
    by rewrite imap_seq_0, fmap_S_seq.
  - subst ranked. rewrite unrank_sorted. apply Array_sort_perm.
  - intros Hnan. split.
    + subst ranked. rewrite rank_unfold.
      apply (StronglySorted_imap
               (fun a b => (RankedPath.compositeScore b
                            <=? RankedPath.compositeScore a) = true)).
      * by intros i j x y.
      * by apply (Array_sort_sorted RankedPath.compositeScore).
    + intros s. subst ranked. rewrite unrank_sorted.
      apply (Array_sort_stable RankedPath.compositeScore).
Qed.

(** With a NaN among at least two scores, no arrangement is in
    non-increasing order: NaN compares false with every number. *)
Lemma sorted_scores_are_numbers (l : list RankedPath.t) :
  (2 <= length l)%nat ->
  StronglySorted
    (fun a b => (RankedPath.compositeScore b
                 <=? RankedPath.compositeScore a) = true) l ->
  Forall (fun e => is_nan (RankedPath.compositeScore e) = false) l.
Proof.
  intros Hlen Hs. destruct Hs as [|x l Hs Hx]; [simpl in Hlen; lia|].
  destruct l as [|y l]; [simpl in Hlen; lia|].
  assert (is_nan (RankedPath.compositeScore x) = false) as Hnx.
  { apply Forall_cons in Hx as [Hy _].
    by destruct (leb_not_nan _ _ Hy). }
  constructor; [done|].
  apply (Forall_impl _ _ _ Hx). intros z Hz.
  by destruct (leb_not_nan _ _ Hz).
Qed.

End RankingProperties.

(** ** The path ranker: sensitivity analysis *)

Section SensitivityProperties.
Import PathRanker RankSpec.

Variable this : Options.

(** The paths of a ranking are the paths of the input, in some order. *)
Lemma rank_paths paths ow :
  map RankedPath.path (rank this paths ow) ≡ₚ map PathData.path paths.
Proof.
  transitivity (map RankedPath.path
                  (map (RankedPath.with_rank 0) (rank this paths ow))).
  { rewrite map_map. done. }
  rewrite unrank_sorted, Array_sort_perm, map_map. done.
Qed.

Lemma find_same_object (R : list RankedPath.t) (b : RankedPath.t) :
  NoDup (map RankedPath.path R) -> b ∈ R ->
  List.find (fun v => same_object (RankedPath.path v) (RankedPath.path b)) R
  = Some b.
Proof.
  induction R as [|x R IH]; intros Hnd Hb; [by apply elem_of_nil in Hb|].
  simpl in Hnd. apply NoDup_cons in Hnd as [Hx Hnd].
  simpl. unfold same_object at 1.
  destruct (Nat.eqb_spec (RankedPath.path x) (RankedPath.path b)) as [E|E].
  - apply elem_of_cons in Hb as [->|Hb]; [done|].
    exfalso. apply Hx. rewrite E.
    change (map RankedPath.path R) with (RankedPath.path <$> R).
    by apply list_elem_of_fmap_2.
  - apply elem_of_cons in Hb as [->|Hb]; [done|]. by apply IH.
Qed.

Lemma find_some_object (R : list RankedPath.t) (p : ref) :
  p ∈ map RankedPath.path R ->
  is_Some (List.find (fun v => same_object (RankedPath.path v) p) R).
Proof.
  induction R as [|x R IH]; simpl; [by intros ?%elem_of_nil|].
  intros Hp. unfold same_object at 1.
  destruct (Nat.eqb_spec (RankedPath.path x) p) as [E|E]; [done|].
  apply elem_of_cons in Hp as [->|Hp]; [done|]. by apply IH.
Qed.

(** [sensitivityAnalysis] never throws: every path of the base ranking
    is found in each varied ranking. *)
Lemma rank_change_found paths ow ow' b :
  b ∈ rank this paths ow ->
  is_Some (rank_change (rank this paths ow') b).
Proof.
  intros Hb. unfold rank_change.
  destruct (find_some_object (rank this paths ow') (RankedPath.path b))
    as [v ->]; [|done].
  rewrite rank_paths, <- (rank_paths paths ow).
  change (map RankedPath.path (rank this paths ow))
    with (RankedPath.path <$> rank this paths ow).
  by apply list_elem_of_fmap_2.
Qed.

Lemma analyse_total paths ow w :
  is_Some (analyse this paths (rank this paths ow) w).
Proof.
  unfold analyse.
  destruct (mapM _ _) as [changes|] eqn:E; [done|].
  apply mapM_None in E. apply Exists_exists in E as (b & Hb & Hnone).
  destruct (rank_change_found paths ow (Some w) b Hb) as [c Hc].
  congruence.
Qed.


Lemma fold_left_maxChange (l : list Analysis) (a : float) :
  fold_left (fun sum x => sum + maxChange x) l a
  = fold_left PrimFloat.add (map maxChange l) a.
Proof.
  revert a. induction l as [|x l IH]; intros a; [done|]. simpl. apply IH.
Qed.




End SensitivityProperties.

(** ** The local planner: a plan that succeeds *)

Section PlanValidity.
Import LocalPlanner PlanSpec.

Variable Math_exp : float -> float.
Variable this : Options.
Variable architecture : Architecture.

(** A loop that ran to its end accumulated every pair. *)
Lemma plan_loop_complete wps total prob :
  (plan_loop Math_exp this architecture wps total prob).1.1 = true ->
  (plan_loop Math_exp this architecture wps total prob).1.2
  = accumulated_cost architecture wps (length wps - 1) total
  /\ (plan_loop Math_exp this architecture wps total prob).2
     = accumulated_probability Math_exp architecture wps (length wps - 1)
         prob.
Proof.
  revert total prob.
  induction wps as [|wp1 [|wp2 rest] IH]; intros total prob; try done.
  rewrite plan_loop_cons.
  destruct (collisionCheckEnabled this && negb (_isValid wp1 architecture));
    [done|].
  cbv zeta. destruct (gtb (total + _) _); [done|].
  intros Hv. destruct (IH _ _ Hv) as [Hc Hp].
  replace (length (wp1 :: wp2 :: rest) - 1)%nat
    with (S (length (wp2 :: rest) - 1)) by (simpl; lia).
  split; [exact Hc|exact Hp].
Qed.

(** The loop of [plan] runs to its end exactly when no check throws,
    every waypoint but the last is valid, if validity is checked, and
    no accumulated cost exceeds the limit. *)
Lemma outcome_plan_loop_valid wps total prob :
  (exists c p, Outcome.plan_loop Math_exp this architecture wps total prob
               = Some (true, c, p))
  <-> (collisionCheckEnabled this = true ->
       forall i wp, (S i < length wps)%nat -> wps !! i = Some wp ->
                    Outcome._isValid wp architecture = Some true)
      /\ (forall i wp, (1 <= i)%nat -> wps !! i = Some wp ->
                       is_Some (Outcome._isValid wp architecture))
      /\ (forall k, (1 <= k < length wps)%nat ->
                    gtb (accumulated_cost architecture wps k total)
                        (maxTransitionCost this) = false).
Proof.
  revert total prob.
  induction wps as [|wp1 [|wp2 rest] IH]; intros total prob.
  - split; [|by eexists _, _]. intros _.
    split; [intros _ i wp Hi; simpl in Hi; lia|].
    split; [by intros i wp _|]. intros k Hk. simpl in Hk. lia.
  - split; [|by eexists _, _]. intros _.
    split; [intros _ i wp Hi; simpl in Hi; lia|].
    split; [by intros [|[|i]] wp Hi ?; try lia|].
    intros k Hk. simpl in Hk. lia.
  - rewrite outcome_plan_loop_cons. split.
    + intros (c & p & Hrun).
      assert (collisionCheckEnabled this = true ->
              Outcome._isValid wp1 architecture = Some true) as Hfirst.
      { intros Hc. rewrite Hc in Hrun.
        by destruct (Outcome._isValid wp1 architecture) as [[]|]. }
      assert ((if collisionCheckEnabled this
               then negb <$> Outcome._isValid wp1 architecture
               else Some false) = Some false) as Hchk.
      { destruct (collisionCheckEnabled this); [|done].
        by rewrite Hfirst. }
      rewrite Hchk in Hrun. cbv zeta in Hrun.
      destruct (Outcome._computeTransitionProbability Math_exp wp1 wp2
                  architecture) as [tp|] eqn:Etp; [|done].
      assert (is_Some (Outcome._isValid wp2 architecture)) as Hsecond.
      { apply (outcome_computeTransitionProbability_returns Math_exp
                 architecture wp1 wp2). by rewrite Etp. }
      destruct (gtb (total + _) _) eqn:Hnow; [done|].
      destruct (proj1 (IH _ _) (ex_intro _ c (ex_intro _ p Hrun)))
        as (Hv & Hs & Hc).
      split; [|split].
      * intros Hcoll [|i] wp Hi Hwp.
        -- injection Hwp as <-. by apply Hfirst.
        -- apply (Hv Hcoll i); [simpl in *; lia|done].
      * intros [|[|i]] wp Hi Hwp; [lia| |].
        -- by injection Hwp as <-.
        -- apply (Hs (S i)); [lia|done].
      * intros [|[|k]] Hk; [lia|done|].
        apply (Hc (S k)). simpl in *. lia.
    + intros (Hv & Hs & Hc).
      assert ((if collisionCheckEnabled this
               then negb <$> Outcome._isValid wp1 architecture
               else Some false) = Some false) as ->.
      { destruct (collisionCheckEnabled this) eqn:Hcoll; [|done].
        rewrite (Hv eq_refl 0%nat wp1); [done|simpl; lia|done]. }
      cbv zeta.
      destruct (proj2 (outcome_computeTransitionProbability_returns
                         Math_exp architecture wp1 wp2)
                  (Hs 1%nat wp2 ltac:(lia) eq_refl)) as [tp ->].
      pose proof (Hc 1%nat ltac:(simpl; lia)) as Hc1.
      change (accumulated_cost architecture (wp1 :: wp2 :: rest) 1 total)
        with (total + _computeTransitionCost wp1 wp2 architecture) in Hc1.
      rewrite Hc1.
      apply IH. split; [|split].
      * intros Hcoll i wp Hi Hwp.
        apply (Hv Hcoll (S i)); [simpl in *; lia|done].
      * intros i wp Hi Hwp. apply (Hs (S i)); [lia|done].
      * intros k Hk. apply (Hc (S k)). simpl in *. lia.
Qed.

(** X1. [plan] returns a valid result exactly when no validity check
    throws, every waypoint but the last is valid, if the collision
    check is on, and the cost accumulated after each pair stays within
    [maxTransitionCost].  The check of every waypoint after the first
    is run, for the transition probability, and must not throw, but
    the verdict on the last waypoint is never used.  A valid result
    carries all the interpolated waypoints, the sum of the transition
    costs of all [interpolationSteps] pairs and the product of their
    transition probabilities. *)
Theorem plan_succeeds_iff_every_step_passes configA configB w :
  let wps := (_interpolate this configA configB w).1 in
  let outcome :=
    (Outcome.plan Math_exp this configA configB architecture w).1 in
  ((exists result, outcome = Resolved result /\ isValid result = true)
   <-> (collisionCheckEnabled this = true ->
        forall i wp, (i < interpolationSteps this)%nat ->
                     wps !! i = Some wp ->
                     Outcome._isValid wp architecture = Some true)
       /\ (forall i wp, (1 <= i)%nat -> wps !! i = Some wp ->
                        is_Some (Outcome._isValid wp architecture))
       /\ (forall k, (1 <= k <= interpolationSteps this)%nat ->
                     gtb (accumulated_cost architecture wps k 0)
                         (maxTransitionCost this) = false))
  /\ (forall result,
        outcome = Resolved result -> isValid result = true ->
        waypoints result = wps
        /\ cost result
           = accumulated_cost architecture wps (interpolationSteps this) 0
        /\ probability result
           = accumulated_probability Math_exp architecture wps
               (interpolationSteps this) 1).
Proof.
  intros wps outcome.
  pose proof (interpolate_length this configA configB w) as Hlen.
  fold wps in Hlen.
  split.
  - subst outcome. rewrite outcome_plan_unfold. fold wps. cbv zeta.
    pose proof (outcome_plan_loop_valid wps 0 1) as Hloop.
    rewrite Hlen in Hloop. split.
    + intros (result & Hres & Hv).
      destruct (Outcome.plan_loop _ _ _ _ _ _) as [[[v c] p]|]; [|done].
      injection Hres as <-. simpl in Hv. subst v.
      destruct (proj1 Hloop (ex_intro _ c (ex_intro _ p eq_refl)))
        as (H1 & H2 & H3).
      split; [|split; [done|]].
      * intros Hc i wp Hi. apply (H1 Hc). lia.
      * intros k Hk. apply H3. lia.
    + intros (H1 & H2 & H3).
      destruct (proj2 Hloop) as (c & p & ->).
      { split; [|split; [done|]].
        - intros Hc i wp Hi. apply (H1 Hc). lia.
        - intros k Hk. apply H3. lia. }
      eexists. split; [reflexivity|done].
  - intros result Hres Hv.
    rewrite <- (outcome_plan Math_exp this architecture _ _ _ _ Hres)
      in Hv |- *.
    rewrite plan_unfold in Hv |- *. fold wps in Hv |- *.
    cbv zeta in Hv |- *. simpl in Hv |- *. rewrite Hv.
    destruct (plan_loop_complete wps 0 1 Hv) as [Hc Hp].
    rewrite Hlen in Hc, Hp.
    replace (S (interpolationSteps this) - 1)%nat
      with (interpolationSteps this) in Hc, Hp by lia.
    done.
Qed.

(** X2. With [interpolationSteps] zero the interpolation parameter is
    [0 / 0]: [plan] builds a single waypoint and, as there is no pair
    to check, succeeds with cost 0 and probability 1, whatever the
    configurations and the architecture; the confidence threshold of
    that waypoint is NaN and its processing mode is that of the
    target. *)
Theorem plan_with_zero_steps configA configB w :
  interpolationSteps this = 0%nat ->
  let result := await (plan Math_exp this configA configB architecture w).1 in
  isValid result = true
  /\ cost result = 0
  /\ probability result = 1
  /\ numSteps result = 1%nat
  /\ exists wp, waypoints result = [wp]
                /\ confidenceThreshold wp = nan
                /\ processingMode wp = processingMode configB.
Proof.
  intros H0 result. subst result. rewrite plan_unfold. cbv zeta.
  pose proof (interpolate_length this configA configB w) as Hlen.
  pose proof (interpolate_loop_lookup this configA configB
                (S (interpolationSteps this)) 0 w 0) as Hwp.
  fold (_interpolate this configA configB) in Hwp.
  destruct ((_interpolate this configA configB w).1) as [|wp [|wp' rest]];
    simpl in Hlen; try lia.
  simpl. repeat split; try done.
  exists wp. split; [done|].
  destruct (Hwp wp eq_refl) as (Hconf & _ & _ & Hmode).
  rewrite H0 in Hconf, Hmode.
  change (of_nat (0 + 0) / of_nat 0) with nan in Hconf, Hmode.
  split; [|exact Hmode].
  rewrite Hconf. unfold linear_interpolation.
  change (1 - nan) with nan. by rewrite !mul_nan_r.
Qed.

End PlanValidity.

(** ** The local planner: the ends of an interpolation *)

Section EndpointProperties.
Import LocalPlanner PlanSpec.

Variable this : Options.

Lemma interpolated_sequence configA configB i w :
  exists w',
    layerSequence (interpolated this configA configB i w).1
    = (_interpolateSequence (layerSequence configA) (layerSequence configB)
         (of_nat i / of_nat (interpolationSteps this)) w').1.
Proof.
  exists w. unfold interpolated, bind, ret, Date_now.
  by destruct (_interpolateSequence _ _ _ _) as [s w'].
Qed.

Lemma interpolate_loop_sequence configA configB n i0 w j wp :
  (interpolate_loop this configA configB n i0 w).1 !! j = Some wp ->
  exists w',
    layerSequence wp
    = (_interpolateSequence (layerSequence configA) (layerSequence configB)
         (of_nat (i0 + j) / of_nat (interpolationSteps this)) w').1.
Proof.
  revert i0 w j. induction n as [|n IH]; intros i0 w j; [done|].
  simpl. unfold bind, ret.
  pose proof (interpolated_sequence configA configB i0 w) as Hwp.
  destruct (interpolated _ _ _ _ _) as [wp0 w1].
  specialize (IH (S i0) w1).
  destruct (interpolate_loop _ _ _ _ _ _) as [rest w2]. simpl in *.
  destruct j as [|j]; simpl.
  - intros [= <-]. by rewrite Nat.add_0_r.
  - intros Hj. replace (i0 + S j)%nat with (S i0 + j)%nat by lia.
    by apply IH.
Qed.

(** X3. With at least one interpolation step, the first interpolated
    waypoint carries the layer sequence and the processing mode of the
    source configuration and the last one those of the target, whatever
    [Math.random] returns: the interpolation parameter is exactly 0 at
    index 0 and exactly 1 at index [interpolationSteps]. *)
Theorem interpolation_ends_at_the_two_configurations configA configB w :
  (1 <= interpolationSteps this)%nat ->
  (Z.of_nat (interpolationSteps this) < 2 ^ 32)%Z ->
  let wps := (_interpolate this configA configB w).1 in
  exists first last,
    wps !! 0%nat = Some first
    /\ wps !! interpolationSteps this = Some last
    /\ layerSequence first = layerSequence configA
    /\ processingMode first = processingMode configA
    /\ layerSequence last = layerSequence configB
    /\ processingMode last = processingMode configB.
Proof.
  intros H1 Hmax wps.
  pose proof (interpolate_length this configA configB w) as Hlen.
  fold wps in Hlen.
  destruct (lookup_lt_is_Some_2 wps 0) as [first Hfirst]; [lia|].
  destruct (lookup_lt_is_Some_2 wps (interpolationSteps this))
    as [last Hlast]; [lia|].
  exists first, last. split; [done|]. split; [done|].
  destruct (interpolate_loop_sequence configA configB _ 0 w _ _ Hfirst)
    as [w0 Hs0].
  destruct (interpolate_loop_sequence configA configB _ 0 w _ _ Hlast)
    as [w1 Hs1].
  destruct (interpolate_loop_lookup this configA configB _ 0 w _ _ Hfirst)
    as (_ & _ & _ & Hm0).
  destruct (interpolate_loop_lookup this configA configB _ 0 w _ _ Hlast)
    as (_ & _ & _ & Hm1).
  simpl Nat.add in *.
  change (of_nat 0) with 0 in Hs0, Hm0.
  rewrite zero_div_of_nat in Hs0, Hm0 by done.
  rewrite of_nat_div_same in Hs1, Hm1 by done.
  repeat split; done.
Qed.

End EndpointProperties.

(** ** The local planner: the layers of a blended sequence *)

Section BlendContents.
Import LocalPlanner.

Lemma push_new_elem hybrid x y :
  y ∈ push_new hybrid x -> y ∈ hybrid \/ y = x.
Proof.
  unfold push_new. destruct (includes hybrid x); [auto|].
  intros [H|H%list_elem_of_singleton]%elem_of_app; auto.
Qed.

Lemma push_new_length hybrid x :
  (length (push_new hybrid x) <= S (length hybrid))%nat.
Proof.
  unfold push_new. destruct (includes hybrid x); [lia|].
  rewrite length_app. simpl. lia.
Qed.

Lemma blend_step_elem seqA seqB t i hybrid w y :
  y ∈ (blend_step seqA seqB t i hybrid w).1 ->
  y ∈ hybrid \/ y ∈ seqA \/ y ∈ seqB.
Proof.
  unfold blend_step, bind, ret, Math_random.
  destruct (seqA !! i) as [a|] eqn:Ea, (seqB !! i) as [b|] eqn:Eb; simpl;
    repeat (destruct (gtb _ _)); try auto;
    intros [H| ->]%push_new_elem; eauto using list_elem_of_lookup_2.
Qed.

Lemma blend_step_length seqA seqB t i hybrid w :
  (length (blend_step seqA seqB t i hybrid w).1 <= S (length hybrid))%nat.
Proof.
  unfold blend_step, bind, ret, Math_random.
  destruct (seqA !! i), (seqB !! i); simpl;
    repeat (destruct (gtb _ _)); auto using push_new_length.
Qed.

Lemma blend_loop_elem seqA seqB t n i hybrid w y :
  y ∈ (blend_loop seqA seqB t n i hybrid w).1 ->
  y ∈ hybrid \/ y ∈ seqA \/ y ∈ seqB.
Proof.
  revert i hybrid w. induction n as [|n IH]; intros i hybrid w; [auto|].
  simpl. unfold bind.
  pose proof (blend_step_elem seqA seqB t i hybrid w y) as Hstep.
  destruct (blend_step _ _ _ _ _ _) as [hybrid' w'].
  intros [H|H]%IH; auto.
Qed.

Lemma blend_loop_length seqA seqB t n i hybrid w :
  (length (blend_loop seqA seqB t n i hybrid w).1 <= n + length hybrid)%nat.
Proof.
  revert i hybrid w. induction n as [|n IH]; intros i hybrid w; [done|].
  simpl. unfold bind.
  pose proof (blend_step_length seqA seqB t i hybrid w) as Hstep.
  destruct (blend_step _ _ _ _ _ _) as [hybrid' w'].
  specialize (IH (S i) hybrid' w'). simpl in *. lia.
Qed.

(** X4. Whatever the interpolation parameter and whatever
    [Math.random] returns, the sequence built by
    [_interpolateSequence] invents no layer: each of its tokens comes
    from one of the two sequences or is ['Input'] or ['Output']; and it
    is at most two tokens longer than the longer of the two. *)
Theorem blended_sequence_invents_no_layer
    (seqA seqB : list string) (t : float) (w : World) :
  let hybrid := (_interpolateSequence seqA seqB t w).1 in
  Forall (fun x => x ∈ seqA \/ x ∈ seqB
                   \/ x = "Input"%string \/ x = "Output"%string) hybrid
  /\ (length hybrid <= Nat.max (length seqA) (length seqB) + 2)%nat.
Proof.
  intros hybrid. subst hybrid. unfold _interpolateSequence.
  destruct (t =? 0).
  { simpl. split; [apply Forall_forall; auto|lia]. }
  destruct (t =? 1).
  { simpl. split; [apply Forall_forall; auto|lia]. }
  unfold bind, ret.
  pose proof (blend_loop_elem seqA seqB t
                (Nat.max (length seqA) (length seqB)) 0 [] w) as Helem.
  pose proof (blend_loop_length seqA seqB t
                (Nat.max (length seqA) (length seqB)) 0 [] w) as Hlen.
  destruct (blend_loop _ _ _ _ _ _ _) as [h w']. simpl in *.
  assert (forall y, y ∈ h -> y ∈ seqA \/ y ∈ seqB) as Hh.
  { intros y Hy. destruct (Helem y Hy) as [H|H]; [|done].
    by apply elem_of_nil in H. }
  set (h1 := if includes h "Input" then h else "Input"%string :: h).
  assert ((forall y, y ∈ h1 -> y ∈ seqA \/ y ∈ seqB \/ y = "Input"%string)
          /\ (length h1 <= S (length h))%nat) as [Hh1 Hl1].
  { subst h1. destruct (includes h "Input").
    - split; [|lia]. intros y Hy. destruct (Hh y Hy); auto.
    - split; [|simpl; lia].
      intros y [->|Hy]%elem_of_cons; [auto|].
      destruct (Hh y Hy); auto. }
  destruct (includes h1 "Output").
  - split; [|lia]. apply Forall_forall. intros y Hy.
    destruct (Hh1 y Hy) as [?|[?|?]]; auto.
  - split; [|rewrite length_app; simpl; lia].
    apply Forall_forall.
    intros y [Hy| ->%list_elem_of_singleton]%elem_of_app; [|auto].
    destruct (Hh1 y Hy) as [?|[?|?]]; auto.
Qed.

End BlendContents.

(** ** The local planner: cost, distance and compatibility *)

Section Measures.
Import LocalPlanner.

Lemma size_list_to_set_le (l : list string) :
  (size (list_to_set l : gset string) <= length l)%nat.
Proof.
  induction l as [|x l IH].
  - change (list_to_set [] : gset string) with (∅ : gset string).
    by rewrite size_empty.
  - change (list_to_set (x :: l) : gset string)
      with ({[x]} ∪ list_to_set l : gset string).
    rewrite size_union_alt, size_singleton. simpl length.
    assert (size (list_to_set l ∖ {[x]} : gset string)
            <= size (list_to_set l : gset string))%nat
      by (apply subseteq_size; intros y Hy;
          apply elem_of_difference in Hy; tauto).
    lia.
Qed.

Lemma size_list_to_set_pos (l : list string) :
  l <> [] -> (1 <= size (list_to_set l : gset string))%nat.
Proof.
  destruct l as [|x l]; [done|]. intros _.
  assert (size (list_to_set (x :: l) : gset string) <> 0%nat); [|lia].
  apply size_non_empty_iff. simpl. set_solver.
Qed.

(** X5. The transition cost, the configuration distance, the layer
    compatibility and [canConnect] are symmetric in the two
    configurations, in binary64 arithmetic and with NaN fields
    included. *)
Theorem transition_measures_are_symmetric (c1 c2 : Config)
    (architecture : Architecture) (maxDistance : float) :
  _computeTransitionCost c1 c2 architecture
  = _computeTransitionCost c2 c1 architecture
  /\ _configDistance c1 c2 = _configDistance c2 c1
  /\ _layerCompatibility (layerSequence c1) (layerSequence c2)
     = _layerCompatibility (layerSequence c2) (layerSequence c1)
  /\ canConnect c1 c2 maxDistance = canConnect c2 c1 maxDistance.
Proof.
  assert (_configDistance c1 c2 = _configDistance c2 c1) as Hd.
  { unfold _configDistance.
    rewrite (abs_sub_comm (of_nat (length (layerSequence c1)))),
            (abs_sub_comm (confidenceThreshold c1)),
            (abs_sub_comm (parallelizationFactor c1)),
            (Nat.max_comm (length (layerSequence c1))).
    reflexivity. }
  split; [|split; [done|split]].
  - unfold _computeTransitionCost.
    rewrite (abs_sub_comm (of_nat (length (layerSequence c1)))),
            (abs_sub_comm (confidenceThreshold c1)),
            (String.eqb_sym (processingMode c1)).
    reflexivity.
  - unfold _layerCompatibility.
    rewrite (intersection_comm_L (list_to_set (layerSequence c1))),
            (union_comm_L (list_to_set (layerSequence c1))).
    reflexivity.
  - unfold canConnect. by rewrite Hd.
Qed.

(** X6. A configuration with at least one layer and finite confidence
    threshold and parallelization factor is at distance 0 from itself,
    fully compatible with itself, within reach of itself for every
    non-negative bound, and the transition to itself costs the base
    cost 30. *)
Theorem self_transition_measures (c : Config) (architecture : Architecture) :
  layerSequence c <> [] ->
  (Z.of_nat (length (layerSequence c)) < 2 ^ 32)%Z ->
  is_finite (confidenceThreshold c) = true ->
  is_finite (parallelizationFactor c) = true ->
  _computeTransitionCost c c architecture = 30
  /\ _configDistance c c = 0
  /\ _layerCompatibility (layerSequence c) (layerSequence c) = 1
  /\ forall maxDistance, canConnect c c maxDistance = (0 <=? maxDistance).
Proof.
  intros Hne Hmax Hconf Hpar.
  assert (1 <= length (layerSequence c))%nat as Hlen
    by (destruct (layerSequence c); [done|simpl; lia]).
  assert (_configDistance c c = 0) as Hd.
  { unfold _configDistance.
    rewrite !sub_same by (done || by apply of_nat_is_finite).
    rewrite Nat.max_id. change (abs 0) with 0.
    rewrite zero_div_of_nat by done. reflexivity. }
  split; [|split; [done|split]].
  - unfold _computeTransitionCost.
    rewrite !sub_same by (done || by apply of_nat_is_finite).
    rewrite String.eqb_refl. reflexivity.
  - unfold _layerCompatibility.
    rewrite intersection_idemp_L, union_idemp_L.
    pose proof (size_list_to_set_le (layerSequence c)).
    pose proof (size_list_to_set_pos (layerSequence c) Hne).
    apply of_nat_div_same; lia.
  - intros maxDistance. unfold canConnect. by rewrite Hd.
Qed.

(** X7. Between two configurations without layers the distance is
    [0 / 0], so it is NaN and [canConnect] answers false for every
    bound, also from a configuration to itself. *)
Theorem empty_sequences_never_connect (c1 c2 : Config) (maxDistance : float) :
  layerSequence c1 = [] -> layerSequence c2 = [] ->
  _configDistance c1 c2 = nan
  /\ canConnect c1 c2 maxDistance = false.
Proof.
  intros H1 H2.
  assert (_configDistance c1 c2 = nan) as Hd.
  { unfold _configDistance. rewrite H1, H2. simpl length. simpl Nat.max.
    change (0 + abs (of_nat 0 - of_nat 0) / of_nat 0 * 40) with nan.
    by rewrite !add_nan_l. }
  split; [done|]. unfold canConnect. rewrite Hd. apply leb_nan_l.
Qed.

End Measures.

(** ** The local planner: dependencies between layers *)

Section DependencyProperties.
Import LocalPlanner.

Lemma hasRequiredDeps_spec sequence architecture i :
  hasRequiredDeps sequence architecture i = true <->
  forall current dep,
    sequence !! i = Some current -> dep ∈ deps_of architecture current ->
    exists j, (j < i)%nat /\ sequence !! j = Some dep.
Proof.
  unfold hasRequiredDeps. destruct (sequence !! i) as [current|]; [|done].
  rewrite forallb_forall. split.
  - intros H c dep [= <-] Hdep.
    apply list_elem_of_In, H, includes_spec, elem_of_take in Hdep
      as (j & Hj & Hlt).
    by exists j.
  - intros H dep Hdep%list_elem_of_In.
    apply includes_spec, elem_of_take.
    destruct (H current dep eq_refl Hdep) as (j & Hlt & Hj). by exists j.
Qed.

Lemma forallb_agree {A} (f g : A -> bool) (l : list A) :
  (forall x, In x l -> f x = g x) -> forallb f l = forallb g l.
Proof.
  induction l as [|x l IH]; intros H; [done|]. simpl.
  rewrite (H x) by (by left). rewrite IH; [done|].
  intros y Hy. apply H. by right.
Qed.

Lemma outcome_hasRequiredDeps_throws sequence architecture i :
  Outcome.hasRequiredDeps sequence architecture i = None
  <-> exists current,
        sequence !! i = Some current
        /\ Outcome.dependencies_get architecture current
           = Outcome.prototype_member.
Proof.
  unfold Outcome.hasRequiredDeps.
  destruct (sequence !! i) as [current|].
  - destruct (Outcome.dependencies_get architecture current) eqn:E.
    + split; [done|]. intros (c & [= <-] & Hc). congruence.
    + split; [|done]. intros _. by exists current.
    + split; [done|]. intros (c & [= <-] & Hc). congruence.
  - split; [done|]. by intros (c & ? & _).
Qed.

Lemma outcome_hasRequiredDeps_passes sequence architecture i :
  Outcome.hasRequiredDeps sequence architecture i = Some true
  <-> forall current,
        sequence !! i = Some current ->
        Outcome.dependencies_get architecture current
        <> Outcome.prototype_member
        /\ forall dep, dep ∈ deps_of architecture current ->
                       exists j, (j < i)%nat /\ sequence !! j = Some dep.
Proof.
  split.
  - intros H current Hcur. split.
    + intros Hproto.
      assert (Outcome.hasRequiredDeps sequence architecture i = None)
        as Hnone by (apply outcome_hasRequiredDeps_throws; by exists current).
      congruence.
    + intros dep Hdep. apply outcome_hasRequiredDeps in H.
      by apply (proj1 (hasRequiredDeps_spec sequence architecture i) H
                  current dep).
  - intros H.
    destruct (Outcome.hasRequiredDeps sequence architecture i) as [b|] eqn:E.
    + f_equal. rewrite <- (outcome_hasRequiredDeps _ _ _ _ E).
      apply hasRequiredDeps_spec. intros current dep Hcur.
      by apply (H current Hcur).
    + apply outcome_hasRequiredDeps_throws in E as (current & Hcur & Hp).
      by destruct (H current Hcur).
Qed.

Lemma outcome_dependency_loop_true sequence architecture n i :
  Outcome.dependency_loop sequence architecture n i = Some true
  <-> forall j, (i <= j < i + n)%nat ->
                Outcome.hasRequiredDeps sequence architecture j = Some true.
Proof.
  revert i. induction n as [|n IH]; intros i; simpl.
  - split; [intros _ j Hj; lia|done].
  - destruct (Outcome.hasRequiredDeps sequence architecture i)
      as [[]|] eqn:E.
    + rewrite IH. split.
      * intros H j Hj. destruct (decide (j = i)) as [->|]; [done|].
        apply H. lia.
      * intros H j Hj. apply H. lia.
    + split; [done|]. intros H. rewrite (H i) in E by lia. done.
    + split; [done|]. intros H. rewrite (H i) in E by lia. done.
Qed.

Lemma outcome_dependency_loop_throws sequence architecture n i :
  Outcome.dependency_loop sequence architecture n i = None
  <-> exists j,
        (i <= j < i + n)%nat
        /\ Outcome.hasRequiredDeps sequence architecture j = None
        /\ forall j', (i <= j' < j)%nat ->
              Outcome.hasRequiredDeps sequence architecture j' = Some true.
Proof.
  revert i. induction n as [|n IH]; intros i; simpl.
  - split; [done|]. intros (j & Hj & _). lia.
  - destruct (Outcome.hasRequiredDeps sequence architecture i)
      as [[]|] eqn:E.
    + rewrite IH. split.
      * intros (j & Hj & Hthrow & Hbefore). exists j.
        split; [lia|]. split; [done|]. intros j' Hj'.
        destruct (decide (j' = i)) as [->|]; [done|]. apply Hbefore. lia.
      * intros (j & Hj & Hthrow & Hbefore).
        assert (j <> i) by congruence.
        exists j. split; [lia|]. split; [done|].
        intros j' Hj'. apply Hbefore. lia.
    + split; [done|]. intros (j & Hj & Hthrow & Hbefore).
      destruct (decide (j = i)) as [->|]; [congruence|].
      rewrite (Hbefore i) in E by lia. done.
    + split; [|done]. intros _. exists i.
      split; [lia|]. split; [done|]. intros j' Hj'. lia.
Qed.

(** X8. The check of a layer sequence returns true exactly when the
    sequence contains ['Input'] and ['Output'] and every layer from
    index 1 on passes: the lookup of its dependencies does not find a
    member of [Object.prototype], and each dependency listed for it
    occurs at a smaller index.  It throws exactly when the sequence
    contains ['Input'] and ['Output'] and the lookup finds such a
    member for a layer at an index from 1 on, all layers between index
    1 and that one passing.  In the remaining cases it returns false.
    The layer at index 0 is not looked up. *)
Theorem layer_sequence_valid_iff (sequence : list string)
    (architecture : Architecture) :
  let passes (i : nat) :=
    forall current,
      sequence !! i = Some current ->
      Outcome.dependencies_get architecture current
      <> Outcome.prototype_member
      /\ forall dep, dep ∈ deps_of architecture current ->
                     exists j, (j < i)%nat /\ sequence !! j = Some dep in
  (Outcome._isLayerSequenceValid sequence architecture = Some true
   <-> "Input"%string ∈ sequence /\ "Output"%string ∈ sequence
       /\ forall i, (1 <= i)%nat -> passes i)
  /\ (Outcome._isLayerSequenceValid sequence architecture = None
      <-> "Input"%string ∈ sequence /\ "Output"%string ∈ sequence
          /\ exists i current,
                (1 <= i)%nat /\ sequence !! i = Some current
                /\ Outcome.dependencies_get architecture current
                   = Outcome.prototype_member
                /\ forall j, (1 <= j < i)%nat -> passes j).
Proof.
  intros passes. subst passes. cbv beta.
  unfold Outcome._isLayerSequenceValid.
  rewrite <- !includes_spec.
  split.
  - destruct (includes sequence "Input"); simpl;
      [|split; [done|by intros [? _]]].
    destruct (includes sequence "Output"); simpl;
      [|split; [done|by intros (_ & ? & _)]].
    rewrite outcome_dependency_loop_true. split.
    + intros H. split; [done|]. split; [done|]. intros i Hi.
      destruct (decide (i < length sequence)%nat) as [Hlt|Hge].
      * apply outcome_hasRequiredDeps_passes, H. lia.
      * intros current Hcur. apply lookup_lt_Some in Hcur. lia.
    + intros (_ & _ & H) j Hj.
      apply outcome_hasRequiredDeps_passes, H. lia.
  - destruct (includes sequence "Input"); simpl;
      [|split; [done|by intros [? _]]].
    destruct (includes sequence "Output"); simpl;
      [|split; [done|by intros (_ & ? & _)]].
    rewrite outcome_dependency_loop_throws. split.
    + intros (j & Hj & Hthrow & Hbefore). split; [done|]. split; [done|].
      apply outcome_hasRequiredDeps_throws in Hthrow
        as (current & Hcur & Hproto).
      exists j, current. split; [lia|]. split; [done|]. split; [done|].
      intros j' Hj'. apply outcome_hasRequiredDeps_passes, Hbefore. lia.
    + intros (_ & _ & i & current & Hi & Hcur & Hproto & Hbefore).
      exists i. split; [apply lookup_lt_Some in Hcur; lia|]. split.
      * apply outcome_hasRequiredDeps_throws. by exists current.
      * intros j' Hj'. apply outcome_hasRequiredDeps_passes, Hbefore. lia.
Qed.

(** X9. The verdict on a sequence does not depend on the dependencies
    declared for its first layer, when that layer does not occur again:
    two architectures that differ only there give the same verdict. *)
Theorem first_layer_dependencies_are_not_checked (first : string)
    (rest : list string) (architecture architecture' : Architecture) :
  first ∉ rest ->
  (forall layer, layer <> first ->
                 deps_of architecture layer = deps_of architecture' layer) ->
  _isLayerSequenceValid (first :: rest) architecture
  = _isLayerSequenceValid (first :: rest) architecture'.
Proof.
  intros Hfirst Hsame. unfold _isLayerSequenceValid.
  destruct (negb _ || negb _); [done|].
  apply forallb_agree. intros i [Hi _]%in_seq.
  unfold hasRequiredDeps.
  destruct i as [|i]; [lia|]. simpl lookup.
  destruct (rest !! i) as [current|] eqn:E; [|done].
  rewrite Hsame; [done|].
  intros ->. apply Hfirst. by apply list_elem_of_lookup_2 in E.
Qed.

End DependencyProperties.

(** ** The local planner: [optimizePath] on a planned path *)

Section ShortcutComposition.
Import LocalPlanner.

Variable Math_exp : float -> float.
Variable this : Options.
Variable architecture : Architecture.

(** X10. [optimizePath] removes nothing: it returns its argument,
    whatever the waypoints, the architecture, the options and the
    random draws; in particular the waypoints of a successful plan come
    back unchanged, all [interpolationSteps + 1] of them. *)
Theorem optimizePath_returns_its_argument (path : list Config)
    (configA configB : Config) (w w' : World) :
  (optimizePath Math_exp this path architecture w).1 = path
  /\ let result :=
       await (plan Math_exp this configA configB architecture w).1 in
     (isValid result = true ->
      length (optimizePath Math_exp this (waypoints result)
                           architecture w').1
      = S (interpolationSteps this)).
Proof.
  split; [apply optimizePath_keeps_every_waypoint|].
  intros result Hv. rewrite optimizePath_keeps_every_waypoint.
  subst result. rewrite plan_unfold in *. cbv zeta in *. simpl in *.
  rewrite Hv. apply interpolate_length.
Qed.

End ShortcutComposition.

(** ** The local planner: probabilities *)

Section ProbabilityRange.
Import LocalPlanner.

Variable Math_exp : float -> float.

(** X11. Whatever [Math.exp] returns, a transition probability is NaN
    or a number of [0, 1], and so is the probability returned by
    [plan]: the running product starts at 1, and the product of two
    numbers of [0, 1] rounds to a number of [0, 1]. *)
Theorem plan_probability_is_nan_or_within_unit_interval
    (this : Options) (configA configB wp1 wp2 : Config)
    (architecture : Architecture) (w : World) :
  let t := _computeTransitionProbability Math_exp wp1 wp2 architecture in
  let p := probability
             (await (plan Math_exp this configA configB architecture w).1) in
  (t = nan \/ ((0 <=? t) = true /\ (t <=? 1) = true))
  /\ (p = nan \/ ((0 <=? p) = true /\ (p <=? 1) = true)).
Proof.
  split.
  - apply transition_probability_nan_or_unit.
  - apply plan_probability_nan_or_unit.
Qed.

End ProbabilityRange.

(** ** The path ranker: reliability and recommendation *)

Section RecommendationProperties.
Import PathRanker.

Variable this : Options.

(** Entries of a ranking are the entries built by [ranked_entry], with
    a rank. *)
Lemma rank_entry_full paths ow r :
  r ∈ rank this paths ow ->
  exists i pathData,
    pathData ∈ paths
    /\ r = RankedPath.with_rank i
             (ranked_entry paths (default (weights this) ow) pathData).
Proof.
  unfold rank. intros (i & x & -> & Hx)%elem_of_lookup_imap.
  apply list_elem_of_lookup_2 in Hx.
  rewrite Array_sort_perm in Hx.
  apply list_elem_of_fmap in Hx as (pathData & -> & Hp).
  by exists (i + 1)%nat, pathData.
Qed.

Lemma reliability_level (probability : value) :
  let level := Reliability.level (_calculateReliability probability) in
  (level = "high"%string <-> gtb (ToNumber probability) 0.8 = true)
  /\ (level = "medium"%string
      <-> gtb (ToNumber probability) 0.8 = false
          /\ gtb (ToNumber probability) 0.5 = true)
  /\ (level = "low"%string <-> gtb (ToNumber probability) 0.5 = false).
Proof.
  cbv zeta. unfold _calculateReliability. cbn [Reliability.level].
  assert (gtb (ToNumber probability) 0.8 = true
          -> gtb (ToNumber probability) 0.5 = true) as HP
    by (unfold gtb; by apply (ltb_trans 0.5 0.8)).
  destruct (gtb (ToNumber probability) 0.8),
           (gtb (ToNumber probability) 0.5);
    try (by specialize (HP eq_refl));
    repeat split; try done; by intros [? ?].
Qed.

Lemma recommendation_action (score : float) (probability : value) :
  let action :=
    Recommendation.action
      (_generateRecommendation score (_calculateReliability probability)) in
  (action = "recommend"%string
   <-> gtb score 0.8 = true /\ gtb (ToNumber probability) 0.8 = true)
  /\ (action = "avoid"%string
      <-> gtb score 0.6 = false \/ gtb (ToNumber probability) 0.5 = false).
Proof.
  cbv zeta. unfold _generateRecommendation, _calculateReliability.
  cbn [Reliability.level].
  assert (gtb (ToNumber probability) 0.8 = true
          -> gtb (ToNumber probability) 0.5 = true) as HP
    by (unfold gtb; by apply (ltb_trans 0.5 0.8)).
  assert (gtb score 0.8 = true -> gtb score 0.6 = true) as HS
    by (unfold gtb; by apply (ltb_trans 0.6 0.8)).
  destruct (gtb (ToNumber probability) 0.8),
           (gtb (ToNumber probability) 0.5),
           (gtb score 0.8), (gtb score 0.6);
    try (by specialize (HP eq_refl)); try (by specialize (HS eq_refl));
    cbn; (split; split); try done;
    try (by intros [? ?]); try (by intros [?|?]); auto.
Qed.

(** X12. In every ranking, the reliability level and the
    recommendation of an entry are decided by thresholds on its
    [pathProbability] [p] and its composite score [s]: the level is
    ['high'] exactly when [p > 0.8] and ['low'] exactly when [p > 0.5]
    fails; the action is ['recommend'] exactly when [s > 0.8] and
    [p > 0.8], and ['avoid'] exactly when [s > 0.6] or [p > 0.5] fails.
    A path without a [pathProbability], or with NaN, is therefore
    always ['low'] and ['avoid'], whatever its score. *)
Theorem recommendation_follows_score_and_probability
    (paths : list PathData.t) (options_weights : option Weights.t) :
  Forall
    (fun r =>
       let p := ToNumber (Metrics.pathProbability
                            (RankedMetrics.raw (RankedPath.metrics r))) in
       let s := RankedPath.compositeScore r in
       let level :=
         Reliability.level (RankedMetrics.reliability (RankedPath.metrics r)) in
       let action := Recommendation.action (RankedPath.recommendation r) in
       (level = "high"%string <-> gtb p 0.8 = true)
       /\ (level = "low"%string <-> gtb p 0.5 = false)
       /\ (action = "recommend"%string
           <-> gtb s 0.8 = true /\ gtb p 0.8 = true)
       /\ (action = "avoid"%string
           <-> gtb s 0.6 = false \/ gtb p 0.5 = false)
       /\ (is_nan p = true ->
           level = "low"%string /\ action = "avoid"%string))
    (rank this paths options_weights).
Proof.
  apply Forall_forall. intros r (i & pathData & _ & ->)%rank_entry_full.
  unfold RankedPath.with_rank, ranked_entry.
  cbn [RankedPath.metrics RankedPath.compositeScore
       RankedPath.recommendation RankedMetrics.raw
       RankedMetrics.reliability].
  generalize (_calculateCompositeScore
                (_normalizeMetrics (PathData.metrics pathData) paths)
                (default (weights this) options_weights)).
  intros s.
  set (p := Metrics.pathProbability (PathData.metrics pathData)).
  destruct (reliability_level p) as (Hhigh & _ & Hlow).
  destruct (recommendation_action s p) as (Hrec & Havoid).
  cbv zeta in *.
  split; [exact Hhigh|]. split; [exact Hlow|].
  split; [exact Hrec|]. split; [exact Havoid|].
  intros Hnan.
  assert (gtb (ToNumber p) 0.5 = false) as H5.
  { unfold gtb. apply is_nan_eq in Hnan. rewrite Hnan. apply ltb_nan_r. }
  split; [by apply Hlow|apply Havoid; by right].
Qed.

Lemma Math_max_zero_lower (x : float) :
  is_nan (Math_max [0; x]) = true \/ (0 <=? Math_max [0; x]) = true.
Proof.
  unfold Math_max. cbn [fold_left].
  change (max_step neg_infinity 0) with 0. rewrite max_step_zero.
  destruct (is_nan x) eqn:E; [by left|right].
  destruct (0 <? x) eqn:L; [by apply ltb_leb|done].
Qed.

Lemma Math_min_one_upper (x : float) :
  is_nan (Math_min [1; x]) = true \/ (Math_min [1; x] <=? 1) = true.
Proof.
  unfold Math_min. cbn [fold_left].
  change (min_step infinity 1) with 1. rewrite min_step_one.
  destruct (is_nan x) eqn:E; [by left|right].
  destruct (x <? 1) eqn:L; [by apply ltb_leb|done].
Qed.

(** X13. The bounds of the Wilson interval are clamped: the lower
    bound is NaN or at least 0, the upper bound is NaN or at most 1;
    [point] is the probability itself and [width] twice the margin.
    So it is for the interval attached to every entry of a ranking,
    whose [point] is the [pathProbability] of the path. *)
Theorem wilson_interval_is_clamped (p : value) (n : float)
    (paths : list PathData.t) (options_weights : option Weights.t) :
  let clamped (i : Interval.t) :=
    (is_nan (Interval.lower i) = true \/ (0 <=? Interval.lower i) = true)
    /\ (is_nan (Interval.upper i) = true
        \/ (Interval.upper i <=? 1) = true)
    /\ Interval.width i = 2 * Interval.margin i in
  (clamped (_wilson95Interval p n)
   /\ Interval.point (_wilson95Interval p n) = p)
  /\ Forall (fun r =>
               clamped (RankedMetrics.confidence95 (RankedPath.metrics r))
               /\ Interval.point
                    (RankedMetrics.confidence95 (RankedPath.metrics r))
                  = Metrics.pathProbability
                      (RankedMetrics.raw (RankedPath.metrics r)))
            (rank this paths options_weights).
Proof.
  assert (forall q m,
            (is_nan (Interval.lower (_wilson95Interval q m)) = true
             \/ (0 <=? Interval.lower (_wilson95Interval q m)) = true)
            /\ (is_nan (Interval.upper (_wilson95Interval q m)) = true
                \/ (Interval.upper (_wilson95Interval q m) <=? 1) = true)
            /\ Interval.width (_wilson95Interval q m)
               = 2 * Interval.margin (_wilson95Interval q m)) as H.
  { intros q m. unfold _wilson95Interval.
    cbn [Interval.lower Interval.upper Interval.width Interval.margin].
    split; [apply Math_max_zero_lower|].
    split; [apply Math_min_one_upper|done]. }
  cbv zeta. split; [split; [apply H|done]|].
  apply Forall_forall. intros r (i & pathData & _ & ->)%rank_entry_full.
  unfold RankedPath.with_rank, ranked_entry.
  cbn [RankedPath.metrics RankedMetrics.confidence95 RankedMetrics.raw].
  split; [apply H|done].
Qed.

End RecommendationProperties.

(** ** The path ranker: [filter] and [groupByReliability] on a ranking *)

Section FilterProperties.
Import PathRanker.

Variable this : Options.

Lemma filter_none {A} (f : A -> bool) (l : list A) :
  Forall (fun a => f a = false) l -> List.filter f l = [].
Proof.
  induction 1 as [|x l Hx _ IH]; [done|]. simpl. by rewrite Hx.
Qed.

Lemma filter_sorted_prefix {A} (score : A -> float) (m : float)
    (l : list A) :
  Forall (fun a => is_nan (score a) = false) l ->
  StronglySorted (fun a b => (score b <=? score a) = true) l ->
  exists n,
    List.filter (fun a => m <=? score a) l = take n l
    /\ Forall (fun a => (m <=? score a) = false) (drop n l).
Proof.
  intros Hnan Hs. induction Hs as [|x l Hs IH Hx].
  - by exists 0%nat.
  - apply Forall_cons in Hnan as [Hnx Hnan]. simpl.
    destruct (m <=? score x) eqn:E.
    + destruct (IH Hnan) as (n & Hn & Hrest).
      exists (S n). simpl. by rewrite Hn.
    + assert (Forall (fun a => (m <=? score a) = false) l) as Hall.
      { rewrite Forall_forall in Hx, Hnan |- *. intros y Hy.
        destruct (m <=? score y) eqn:Ey; [|done].
        destruct (leb_not_nan _ _ Ey) as [Hm _].
        rewrite (leb_trans m (score y) (score x)) in E;
          [done|done|by apply Hnan|done|done|by apply Hx]. }
      exists 0%nat. rewrite (filter_none _ _ Hall). simpl.
      split; [done|]. by constructor.
Qed.

Lemma rank_sorted paths ow :
  Forall (fun e => is_nan (RankedPath.compositeScore e) = false)
         (map (ranked_entry paths (default (weights this) ow)) paths) ->
  StronglySorted
    (fun a b => (RankedPath.compositeScore b
                 <=? RankedPath.compositeScore a) = true)
    (rank this paths ow).
Proof.
  intros Hnan. rewrite rank_unfold.
  apply (StronglySorted_imap
           (fun a b => (RankedPath.compositeScore b
                        <=? RankedPath.compositeScore a) = true)).
  - by intros i j x y.
  - by apply (Array_sort_sorted RankedPath.compositeScore).
Qed.

Lemma rank_scores_not_nan paths ow :
  Forall (fun e => is_nan (RankedPath.compositeScore e) = false)
         (map (ranked_entry paths (default (weights this) ow)) paths) ->
  Forall (fun e => is_nan (RankedPath.compositeScore e) = false)
         (rank this paths ow).
Proof.
  rewrite !Forall_forall. intros Hnan r (i & pathData & Hp & ->)%rank_entry_full.
  cbn [RankedPath.with_rank RankedPath.compositeScore].
  apply Hnan.
  change (map (ranked_entry paths (default (weights this) ow)) paths)
    with (ranked_entry paths (default (weights this) ow) <$> paths).
  by apply list_elem_of_fmap_2.
Qed.

(** X14. When no composite score is NaN, filtering a ranking by a
    minimum score keeps a prefix of it: the entries kept are the first
    [n] of the ranking, with their ranks [1 .. n], and every entry
    after them is below the minimum. *)
Theorem filter_keeps_a_prefix_of_the_ranking (paths : list PathData.t)
    (options_weights : option Weights.t) (minScore : float) :
  Forall (fun e => is_nan (RankedPath.compositeScore e) = false)
         (map (ranked_entry paths (default (weights this) options_weights))
              paths) ->
  let ranked := rank this paths options_weights in
  exists n,
    filter ranked minScore = take n ranked
    /\ map RankedPath.rank (filter ranked minScore)
       = seq 1 (length (filter ranked minScore))
    /\ Forall (fun r => (minScore <=? RankedPath.compositeScore r) = false)
              (drop n ranked).
Proof.
  intros Hnan ranked.
  destruct (filter_sorted_prefix RankedPath.compositeScore minScore ranked
              (rank_scores_not_nan paths options_weights Hnan)
              (rank_sorted paths options_weights Hnan))
    as (n & Hn & Hrest).
  exists n. unfold filter. split; [done|]. split; [|done].
  rewrite Hn. subst ranked. rewrite rank_unfold.
  set (sorted := Array_sort _ _).
  change (map RankedPath.rank) with (fmap (M:=list) RankedPath.rank).
  rewrite fmap_take, fmap_imap.
  rewrite (imap_ext _ (fun j _ => S j)) by (intros; simpl; lia).
  rewrite imap_seq_0, fmap_S_seq, length_take, length_imap.
  apply take_seq.
Qed.

Lemma filter_partition {A} (p1 p2 p3 : A -> bool) (l : list A) :
  Forall (fun a => (p1 a = true /\ p2 a = false /\ p3 a = false)
                   \/ (p1 a = false /\ p2 a = true /\ p3 a = false)
                   \/ (p1 a = false /\ p2 a = false /\ p3 a = true)) l ->
  List.filter p1 l ++ List.filter p2 l ++ List.filter p3 l ≡ₚ l.
Proof.
  induction 1 as [|x l Hx _ IH]; [done|]. simpl.
  destruct Hx as [(-> & -> & ->)|[(-> & -> & ->)|(-> & -> & ->)]]; simpl.
  - by rewrite IH.
  - rewrite <- Permutation_middle. by rewrite IH.
  - rewrite app_assoc, <- Permutation_middle, <- app_assoc. by rewrite IH.
Qed.

(** X15. [groupByReliability] partitions a ranking: every entry of
    the ranking is in exactly one of the groups [high], [medium] and
    [low], so the three groups together are a rearrangement of the
    ranking and their sizes add up to the number of paths. *)
Theorem reliability_groups_partition_the_ranking (paths : list PathData.t)
    (options_weights : option Weights.t) :
  let ranked := rank this paths options_weights in
  let groups := groupByReliability ranked in
  high groups ++ medium groups ++ low groups ≡ₚ ranked
  /\ (length (high groups) + length (medium groups) + length (low groups)
      = length paths)%nat.
Proof.
  intros ranked groups.
  assert (high groups ++ medium groups ++ low groups ≡ₚ ranked) as Hperm.
  { subst groups. unfold groupByReliability. cbn [high medium low].
    apply filter_partition. apply Forall_forall.
    intros r (i & pathData & _ & ->)%rank_entry_full.
    unfold has_level, RankedPath.with_rank, ranked_entry.
    cbn [RankedPath.metrics RankedMetrics.reliability].
    unfold _calculateReliability. cbn [Reliability.level].
    destruct (gtb _ 0.8); [by left|].
    destruct (gtb _ 0.5); [right; by left|right; by right]. }
  split; [done|].
  apply Permutation_length in Hperm. rewrite !length_app in Hperm.
  rewrite Nat.add_assoc in Hperm. rewrite Hperm. subst ranked.
  rewrite rank_unfold, length_imap, Array_sort_length. apply length_map.
Qed.

End FilterProperties.

(** ** The path ranker: [compare] *)

Section CompareProperties.
Import PathRanker.

Variable this : Options.

Lemma sub_nan_l (x : float) : nan - x = nan.
Proof.
  apply Prim2SF_inj. rewrite FloatAxioms.sub_spec. by destruct (Prim2SF x).
Qed.

Lemma sub_nan_r (x : float) : x - nan = nan.
Proof.
  apply Prim2SF_inj. rewrite FloatAxioms.sub_spec.
  by destruct (Prim2SF x) as [[]|[]| |[] m e].
Qed.

(** An entry moves behind another exactly when its score is lower;
    with a NaN score nothing moves. *)
Lemma by_score_decision (a b : RankedPath.t) :
  (0 <? SortCompare by_score a b)
  = (RankedPath.compositeScore a <? RankedPath.compositeScore b).
Proof.
  destruct (is_nan (RankedPath.compositeScore a)) eqn:Ha.
  { unfold SortCompare, by_score. rewrite (is_nan_eq _ Ha).
    rewrite sub_nan_r, ltb_nan_l. reflexivity. }
  destruct (is_nan (RankedPath.compositeScore b)) eqn:Hb.
  { unfold SortCompare, by_score. rewrite (is_nan_eq _ Hb).
    rewrite sub_nan_l, ltb_nan_r. reflexivity. }
  by apply (sort_decision RankedPath.compositeScore).
Qed.

(** X16. [compare] always returns.  The winner is ['B'] exactly when
    the two paths are distinct objects and B's composite score is
    strictly higher than A's; a tie, a NaN score or twice the same
    path gives ['A'].  [scoreDifference] is the absolute difference of
    the two scores, and it is significant when it exceeds 0.1. *)
Theorem compare_prefers_A_unless_B_scores_higher (pathA pathB : PathData.t) :
  let sA := RankedPath.compositeScore
              (ranked_entry [pathA; pathB] (weights this) pathA) in
  let sB := RankedPath.compositeScore
              (ranked_entry [pathA; pathB] (weights this) pathB) in
  exists c,
    compare this pathA pathB = Some c
    /\ (winner c = "B"%string
        <-> (sA <? sB) = true /\ PathData.path pathA <> PathData.path pathB)
    /\ (winner c = "A"%string \/ winner c = "B"%string)
    /\ scoreDifference c = abs (sA - sB)
    /\ significant c = gtb (abs (sA - sB)) 0.1.
Proof.
  intros sA sB. unfold compare. rewrite rank_unfold.
  cbn [default map]. unfold Array_sort. cbn [foldr sort_insert].
  rewrite by_score_decision. fold sA sB.
  set (eA := ranked_entry [pathA; pathB] (weights this) pathA) in *.
  set (eB := ranked_entry [pathA; pathB] (weights this) pathB) in *.
  assert (RankedPath.path eA = PathData.path pathA) as HpA by done.
  assert (RankedPath.path eB = PathData.path pathB) as HpB by done.
  clearbody eA eB.
  destruct (sA <? sB) eqn:E.
  - cbn [imap lookup list_lookup]. eexists. split; [reflexivity|].
    simpl. rewrite HpB. fold sA sB. rewrite (abs_sub_comm sB sA).
    unfold same_object.
    destruct (Nat.eqb_spec (PathData.path pathB) (PathData.path pathA))
      as [Heq|Hne].
    + split; [|by auto]. split; [done|]. intros [_ H]. by rewrite Heq in H.
    + split; [|by auto]. split; [|done]. intros _. split; [done|].
      intros H. by rewrite H in Hne.
  - cbn [imap lookup list_lookup]. eexists. split; [reflexivity|].
    simpl. rewrite HpA. fold sA sB. unfold same_object.
    rewrite Nat.eqb_refl.
    split; [|by auto]. split; [done|]. by intros [? _].
Qed.

End CompareProperties.

(** ** The path ranker: more on sensitivity analysis *)

Section SensitivityEdges.
Import PathRanker.

Variable this : Options.

Lemma fold_left_add_neg_infinity (l : list float) (a : float) :
  l <> [] -> Forall (eq neg_infinity) l ->
  a = 0 \/ a = neg_infinity ->
  fold_left PrimFloat.add l a = neg_infinity.
Proof.
  intros Hne Hall. revert a. induction Hall as [|x l <- _ IH]; [done|].
  intros a Ha. simpl.
  assert (a + neg_infinity = neg_infinity) as ->
    by (destruct Ha as [-> | ->]; reflexivity).
  destruct l as [|y l]; [done|]. apply IH; [done|by right].
Qed.

(** X17. The sensitivity analysis of an empty set of paths, with at
    least one weight variant, returns an empty base ranking, a
    [maxChange] of [-Infinity] for every variant ([Math.max] of
    nothing) and hence the stability [+Infinity], outside of [0, 1]. *)
Theorem sensitivity_of_no_paths (weightVariations : list Weights.t) :
  weightVariations <> [] ->
  (Z.of_nat (length weightVariations) < 2 ^ 32)%Z ->
  exists s,
    sensitivityAnalysis this [] weightVariations = Some s
    /\ baseRanking s = []
    /\ Forall (fun a => maxChange a = neg_infinity) (analyses s)
    /\ stability s = infinity.
Proof.
  intros Hne Hmax. unfold sensitivityAnalysis.
  change (rank this [] None) with (@nil RankedPath.t).
  set (empty := fun weights : Weights.t =>
                  {| a_weights := weights;
                     ranking := [];
                     rankChanges := [];
                     maxChange := neg_infinity |}).
  assert (mapM (analyse this [] []) weightVariations
          = Some (map empty weightVariations)) as ->.
  { apply mapM_Some. apply Forall2_fmap_r, Forall_Forall2_diag.
    by apply Forall_forall. }
  simpl. eexists. split; [reflexivity|]. cbn [baseRanking analyses stability].
  split; [done|].
  assert (Forall (fun a => maxChange a = neg_infinity)
                 (map empty weightVariations)) as Hall.
  { apply Forall_forall. by intros a (x & -> & _)%list_elem_of_fmap. }
  split; [done|].
  unfold _calculateStability.
  rewrite length_map.
  destruct (length weightVariations =? 0)%nat eqn:E.
  { apply Nat.eqb_eq in E. by destruct weightVariations. }
  rewrite fold_left_maxChange, fold_left_add_neg_infinity.
  - rewrite neg_infinity_div_of_nat; [reflexivity| |done].
    apply Nat.eqb_neq in E. lia.
  - by destruct weightVariations.
  - apply Forall_forall. intros x (a & -> & Ha)%list_elem_of_fmap.
    rewrite Forall_forall in Hall. by rewrite (Hall a Ha).
  - by left.
Qed.

Lemma sum_perm (l l' : list Z) :
  l ≡ₚ l' -> foldr Z.add 0%Z l = foldr Z.add 0%Z l'.
Proof.
  induction 1; simpl; lia.
Qed.

Lemma sum_changes (V : list RankedPath.t) (R : list RankedPath.t)
    (changes : list RankChange) :
  Forall2 (fun b c => rank_change V b = Some c) R changes ->
  foldr Z.add 0%Z (map change changes)
  = (foldr Z.add 0%Z (map (fun c => Z.of_nat (variedRank c)) changes)
     - foldr Z.add 0%Z (map (fun b => Z.of_nat (RankedPath.rank b)) R))%Z.
Proof.
  induction 1 as [|b c R changes Hbc _ IH]; [done|].
  simpl. rewrite IH. unfold rank_change in Hbc.
  destruct (find _ V) as [v|]; [|done].
  injection Hbc as <-. simpl. lia.
Qed.

(** X18. When the paths are pairwise distinct objects, the
    sensitivity analysis returns, and the rank changes reported for a
    weight variant cancel out: there is one change per path, and they
    sum to zero, since base and varied ranking both number the same
    paths from 1 to N. *)
Theorem rank_changes_sum_to_zero (paths : list PathData.t)
    (weightVariations : list Weights.t) :
  NoDup (map PathData.path paths) ->
  exists s,
    sensitivityAnalysis this paths weightVariations = Some s
    /\ Forall (fun a =>
                 length (rankChanges a) = length paths
                 /\ foldr Z.add 0%Z (map change (rankChanges a)) = 0%Z)
              (analyses s).
Proof.
  intros Hnd. unfold sensitivityAnalysis.
  destruct (mapM _ weightVariations) as [l|] eqn:E.
  2:{ apply mapM_None in E. apply Exists_exists in E as (w & _ & Hnone).
      destruct (analyse_total this paths None w) as [a Ha]. congruence. }
  simpl. eexists. split; [reflexivity|]. cbn [analyses].
  apply mapM_Some in E. apply Forall_forall. intros a Ha.
  apply list_elem_of_lookup in Ha as [i Hi].
  destruct (Forall2_lookup_r _ _ _ _ _ E Hi) as (w & _ & Haw).
  unfold analyse in Haw.
  set (R := rank this paths None) in *.
  set (V := rank this paths (Some w)) in *.
  destruct (mapM (rank_change V) R) as [changes|] eqn:Ec; [|done].
  injection Haw as <-. cbn [rankChanges].
  apply mapM_Some in Ec.
  assert (length R = length paths) as HlenR.
  { subst R. rewrite rank_unfold, length_imap, Array_sort_length.
    apply length_map. }
  split; [by rewrite <- (Forall2_length _ _ _ Ec)|].
  rewrite (sum_changes V R changes Ec).
  assert (NoDup (map RankedPath.path V)) as HndV
    by (subst V; by rewrite rank_paths).
  set (g := fun p : ref =>
              match find_by_path V p with
              | Some v => Z.of_nat (RankedPath.rank v)
              | None => 0%Z
              end).
  assert (map (fun c => Z.of_nat (variedRank c)) changes
          = map g (map RankedPath.path R)) as ->.
  { clear -Ec. induction Ec as [|b c R changes Hbc _ IH]; [done|].
    simpl. rewrite IH. f_equal. unfold rank_change in Hbc.
    subst g. unfold find_by_path. simpl.
    destruct (find _ V) as [v|]; [|done]. by injection Hbc as <-. }
  assert (map g (map RankedPath.path V)
          = map (fun v => Z.of_nat (RankedPath.rank v)) V) as HV.
  { rewrite map_map. apply map_ext_in. intros v Hv%list_elem_of_In.
    subst g. unfold find_by_path. simpl.
    by rewrite (find_same_object V v HndV Hv). }
  assert (map RankedPath.path R ≡ₚ map RankedPath.path V) as Hperm
    by (subst R V; by rewrite !rank_paths).
  rewrite (sum_perm _ _ (Permutation_map g Hperm)), HV.
  assert (forall ow, map (fun b => Z.of_nat (RankedPath.rank b))
                         (rank this paths ow)
                     = map Z.of_nat (seq 1 (length paths))) as Hranks.
  { intros ow. rewrite <- (map_map RankedPath.rank Z.of_nat). f_equal.
    rewrite rank_unfold.
    set (sorted := Array_sort _ _).
    assert (length sorted = length paths) as <-
      by (subst sorted; rewrite Array_sort_length; apply length_map).
    change (map RankedPath.rank) with (fmap (M:=list) RankedPath.rank).
    rewrite fmap_imap.
    rewrite (imap_ext _ (fun j _ => S j)) by (intros; simpl; lia).
    by rewrite imap_seq_0, fmap_S_seq. }
  subst R V. rewrite !Hranks. lia.
Qed.

End SensitivityEdges.

(** ** The path ranker: paths with the same metrics *)

Section IdenticalMetrics.
Import PathRanker.

Variable this : Options.

Lemma range_of_copies (field : Metrics.t -> value) (v d : float)
    (paths : list PathData.t) :
  truthy v = true -> paths <> [] ->
  (forall p, p ∈ paths -> field (PathData.metrics p) = Some v) ->
  Math_min (map (fun m => or_default (field m) d)
                (map PathData.metrics paths)) = v
  /\ Math_max (map (fun m => or_default (field m) d)
                   (map PathData.metrics paths)) = v.
Proof.
  intros Hv Hne Hall.
  assert (Forall (eq v)
            (map (fun m => or_default (field m) d)
                 (map PathData.metrics paths))) as Hcopies.
  { rewrite Forall_forall. intros x Hx.
    apply list_elem_of_fmap in Hx as (m & -> & Hm).
    apply list_elem_of_fmap in Hm as (p & -> & Hin).
    rewrite (Hall _ Hin). simpl. by rewrite Hv. }
  assert (map (fun m => or_default (field m) d)
              (map PathData.metrics paths) <> []) as Hne'
    by (by destruct paths).
  split; [by apply Math_min_same|by apply Math_max_same].
Qed.

(** X19. When all paths have the same probability, the same cost, the
    same length and the same entropy, each a number other than zero
    (in particular when a single path is ranked), every normalized
    metric of every entry is 0.5; with the default weights every
    composite score is then 0.5, and every path gets the
    recommendation ['avoid'], however good the metrics. *)
Theorem identical_paths_are_all_avoided (paths : list PathData.t)
    (options_weights : option Weights.t) (p c l e : float) :
  default (weights this) options_weights = default_weights ->
  truthy p = true -> truthy c = true -> truthy l = true ->
  truthy e = true ->
  (forall x, x ∈ paths ->
     PathData.metrics x
     = {| Metrics.pathProbability := Some p; Metrics.totalCost := Some c;
          Metrics.pathLength := Some l; Metrics.entropy := Some e |}) ->
  Forall (fun r =>
            RankedMetrics.normalized (RankedPath.metrics r)
            = {| Normalized.probability := 0.5; Normalized.cost := 0.5;
                 Normalized.length := 0.5; Normalized.entropy := 0.5 |}
            /\ RankedPath.compositeScore r = 0.5
            /\ Recommendation.action (RankedPath.recommendation r)
               = "avoid"%string)
         (rank this paths options_weights).
Proof.
  intros Hw Hp Hc Hl He Hall. apply Forall_forall.
  intros r (i & x & Hx & ->)%rank_entry_full.
  assert (paths <> []) as Hne by (intros ->; by apply elem_of_nil in Hx).
  assert (_normalizeMetrics (PathData.metrics x) paths
          = {| Normalized.probability := 0.5; Normalized.cost := 0.5;
               Normalized.length := 0.5; Normalized.entropy := 0.5 |})
    as Hnorm.
  { unfold _normalizeMetrics. cbv zeta. cbn [fst snd].
    destruct (range_of_copies Metrics.pathProbability p 0 paths Hp Hne)
      as [-> _]; [intros y Hy; by rewrite (Hall y Hy)|].
    destruct (range_of_copies Metrics.pathProbability p 1 paths Hp Hne)
      as [_ ->]; [intros y Hy; by rewrite (Hall y Hy)|].
    destruct (range_of_copies Metrics.totalCost c 0 paths Hc Hne)
      as [-> _]; [intros y Hy; by rewrite (Hall y Hy)|].
    destruct (range_of_copies Metrics.totalCost c 1000 paths Hc Hne)
      as [_ ->]; [intros y Hy; by rewrite (Hall y Hy)|].
    destruct (range_of_copies Metrics.pathLength l 1 paths Hl Hne)
      as [-> _]; [intros y Hy; by rewrite (Hall y Hy)|].
    destruct (range_of_copies Metrics.pathLength l 10 paths Hl Hne)
      as [_ ->]; [intros y Hy; by rewrite (Hall y Hy)|].
    destruct (range_of_copies Metrics.entropy e 0 paths He Hne)
      as [-> _]; [intros y Hy; by rewrite (Hall y Hy)|].
    destruct (range_of_copies Metrics.entropy e 5 paths He Hne)
      as [_ ->]; [intros y Hy; by rewrite (Hall y Hy)|].
    unfold _normalize.
    rewrite !eqb_refl by by apply truthy_not_nan. reflexivity. }
  unfold RankedPath.with_rank, ranked_entry.
  cbn [RankedPath.metrics RankedPath.compositeScore
       RankedPath.recommendation RankedMetrics.normalized].
  rewrite Hnorm, Hw.
  change (_calculateCompositeScore
            {| Normalized.probability := 0.5; Normalized.cost := 0.5;
               Normalized.length := 0.5; Normalized.entropy := 0.5 |}
            default_weights) with 0.5.
  split; [done|]. split; [done|].
  unfold _generateRecommendation.
  change (gtb 0.5 0.8) with false. change (gtb 0.5 0.6) with false.
  reflexivity.
Qed.

End IdenticalMetrics.

(** ** The local planner: a check that throws *)

Section RejectedPlans.
Import LocalPlanner PlanSpec.

Variable Math_exp : float -> float.
Variable this : Options.
Variable architecture : Architecture.

(** With the collision check on, [plan] starts by checking the first
    waypoint, which carries the layer sequence of the source
    configuration: when that check throws, the promise is rejected,
    whatever the target and the random draws. *)
Lemma plan_rejects_when_first_check_throws configA configB w :
  collisionCheckEnabled this = true ->
  (1 <= interpolationSteps this)%nat ->
  (Z.of_nat (interpolationSteps this) < 2 ^ 32)%Z ->
  Outcome._isLayerSequenceValid (layerSequence configA) architecture = None ->
  (Outcome.plan Math_exp this configA configB architecture w).1
  = Rejected_TypeError.
Proof.
  intros Hc H1 Hmax Hthrow. rewrite outcome_plan_unfold. cbv zeta.
  pose proof (interpolate_length this configA configB w) as Hlen.
  pose proof (interpolate_loop_sequence this configA configB
                (S (interpolationSteps this)) 0 w 0) as Hseq.
  fold (_interpolate this configA configB) in Hseq.
  destruct ((_interpolate this configA configB w).1)
    as [|wp0 [|wp1 rest]]; simpl in Hlen; try lia.
  destruct (Hseq wp0 eq_refl) as [w0 Hs0].
  simpl Nat.add in Hs0. change (of_nat 0) with 0 in Hs0.
  rewrite zero_div_of_nat in Hs0 by done.
  change ((_interpolateSequence (layerSequence configA)
             (layerSequence configB) 0 w0).1)
    with (layerSequence configA) in Hs0.
  rewrite outcome_plan_loop_cons, Hc.
  unfold Outcome._isValid. by rewrite Hs0, Hthrow.
Qed.

(** X20. Whenever [plan] returns (its promise resolves), an invalid
    waypoint anywhere before the last one, with the collision check on,
    or an accumulated cost above [maxTransitionCost] after any number
    of pairs, makes the result invalid and without waypoints, however
    many valid waypoints came first; [numSteps] is still the number of
    interpolated waypoints, [interpolationSteps + 1]. *)
Theorem returned_plan_discards_waypoints_on_failure configA configB w
    result :
  (Outcome.plan Math_exp this configA configB architecture w).1
  = Resolved result ->
  let wps := (_interpolate this configA configB w).1 in
  (collisionCheckEnabled this = true
   /\ exists i wp, (i < interpolationSteps this)%nat
                   /\ wps !! i = Some wp
                   /\ Outcome._isValid wp architecture = Some false)
  \/ (exists k, (1 <= k <= interpolationSteps this)%nat
                /\ gtb (accumulated_cost architecture wps k 0)
                       (maxTransitionCost this) = true) ->
  isValid result = false
  /\ waypoints result = []
  /\ numSteps result = (interpolationSteps this + 1)%nat.
Proof.
  intros Hres wps H.
  rewrite <- (outcome_plan Math_exp this architecture _ _ _ _ Hres).
  rewrite plan_unfold. fold wps. cbv zeta. simpl.
  pose proof (interpolate_length this configA configB w) as Hlen.
  fold wps in Hlen.
  assert ((plan_loop Math_exp this architecture wps 0 1).1.1 = false) as ->.
  { destruct H as [[Hc (i & wp & Hi & Hwp & Hinv)]|(k & Hk & Hgt)].
    - apply plan_loop_invalid_waypoint with i wp; try done; [lia|].
      by apply outcome_isValid.
    - apply plan_loop_cost_exceeded with k; try done; lia. }
  repeat split. lia.
Qed.

End RejectedPlans.

Section RejectedPlanExample.
Import LocalPlanner PlanSpec Examples.

(** C1, at a source configuration with the layers ['Input'],
    ['toString'], ['Output'], planned towards B with the default
    planner.  When every random draw is [0.1], the second waypoint
    takes B's layers and fails validity (['Analysis'] without
    ['Perception'] before it), so [plan] should return an invalid
    result without waypoints.  But the check of the first waypoint
    looks up ['toString'] among the dependencies, finds the member of
    [Object.prototype] and throws: the promise is rejected, for these
    draws and for any others. *)
Theorem plan_rejects_instead_of_reporting_invalid
    (Math_exp : float -> float) :
  let w := constant_world 0.1 in
  let wps := (_interpolate planner configT configB w).1 in
  collisionCheckEnabled planner = true
  /\ (exists wp, wps !! 1%nat = Some wp
                 /\ Outcome._isValid wp architecture = Some false)
  /\ (Outcome.plan Math_exp planner configT configB architecture w).1
     = Rejected_TypeError
  /\ forall w', (Outcome.plan Math_exp planner configT configB
                   architecture w').1 = Rejected_TypeError.
Proof.
  assert (forall w', (Outcome.plan Math_exp planner configT configB
                        architecture w').1 = Rejected_TypeError) as Hall.
  { intros w'. apply plan_rejects_when_first_check_throws.
    - reflexivity.
    - vm_compute. lia.
    - vm_compute. reflexivity.
    - vm_compute. reflexivity. }
  cbv zeta. split; [reflexivity|]. split; [|split; [apply Hall|exact Hall]].
  eexists. split; vm_compute; reflexivity.
Qed.

End RejectedPlanExample.

(** ** The properties at concrete inputs *)

Section Instances.
Import LocalPlanner PlanSpec PathRanker Examples.

(** Planning from A to B when every random draw is [0.1]: the blend
    takes B's layers, so the second waypoint has ['Analysis'] without
    ['Perception'] before it. *)
Lemma returned_plan_discards_waypoints_on_failure_witness :
  let w := constant_world 0.1 in
  let wps := (_interpolate planner configA configB w).1 in
  exists result,
    (Outcome.plan exp_approx planner configA configB architecture w).1
    = Resolved result
    /\ (exists wp, wps !! 1%nat = Some wp
                   /\ Outcome._isValid wp architecture = Some false)
    /\ isValid result = false
    /\ LocalPlanner.waypoints result = []
    /\ numSteps result = 6%nat.
Proof.
  cbv zeta.
  exists (await (plan exp_approx planner configA configB architecture
                      (constant_world 0.1)).1).
  assert ((Outcome.plan exp_approx planner configA configB architecture
             (constant_world 0.1)).1
          = Resolved (await (plan exp_approx planner configA configB
                                  architecture (constant_world 0.1)).1))
    as Hres by (vm_compute; reflexivity).
  split; [exact Hres|]. split.
  - eexists. split; vm_compute; reflexivity.
  - apply (returned_plan_discards_waypoints_on_failure exp_approx planner
             architecture configA configB (constant_world 0.1) _ Hres).
    left. split; [reflexivity|].
    exists 1%nat. eexists. split; [vm_compute; lia|].
    split; vm_compute; reflexivity.
Defined.

(** The same plan: it is invalid, and its cost and probability are those
accumulated over the pairs processed. *)
Lemma invalid_plan_keeps_partial_cost_and_probability_witness :
  let wps := (_interpolate planner configA configB (constant_world 0.1)).1 in
  let result :=
    await (plan exp_approx planner configA configB architecture
                (constant_world 0.1)).1 in
  isValid result = false
  /\ exists k,
       LocalPlanner.cost result = accumulated_cost architecture wps k 0
       /\ LocalPlanner.probability result
          = accumulated_probability exp_approx architecture wps k 1.
Proof.
  cbv zeta. split; [vm_compute; reflexivity|].
  destruct (invalid_plan_keeps_partial_cost_and_probability exp_approx
              planner architecture configA configB (constant_world 0.1))
    as [(k & _ & _ & Hcost & Hprob) _]; [vm_compute; reflexivity|].
  exists k. split; [exact Hcost|exact Hprob].
Defined.

(** The blend of the layers of A and B at [t = 0.4]. *)
Lemma blended_sequence_witness :
  let hybrid :=
    (_interpolateSequence (layerSequence configA) (layerSequence configB)
                          0.4 (constant_world 0.5)).1 in
  (0 <? 0.4) = true /\ (0.4 <? 1) = true
  /\ includes hybrid "Input" = true
  /\ includes hybrid "Output" = true
  /\ NoDup hybrid.
Proof.
  cbv zeta. split; [reflexivity|]. split; [reflexivity|].
  destruct (blended_sequence_has_input_output_no_duplicates
              (layerSequence configA) (layerSequence configB) 0.4
              (constant_world 0.5) eq_refl eq_refl)
    as (Hin & Hout & Hnd & _).
  split; [exact Hin|]. split; [exact Hout|exact Hnd].
Defined.

(** A configuration with a positive token cost against an architecture
without constraints. *)
Lemma absent_constraint_never_fails_witness :
  constraint maxTokens unconstrained = None
  /\ constraint minConfidence unconstrained = None
  /\ gtb (ToNumber (tokenCost configC))
         (ToNumber (constraint maxTokens unconstrained)) = false
  /\ (confidenceThreshold configC
      <? ToNumber (constraint minConfidence unconstrained)) = false.
Proof.
  split; [reflexivity|]. split; [reflexivity|].
  destruct (absent_constraint_never_fails configC unconstrained)
    as [H1 H2].
  split.
  - exact (proj1 (H1 eq_refl)).
  - exact (proj1 (H2 eq_refl)).
Defined.

(** The plan from A to itself: every waypoint has the parallelization
    factor [2] of A and the token cost [0], and the second one has the
    confidence threshold interpolated at [1 / 5]. *)
Lemma plan_interpolates_scalar_fields_witness :
  let wps := (_interpolate planner configA configA (constant_world 0.5)).1 in
  interpolationSteps planner = 5%nat
  /\ length wps = 6%nat
  /\ (forall wp, wp ∈ wps ->
        parallelizationFactor wp = 2 /\ tokenCost wp = Some 0)
  /\ exists wp, wps !! 1%nat = Some wp
                /\ interpolated_at configA configA (of_nat 1 / of_nat 5) wp.
Proof.
  cbv zeta.
  destruct (plan_interpolates_scalar_fields exp_approx planner configA
              configA architecture (constant_world 0.5))
    as (_ & _ & _ & Hat & Hself).
  destruct (Hself eq_refl) as [Hlen Hall].
  split; [reflexivity|]. split; [exact Hlen|]. split.
  - intros wp Hwp. destruct (Hall wp Hwp) as (Hpar & _ & Htok).
    split.
    + apply (Hpar 2%nat); [vm_compute; reflexivity|reflexivity].
    + apply Htok. reflexivity.
  - eexists. split; [vm_compute; reflexivity|].
    apply (Hat 1%nat). vm_compute. reflexivity.
Defined.

(** C3 fails at a configuration with confidence threshold [0.8] and
    token cost [0.5]: planning from it to itself with five steps gives
    six waypoints, but the second has the confidence threshold
    [0.8000000000000002], and all have the token cost [1].  Integer
    fields are kept only as long as the rounding absorbs the error of
    the interpolation: the parallelization factor [2 ^ 52 + 1] is
    not. *)
Lemma self_plan_changes_scalar_fields :
  let result :=
    await (plan exp_approx planner configC configC unconstrained
                (constant_world 0.5)).1 in
  let large := (_interpolate planner configL configL (constant_world 0.5)).1 in
  isValid result = true
  /\ length (LocalPlanner.waypoints result) = 6%nat
  /\ ~ (forall wp, wp ∈ LocalPlanner.waypoints result ->
          (confidenceThreshold wp =? confidenceThreshold configC) = true)
  /\ ~ (forall wp, wp ∈ LocalPlanner.waypoints result ->
          (ToNumber (tokenCost wp) =? ToNumber (tokenCost configC)) = true)
  /\ ~ (forall wp, wp ∈ large ->
          (parallelizationFactor wp =? parallelizationFactor configL) = true).
Proof.
  cbv zeta.
  set (result := await (plan exp_approx planner configC configC
                          unconstrained (constant_world 0.5)).1).
  assert (exists wp, LocalPlanner.waypoints result !! 1%nat = Some wp
            /\ (confidenceThreshold wp =? confidenceThreshold configC)
               = false
            /\ (ToNumber (tokenCost wp) =? ToNumber (tokenCost configC))
               = false) as (wp & Hwp & Hc & Ht).
  { eexists. split; [vm_compute; reflexivity|].
    split; vm_compute; reflexivity. }
  apply list_elem_of_lookup_2 in Hwp.
  assert (exists wp,
            (_interpolate planner configL configL (constant_world 0.5)).1
              !! 1%nat = Some wp
            /\ (parallelizationFactor wp =? parallelizationFactor configL)
               = false) as (wpl & Hwpl & Hp).
  { eexists. split; vm_compute; reflexivity. }
  apply list_elem_of_lookup_2 in Hwpl.
  split; [vm_compute; reflexivity|]. split; [vm_compute; reflexivity|].
  split; [|split]; intros H.
  - specialize (H wp Hwp). congruence.
  - specialize (H wp Hwp). congruence.
  - specialize (H wpl Hwpl). congruence.
Qed.

(** Three paths of cost 7. *)
Lemma equal_nonzero_costs_normalize_to_half_witness :
  truthy 7 = true
  /\ (forall p, p ∈ equal_cost_paths ->
        Metrics.totalCost (PathData.metrics p) = Some 7)
  /\ forall r, r ∈ rank ranker equal_cost_paths None ->
       Normalized.cost (RankedMetrics.normalized (RankedPath.metrics r))
       = 0.5.
Proof.
  assert (forall p, p ∈ equal_cost_paths ->
            Metrics.totalCost (PathData.metrics p) = Some 7) as Hall.
  { intros p Hp. unfold equal_cost_paths in Hp.
    repeat (apply elem_of_cons in Hp as [->|Hp]; [reflexivity|]).
    by apply elem_of_nil in Hp. }
  split; [reflexivity|]. split; [exact Hall|].
  exact (equal_nonzero_costs_normalize_to_half ranker equal_cost_paths
           None 7 eq_refl Hall).
Defined.

(** C4, at three paths of cost [0].  The costs are identical, so every
    normalized cost should be [0.5], as it is for three paths of cost
    [7].  But the maximum is taken over [totalCost || 1000], and [0] is
    falsy: the range is [0 .. 1000], not [0 .. 0], the test
    [max === min] fails and every normalized cost is
    [1 - (0 - 0) / (1000 - 0) = 1]. *)
Theorem zero_costs_do_not_normalize_to_half :
  (forall p, p ∈ zero_cost_paths ->
     Metrics.totalCost (PathData.metrics p) = Some 0)
  /\ map (fun r => Normalized.cost
                     (RankedMetrics.normalized (RankedPath.metrics r)))
         (rank ranker zero_cost_paths None) = [1; 1; 1]
  /\ ~ (forall r, r ∈ rank ranker zero_cost_paths None ->
          (Normalized.cost (RankedMetrics.normalized (RankedPath.metrics r))
           =? 0.5) = true)
  /\ map (fun r => Normalized.cost
                     (RankedMetrics.normalized (RankedPath.metrics r)))
         (rank ranker equal_cost_paths None) = [0.5; 0.5; 0.5].
Proof.
  split; [|split; [|split]].
  - intros p Hp. unfold zero_cost_paths in Hp.
    repeat (apply elem_of_cons in Hp as [->|Hp]; [reflexivity|]).
    by apply elem_of_nil in Hp.
  - vm_compute. reflexivity.
  - intros H.
    assert (exists r, rank ranker zero_cost_paths None !! 0%nat = Some r
              /\ (Normalized.cost
                    (RankedMetrics.normalized (RankedPath.metrics r))
                  =? 0.5) = false) as (r & Hr & Hcost).
    { eexists. split; vm_compute; reflexivity. }
    apply list_elem_of_lookup_2 in Hr. specialize (H r Hr). congruence.
  - vm_compute. reflexivity.
Qed.

(** Three paths, the last two of equal score: they come first, in the
    order of the input. *)
Lemma rank_sorts_descending_and_stably_witness :
  Forall (fun e => is_nan (RankedPath.compositeScore e) = false)
         (map (ranked_entry tied_paths (weights ranker)) tied_paths)
  /\ map RankedPath.rank (rank ranker tied_paths None) = [1; 2; 3]%nat
  /\ map RankedPath.path (rank ranker tied_paths None) = [2; 3; 1]%nat
  /\ StronglySorted
       (fun a b => (RankedPath.compositeScore b
                    <=? RankedPath.compositeScore a) = true)
       (rank ranker tied_paths None).
Proof.
  assert (Forall (fun e => is_nan (RankedPath.compositeScore e) = false)
            (map (ranked_entry tied_paths (weights ranker)) tied_paths))
    as Hnan by (repeat constructor).
  split; [exact Hnan|].
  destruct (rank_sorts_descending_and_stably ranker tied_paths None)
    as (_ & Hranks & _ & Hsorted).
  split; [exact Hranks|]. split; [vm_compute; reflexivity|].
  exact (proj1 (Hsorted Hnan)).
Defined.

(** C2 fails at three paths of which the second has the cost
    [Infinity]: its normalized cost is [Infinity / Infinity], so its
    composite score is NaN, and NaN is neither below nor above the
    other scores.  The ranking returned is not in non-increasing order
    of score, and neither is any other arrangement of its entries. *)
Lemma rank_with_a_NaN_score_is_not_sorted :
  let ranked := rank ranker infinite_cost_paths None in
  let descending (a b : RankedPath.t) :=
    (RankedPath.compositeScore b <=? RankedPath.compositeScore a) = true in
  infinite_cost_paths <> []
  /\ map (fun e => is_nan (RankedPath.compositeScore e))
         (map (ranked_entry infinite_cost_paths (weights ranker))
              infinite_cost_paths)
     = [false; true; false]
  /\ ~ StronglySorted descending ranked
  /\ forall l, l ≡ₚ ranked -> ~ StronglySorted descending l.
Proof.
  cbv zeta.
  assert (forall l, l ≡ₚ rank ranker infinite_cost_paths None ->
            ~ StronglySorted
                (fun a b => (RankedPath.compositeScore b
                             <=? RankedPath.compositeScore a) = true) l)
    as Hall.
  { intros l Hl Hs.
    assert (exists r, rank ranker infinite_cost_paths None !! 1%nat = Some r
              /\ is_nan (RankedPath.compositeScore r) = true)
      as (r & Hr & Hnan) by (eexists; split; vm_compute; reflexivity).
    apply list_elem_of_lookup_2 in Hr. rewrite <- Hl in Hr.
    apply sorted_scores_are_numbers in Hs.
    - rewrite Forall_forall in Hs. rewrite (Hs r Hr) in Hnan. done.
    - rewrite Hl. vm_compute. lia. }
  split; [discriminate|]. split; [vm_compute; reflexivity|].
  split; [by apply Hall|exact Hall].
Qed.


End Instances.

(** ** Further properties at concrete inputs *)

Section MoreInstances.
Import LocalPlanner PlanSpec PathRanker Examples.

(** A planner built with [interpolationSteps: 0], from A to B. *)
Lemma plan_with_zero_steps_witness :
  interpolationSteps zero_step_planner = 0%nat
  /\ let result :=
       await (plan exp_approx zero_step_planner configA configB architecture
                   (constant_world 0.5)).1 in
     isValid result = true
     /\ LocalPlanner.cost result = 0
     /\ LocalPlanner.probability result = 1
     /\ numSteps result = 1%nat.
Proof.
  split; [reflexivity|]. cbv zeta.
  destruct (plan_with_zero_steps exp_approx zero_step_planner architecture
              configA configB (constant_world 0.5) eq_refl)
    as (Hv & Hc & Hp & Hn & _).
  split; [exact Hv|]. split; [exact Hc|]. split; [exact Hp|exact Hn].
Defined.

(** The default planner, five steps from A to B. *)
Lemma interpolation_ends_at_the_two_configurations_witness :
  (1 <= interpolationSteps planner)%nat
  /\ (Z.of_nat (interpolationSteps planner) < 2 ^ 32)%Z
  /\ let wps := (_interpolate planner configA configB
                   (constant_world 0.5)).1 in
     exists first last,
       wps !! 0%nat = Some first
       /\ wps !! 5%nat = Some last
       /\ layerSequence first = layerSequence configA
       /\ layerSequence last = layerSequence configB.
Proof.
  assert (1 <= interpolationSteps planner)%nat as H1 by (vm_compute; lia).
  assert (Z.of_nat (interpolationSteps planner) < 2 ^ 32)%Z as Hmax
    by (vm_compute; reflexivity).
  split; [exact H1|]. split; [exact Hmax|]. cbv zeta.
  destruct (interpolation_ends_at_the_two_configurations planner configA
              configB (constant_world 0.5) H1 Hmax)
    as (first & last & Hf & Hl & Hsf & _ & Hsl & _).
  exists first, last.
  split; [exact Hf|]. split; [exact Hl|]. split; [exact Hsf|exact Hsl].
Defined.

(** Configuration A against itself. *)
Lemma self_transition_measures_witness :
  layerSequence configA <> []
  /\ (Z.of_nat (length (layerSequence configA)) < 2 ^ 32)%Z
  /\ is_finite (confidenceThreshold configA) = true
  /\ is_finite (parallelizationFactor configA) = true
  /\ _computeTransitionCost configA configA architecture = 30
  /\ _configDistance configA configA = 0
  /\ _layerCompatibility (layerSequence configA) (layerSequence configA) = 1
  /\ canConnect configA configA 50 = true.
Proof.
  assert (layerSequence configA <> []) as Hne by discriminate.
  assert (Z.of_nat (length (layerSequence configA)) < 2 ^ 32)%Z as Hmax
    by (vm_compute; reflexivity).
  split; [exact Hne|]. split; [exact Hmax|].
  split; [reflexivity|]. split; [reflexivity|].
  destruct (self_transition_measures configA architecture Hne Hmax
              eq_refl eq_refl) as (Hc & Hd & Hl & Hcan).
  split; [exact Hc|]. split; [exact Hd|]. split; [exact Hl|].
  rewrite Hcan. reflexivity.
Defined.

(** The configuration without layers against itself. *)
Lemma empty_sequences_never_connect_witness :
  layerSequence configE = []
  /\ _configDistance configE configE = nan
  /\ canConnect configE configE 50 = false.
Proof.
  split; [reflexivity|].
  exact (empty_sequences_never_connect configE configE 50 eq_refl eq_refl).
Defined.

(** A sequence that starts with ['Analysis'], with and without the
    dependency of ['Analysis'] on ['Perception']: it is accepted in
    both cases. *)
Lemma first_layer_dependencies_are_not_checked_witness :
  ("Analysis"%string ∉ ["Input"; "Output"]%string)
  /\ (forall layer, layer <> "Analysis"%string ->
        deps_of analysis_needs_perception layer = deps_of unconstrained layer)
  /\ _isLayerSequenceValid ["Analysis"; "Input"; "Output"]%string
       analysis_needs_perception
     = _isLayerSequenceValid ["Analysis"; "Input"; "Output"]%string
         unconstrained
  /\ _isLayerSequenceValid ["Analysis"; "Input"; "Output"]%string
       analysis_needs_perception = true.
Proof.
  assert ("Analysis"%string ∉ ["Input"; "Output"]%string) as Hfirst.
  { intros H.
    repeat (apply elem_of_cons in H as [H|H]; [discriminate H|]).
    by apply elem_of_nil in H. }
  assert (forall layer, layer <> "Analysis"%string ->
            deps_of analysis_needs_perception layer
            = deps_of unconstrained layer) as Hsame.
  { intros layer Hl. unfold deps_of. simpl.
    rewrite lookup_singleton_ne by done. by rewrite lookup_empty. }
  split; [exact Hfirst|]. split; [exact Hsame|].
  split; [|vm_compute; reflexivity].
  exact (first_layer_dependencies_are_not_checked "Analysis"
           ["Input"; "Output"]%string analysis_needs_perception
           unconstrained Hfirst Hsame).
Defined.

(** The ranking of three paths, filtered at the default minimum. *)
Lemma filter_keeps_a_prefix_of_the_ranking_witness :
  Forall (fun e => is_nan (RankedPath.compositeScore e) = false)
         (map (ranked_entry three_paths (weights ranker)) three_paths)
  /\ exists n,
       filter (rank ranker three_paths None) 0.5
       = take n (rank ranker three_paths None).
Proof.
  assert (Forall (fun e => is_nan (RankedPath.compositeScore e) = false)
            (map (ranked_entry three_paths (weights ranker)) three_paths))
    as Hnan by (repeat constructor).
  split; [exact Hnan|].
  destruct (filter_keeps_a_prefix_of_the_ranking ranker three_paths None
              0.5 Hnan) as (n & Hn & _).
  exists n. exact Hn.
Defined.

(** No paths, one variant. *)
Lemma sensitivity_of_no_paths_witness :
  [default_weights] <> []
  /\ (Z.of_nat (length [default_weights]) < 2 ^ 32)%Z
  /\ exists s,
       sensitivityAnalysis ranker [] [default_weights] = Some s
       /\ stability s = infinity.
Proof.
  assert ([default_weights] <> []) as Hne by discriminate.
  assert (Z.of_nat (length [default_weights]) < 2 ^ 32)%Z as Hmax
    by (vm_compute; reflexivity).
  split; [exact Hne|]. split; [exact Hmax|].
  destruct (sensitivity_of_no_paths ranker [default_weights] Hne Hmax)
    as (s & Hs & _ & _ & Hstab).
  exists s. split; [exact Hs|exact Hstab].
Defined.

(** Three distinct paths, one variant. *)
Lemma rank_changes_sum_to_zero_witness :
  NoDup (map PathData.path three_paths)
  /\ exists s,
       sensitivityAnalysis ranker three_paths [default_weights] = Some s
       /\ Forall (fun a =>
                    foldr Z.add 0%Z (map change (rankChanges a)) = 0%Z)
                 (analyses s).
Proof.
  assert (NoDup (map PathData.path three_paths)) as Hnd
    by (apply (bool_decide_unpack _); vm_compute; exact I).
  split; [exact Hnd|].
  destruct (rank_changes_sum_to_zero ranker three_paths [default_weights]
              Hnd) as (s & Hs & Hall).
  exists s. split; [exact Hs|].
  apply (Forall_impl _ _ _ Hall). intros a [_ Ha]. exact Ha.
Defined.

(** A single path with good metrics. *)
Lemma identical_paths_are_all_avoided_witness :
  default (weights ranker) None = default_weights
  /\ truthy 0.95 = true /\ truthy 50 = true /\ truthy 2 = true
  /\ truthy 0.5 = true
  /\ Forall (fun r =>
               RankedPath.compositeScore r = 0.5
               /\ Recommendation.action (RankedPath.recommendation r)
                  = "avoid"%string)
            (rank ranker [path_with 3 0.95 50 2 0.5] None).
Proof.
  split; [reflexivity|]. repeat (split; [reflexivity|]).
  assert (forall x, x ∈ [path_with 3 0.95 50 2 0.5] ->
            PathData.metrics x
            = {| Metrics.pathProbability := Some 0.95;
                 Metrics.totalCost := Some 50;
                 Metrics.pathLength := Some 2;
                 Metrics.entropy := Some 0.5 |}) as Hall.
  { intros x Hx. apply list_elem_of_singleton in Hx. by subst. }
  pose proof (identical_paths_are_all_avoided ranker
                [path_with 3 0.95 50 2 0.5] None 0.95 50 2 0.5
                eq_refl eq_refl eq_refl eq_refl eq_refl Hall) as H.
  apply (Forall_impl _ _ _ H). intros r (_ & Hs & Ha). by split.
Defined.

End MoreInstances.
